(** * Monster Merge: Chaos Arena -- the simulation core, embedded in Rocq

    A shallow embedding of the entity-component simulation of
    [src/lib/systems/combat.ts], [src/lib/systems/spawn.ts],
    [src/lib/queries.ts], of the constructor and the creation interface of
    [src/lib/game.ts] and of the health bar of the renderer, followed by the
    properties the specification states about them and by further
    properties of the systems.

    Numbers.  A JavaScript [number] is modelled as an exact rational [Q];
    rounding of IEEE doubles (and of the typed arrays behind the component
    stores) is not modelled, except for [calculateMonsterStats], which is
    evaluated in binary64 as well.  [Math.sqrt] only occurs in the comparison
    [Math.sqrt(s) <= r], which is modelled exactly (see [sqrt_le]);
    [Math.atan2], [Math.cos] and [Math.sin] are implementation-approximated
    in ECMAScript and are kept abstract in the class [MathLib].
    [Math.random] is made explicit: a system that draws random numbers takes
    the draws of one call as an argument. *)

From Stdlib Require Import Reals Qreals.
From Stdlib Require Floats.
From Stdlib Require Import ZArith QArith Qround List Bool Lia Lqa.
Import ListNotations.
Open Scope Q_scope.

Notation "w |> f" := (f w) (at level 50, left associativity, only parsing).

(** * Part I: the program *)

(** ** Numbers *)

(** [x < y] on numbers, as a boolean. *)
Definition Qlt_bool (x y : Q) : bool := negb (Qle_bool y x).

(** [Math.sqrt(s) <= r].  Over the reals, for [s >= 0], the square root of
    [s] is at most [r] exactly when [r] is non-negative and [s <= r*r]. *)
Definition sqrt_le (s r : Q) : bool := Qle_bool 0 r && Qle_bool s (r * r).

(** The transcendental functions of the JavaScript [Math] object. *)
Class MathLib := {
  Math_atan2 : Q -> Q -> Q;
  Math_cos : Q -> Q;
  Math_sin : Q -> Q
}.

(** ** The bitecs world *)

Definition entity := nat.

(** Modelled from the spec: [src/lib/components.ts] is not among the sources;
    the components and their fields are the ones the systems access and
    section 3 of the specification lists. *)
Inductive Component :=
| Position | Velocity | Health | Attack | Defense | Monster | Mergeable
| Collider | AI | Sprite | PlayerControlled | Enemy | Knockback | Overlap.

(** Modelled from the spec: the fields of the components of
    [src/lib/components.ts], one store (a zero-initialised array indexed by
    entity id) per field. *)
Inductive Field :=
| Position_x | Position_y
| Velocity_x | Velocity_y
| Health_current | Health_max
| Attack_damage | Attack_range | Attack_cooldown | Attack_timer
| Defense_value
| Monster_type | Monster_level
| Mergeable_canMerge
| Collider_radius | Collider_isTrigger
| Sprite_typeId | Sprite_animationFrame | Sprite_scale | Sprite_rotation
| Sprite_opacity
| AI_state | AI_targetEntity | AI_detectionRange | AI_decisionTimer
| Knockback_force | Knockback_direction | Knockback_remaining.

Definition Component_eq_dec (a b : Component) : {a = b} + {a <> b}.
Proof. decide equality. Defined.

Definition Field_eq_dec (a b : Field) : {a = b} + {a <> b}.
Proof. decide equality. Defined.

(** [GameConfig], with the fields of [DEFAULT_CONFIG] in [game.ts]. *)
Record GameConfig := mkConfig {
  arenaWidth : Q;
  arenaHeight : Q;
  baseSpawnInterval : Q;
  monsterTypes : Q;
  maxLevel : Q;
  initialPlayerMonsters : Q
}.

(** The events the systems push on [world.events]. *)
Inductive GameEvent :=
| MONSTER_SPAWNED (entity : entity) (position : Q * Q) (type level : Q)
                  (isPlayer : bool)
| MONSTER_DAMAGED (entity attacker : entity) (damage : Q) (position : Q * Q).

(** [GameWorld]: the fields [game.ts] initialises, and the part of the bitecs
    world the systems observe: the live entities in the order queries
    enumerate them, the component mask of every entity, and the component
    stores. *)
Record World := mkWorld {
  time : Q;
  delta : Q;
  config : GameConfig;
  events : list GameEvent;
  deadEntities : list entity;
  entitiesToRemove : list entity;
  playerEntities : list entity;
  spawnTimer : Q;
  entityCursor : nat;
  entities : list entity;
  mask : entity -> Component -> bool;
  store : Field -> entity -> Q
}.

Definition set_delta (d : Q) (w : World) : World :=
  mkWorld (time w) d (config w) (events w) (deadEntities w)
          (entitiesToRemove w) (playerEntities w) (spawnTimer w)
          (entityCursor w) (entities w) (mask w) (store w).

Definition set_events (ev : list GameEvent) (w : World) : World :=
  mkWorld (time w) (delta w) (config w) ev (deadEntities w)
          (entitiesToRemove w) (playerEntities w) (spawnTimer w)
          (entityCursor w) (entities w) (mask w) (store w).

Definition set_deadEntities (d : list entity) (w : World) : World :=
  mkWorld (time w) (delta w) (config w) (events w) d
          (entitiesToRemove w) (playerEntities w) (spawnTimer w)
          (entityCursor w) (entities w) (mask w) (store w).

Definition set_playerEntities (p : list entity) (w : World) : World :=
  mkWorld (time w) (delta w) (config w) (events w) (deadEntities w)
          (entitiesToRemove w) p (spawnTimer w)
          (entityCursor w) (entities w) (mask w) (store w).

Definition set_spawnTimer (t : Q) (w : World) : World :=
  mkWorld (time w) (delta w) (config w) (events w) (deadEntities w)
          (entitiesToRemove w) (playerEntities w) t
          (entityCursor w) (entities w) (mask w) (store w).

Definition set_ecs (c : nat) (es : list entity)
           (m : entity -> Component -> bool) (w : World) : World :=
  mkWorld (time w) (delta w) (config w) (events w) (deadEntities w)
          (entitiesToRemove w) (playerEntities w) (spawnTimer w)
          c es m (store w).

Definition set_store (s : Field -> entity -> Q) (w : World) : World :=
  mkWorld (time w) (delta w) (config w) (events w) (deadEntities w)
          (entitiesToRemove w) (playerEntities w) (spawnTimer w)
          (entityCursor w) (entities w) (mask w) s.

(** [world.events.push(e)], [world.playerEntities.push(e)],
    [world.deadEntities.push(e)]. *)
Definition pushEvent (e : GameEvent) (w : World) : World :=
  set_events (events w ++ [e]) w.

Definition pushPlayerEntity (e : entity) (w : World) : World :=
  set_playerEntities (playerEntities w ++ [e]) w.

Definition pushDeadEntity (e : entity) (w : World) : World :=
  set_deadEntities (deadEntities w ++ [e]) w.

(** [Comp.field[e]] and [Comp.field[e] = v]. *)
Definition get (f : Field) (e : entity) (w : World) : Q := store w f e.

Definition set (f : Field) (e : entity) (v : Q) (w : World) : World :=
  set_store (fun f' e' =>
               if Field_eq_dec f f'
               then if Nat.eqb e e' then v else store w f' e'
               else store w f' e') w.

(** bitecs [entityExists], [hasComponent], [addComponent], [addEntity] and
    [removeEntity].  [addEntity] hands out the next id of the entity cursor
    (the recycling of removed ids is not modelled); [removeEntity] does
    nothing for an id that is not alive, and otherwise takes the entity out
    of the world and of every query by clearing its component mask.
    [addComponent] is only ever called here on an entity that is alive (bitecs
    raises otherwise, which is not modelled). *)
Definition entityExists (e : entity) (w : World) : bool :=
  existsb (Nat.eqb e) (entities w).

Definition hasComponent (c : Component) (e : entity) (w : World) : bool :=
  mask w e c.

Definition addComponent (c : Component) (e : entity) (w : World) : World :=
  set_ecs (entityCursor w) (entities w)
          (fun e' c' =>
             if Nat.eqb e e'
             then if Component_eq_dec c c' then true else mask w e' c'
             else mask w e' c') w.

Definition addEntity (w : World) : World * entity :=
  let eid := entityCursor w in
  (set_ecs (S eid) (entities w ++ [eid]) (mask w) w, eid).

Definition removeEntity (e : entity) (w : World) : World :=
  if entityExists e w
  then set_ecs (entityCursor w)
               (filter (fun e' => negb (Nat.eqb e e')) (entities w))
               (fun e' c' => if Nat.eqb e e' then false else mask w e' c') w
  else w.

(** [defineQuery(components)]: the live entities carrying every listed
    component, in the order of the world's entity list. *)
Definition defineQuery (cs : list Component) (w : World) : list entity :=
  filter (fun e => forallb (fun c => hasComponent c e w) cs) (entities w).

(** ** queries.ts *)

Definition healthQuery := defineQuery [Health].
Definition attackerQuery := defineQuery [Position; Attack].
Definition damageableQuery := defineQuery [Position; Health].
Definition knockbackQuery := defineQuery [Position; Knockback].
Definition monsterQuery := defineQuery [Position; Health; Monster].
Definition playerMonsterQuery :=
  defineQuery [Position; Health; Monster; PlayerControlled].
Definition enemyMonsterQuery := defineQuery [Position; Health; Monster; Enemy].

(** ** rendering/monster-sprites.ts: [enum MonsterType] *)

Module MonsterType.
Definition FIRE : Q := 0.
Definition WATER : Q := 1.
Definition EARTH : Q := 2.
Definition AIR : Q := 3.
End MonsterType.

(** ** systems/spawn.ts *)

(** [MonsterStats]; every field is the result of a [Math.floor], an integer. *)
Record MonsterStats := mkStats {
  health : Z;
  attack : Z;
  defense : Z;
  speed : Z;
  radius : Z
}.

(** [BASE_MONSTER_STATS[type]]: the table is keyed by the four members of the
    enum; any other key reads [undefined], here [None]. *)
Definition BASE_MONSTER_STATS (type : Q) : option MonsterStats :=
  if Qeq_bool type MonsterType.FIRE then Some (mkStats 100 15 5 120 25)
  else if Qeq_bool type MonsterType.WATER then Some (mkStats 120 10 10 100 25)
  else if Qeq_bool type MonsterType.EARTH then Some (mkStats 150 8 15 80 25)
  else if Qeq_bool type MonsterType.AIR then Some (mkStats 80 12 8 140 25)
  else None.

(** [calculateMonsterStats(type, level)].  Reading a property of an
    [undefined] base record raises a [TypeError]: the result is [None]. *)
Definition calculateMonsterStats (type level : Q) : option MonsterStats :=
  match BASE_MONSTER_STATS type with
  | None => None
  | Some baseStats =>
      Some {|
        health := Qfloor (inject_Z (health baseStats) * (1 + (level - 1) * 0.5));
        attack := Qfloor (inject_Z (attack baseStats) * (1 + (level - 1) * 0.3));
        defense := Qfloor (inject_Z (defense baseStats) * (1 + (level - 1) * 0.3));
        speed := Qfloor (inject_Z (speed baseStats) * (1 + (level - 1) * 0.1));
        radius := Qfloor (inject_Z (radius baseStats) * (1 + (level - 1) * 0.2))
      |}
  end.

(** [calculateMonsterStats] once more, evaluated as JavaScript does: in IEEE
    754 binary64 with round-to-nearest-even, on the kernel's primitive
    floats, for an integer level.  It serves to delimit where the exact model
    above and the rounded arithmetic give the same integers. *)
Module Binary64.
Import Floats.

(** An integer as a double (exact below 2^53). *)
Definition of_Z (z : Z) : float :=
  match z with
  | Z0 => 0%float
  | Zpos _ => PrimFloat.of_uint63 (Uint63.of_Z z)
  | Zneg p => (- PrimFloat.of_uint63 (Uint63.of_Z (Zpos p)))%float
  end.

(** [Math.floor] of a finite double, as an integer. *)
Definition floor (x : float) : option Z :=
  match Prim2SF x with
  | S754_zero _ => Some 0%Z
  | S754_finite s m e =>
      let v := if s then Zneg m else Zpos m in
      Some (if (0 <=? e)%Z then v * 2 ^ e else v / 2 ^ (- e))%Z
  | S754_infinity _ | S754_nan => None
  end.

(** [Math.floor(base * (1 + (level - 1) * k))]. *)
Definition scale (base level : Z) (k : float) : option Z :=
  floor (of_Z base * (1 + (of_Z level - 1) * k))%float.

(** The doubles nearest to 0.5, 0.3, 0.1 and 0.2. *)
Definition k05 : float := 0x1p-1%float.
Definition k03 : float := 0x1.3333333333333p-2%float.
Definition k01 : float := 0x1.999999999999ap-4%float.
Definition k02 : float := 0x1.999999999999ap-3%float.

Definition calculateMonsterStats (type : Q) (level : Z) : option MonsterStats :=
  match BASE_MONSTER_STATS type with
  | None => None
  | Some baseStats =>
      match scale (health baseStats) level k05,
            scale (attack baseStats) level k03,
            scale (defense baseStats) level k03,
            scale (speed baseStats) level k01,
            scale (radius baseStats) level k02 with
      | Some h, Some a, Some d, Some s, Some r => Some (mkStats h a d s r)
      | _, _, _, _, _ => None
      end
  end.

End Binary64.

(** How a call that may raise ends: with a value, or with the [TypeError] of
    a property read on [undefined].  The world it leaves behind is returned
    next to it, since what was written before the error stays written. *)
Inductive Completion (A : Type) :=
| Return (a : A)
| Throw_TypeError.
Arguments Return {A} a.
Arguments Throw_TypeError {A}.

(** [createPlayerMonster(world, x, y, type, level)]. *)
Definition createPlayerMonster (x y type level : Q) (world : World)
  : World * Completion entity :=
  let (world, entity) := addEntity world in
  match calculateMonsterStats type level with
  | None => (world, Throw_TypeError)
  | Some stats =>
      (world
       |> addComponent Position entity
       |> set Position_x entity x
       |> set Position_y entity y
       |> addComponent Velocity entity
       |> set Velocity_x entity 0
       |> set Velocity_y entity 0
       |> addComponent Health entity
       |> set Health_current entity (inject_Z (health stats))
       |> set Health_max entity (inject_Z (health stats))
       |> addComponent Attack entity
       |> set Attack_damage entity (inject_Z (attack stats))
       |> set Attack_range entity (inject_Z (radius stats) * 1.5)
       |> set Attack_cooldown entity 1.0
       |> set Attack_timer entity 0
       |> addComponent Defense entity
       |> set Defense_value entity (inject_Z (defense stats))
       |> addComponent Monster entity
       |> set Monster_type entity type
       |> set Monster_level entity level
       |> addComponent Mergeable entity
       |> set Mergeable_canMerge entity 1
       |> addComponent Collider entity
       |> set Collider_radius entity (inject_Z (radius stats))
       |> set Collider_isTrigger entity 0
       |> addComponent Sprite entity
       |> set Sprite_typeId entity type
       |> set Sprite_animationFrame entity 0
       |> set Sprite_scale entity 1.0
       |> set Sprite_rotation entity 0
       |> set Sprite_opacity entity 1.0
       |> addComponent PlayerControlled entity
       |> pushPlayerEntity entity
       |> pushEvent (MONSTER_SPAWNED entity (x, y) type level true),
       Return entity)
  end.

(** [createEnemyMonster(world, x, y, type, level)]. *)
Definition createEnemyMonster (x y type level : Q) (world : World)
  : World * Completion entity :=
  let (world, entity) := addEntity world in
  match calculateMonsterStats type level with
  | None => (world, Throw_TypeError)
  | Some stats =>
      (world
       |> addComponent Position entity
       |> set Position_x entity x
       |> set Position_y entity y
       |> addComponent Velocity entity
       |> set Velocity_x entity 0
       |> set Velocity_y entity 0
       |> addComponent Health entity
       |> set Health_current entity (inject_Z (health stats))
       |> set Health_max entity (inject_Z (health stats))
       |> addComponent Attack entity
       |> set Attack_damage entity (inject_Z (attack stats))
       |> set Attack_range entity (inject_Z (radius stats) * 1.5)
       |> set Attack_cooldown entity 1.0
       |> set Attack_timer entity 0
       |> addComponent Defense entity
       |> set Defense_value entity (inject_Z (defense stats))
       |> addComponent Monster entity
       |> set Monster_type entity type
       |> set Monster_level entity level
       |> addComponent Mergeable entity
       |> set Mergeable_canMerge entity 0
       |> addComponent Collider entity
       |> set Collider_radius entity (inject_Z (radius stats))
       |> set Collider_isTrigger entity 0
       |> addComponent Sprite entity
       |> set Sprite_typeId entity type
       |> set Sprite_animationFrame entity 0
       |> set Sprite_scale entity 1.0
       |> set Sprite_rotation entity 0
       |> set Sprite_opacity entity 1.0
       |> addComponent AI entity
       |> set AI_state entity 0
       |> set AI_targetEntity entity 0
       |> set AI_detectionRange entity (inject_Z (radius stats) * 5)
       |> set AI_decisionTimer entity 0
       |> addComponent Enemy entity
       |> pushEvent (MONSTER_SPAWNED entity (x, y) type level false),
       Return entity)
  end.

(** The six results of [Math.random()] that one firing of [spawnSystem]
    consumes, in the order of the calls: the spawn interval, the choice
    between a horizontal and a vertical edge, the two draws of the position
    ([x] then [y]), the monster type and the level. *)
Record SpawnRolls := mkRolls {
  intervalRoll : Q;
  edgeRoll : Q;
  xRoll : Q;
  yRoll : Q;
  typeRoll : Q;
  levelRoll : Q
}.

(** [spawnSystem(world)]. *)
Definition spawnSystem (rolls : SpawnRolls) (world : World)
  : World * Completion unit :=
  let world := set_spawnTimer (spawnTimer world - delta world) world in
  if Qle_bool (spawnTimer world) 0 then
    let world :=
      set_spawnTimer (baseSpawnInterval (config world)
                      * (0.8 + intervalRoll rolls * 0.4)) world in
    let arenaWidth := arenaWidth (config world) in
    let arenaHeight := arenaHeight (config world) in
    let (x, y) :=
      if Qlt_bool (edgeRoll rolls) 0.5
      then (xRoll rolls * arenaWidth,
            if Qlt_bool (yRoll rolls) 0.5 then 20 else arenaHeight - 20)
      else (if Qlt_bool (xRoll rolls) 0.5 then 20 else arenaWidth - 20,
            yRoll rolls * arenaHeight) in
    let type := inject_Z (Qfloor (typeRoll rolls * 4)) in
    let level :=
      if Qlt_bool 0.95 (levelRoll rolls) then 3
      else if Qlt_bool 0.8 (levelRoll rolls) then 2
      else 1 in
    match createEnemyMonster x y type level world with
    | (world, Return _) => (world, Return tt)
    | (world, Throw_TypeError) => (world, Throw_TypeError)
    end
  else (world, Return tt).

(** ** systems/combat.ts *)

Section Combat.
Context {M : MathLib}.

(** The first loop of [attackSystem]: "Update attack cooldowns". *)
Definition decayCooldowns (attackers : list entity) (delta : Q)
           (world : World) : World :=
  fold_left
    (fun world attacker =>
       if Qlt_bool 0 (get Attack_timer attacker world)
       then set Attack_timer attacker
                (get Attack_timer attacker world - delta) world
       else world)
    attackers world.

(** The body of [if (distance <= attackRange)]: damage, knockback, cooldown
    reset and the [MONSTER_DAMAGED] event. *)
Definition strike (attacker target : entity) (dx dy targetX targetY : Q)
           (world : World) : World :=
  let damage := get Attack_damage attacker world in
  let world :=
    set Health_current target (get Health_current target world - damage)
        world in
  let world :=
    if negb (hasComponent Knockback target world)
    then addComponent Knockback target world
    else world in
  let world := set Knockback_force target (damage * 10) world in
  let world := set Knockback_direction target (Math_atan2 dy dx) world in
  let world := set Knockback_remaining target 0.2 world in
  let world :=
    set Attack_timer attacker (get Attack_cooldown attacker world) world in
  pushEvent (MONSTER_DAMAGED target attacker damage (targetX, targetY))
            world.

(** The inner loop over [targets], from index [j] on; it ends at the first
    strike ([break]) or with the list. *)
Fixpoint scanTargets (attacker : entity) (attackerX attackerY attackRange : Q)
         (targets : list entity) (world : World) : World :=
  match targets with
  | [] => world
  | target :: rest =>
      if Nat.eqb target attacker
      then scanTargets attacker attackerX attackerY attackRange rest world
      else
        let targetX := get Position_x target world in
        let targetY := get Position_y target world in
        let dx := targetX - attackerX in
        let dy := targetY - attackerY in
        if sqrt_le (dx * dx + dy * dy) attackRange
        then strike attacker target dx dy targetX targetY world
        else scanTargets attacker attackerX attackerY attackRange rest world
  end.

(** One iteration of the second loop: "Process attacks" for one
    attacker. *)
Definition processAttacker (targets : list entity) (world : World)
           (attacker : entity) : World :=
  if Qlt_bool 0 (get Attack_timer attacker world) then world
  else
    scanTargets attacker
                (get Position_x attacker world)
                (get Position_y attacker world)
                (get Attack_range attacker world)
                targets world.

Definition processAttacks (attackers targets : list entity)
           (world : World) : World :=
  fold_left (processAttacker targets) attackers world.

(** [attackSystem(world)]. *)
Definition attackSystem (world : World) : World :=
  let attackers := attackerQuery world in
  let targets := damageableQuery world in
  let delta := delta world in
  world |> decayCooldowns attackers delta
        |> processAttacks attackers targets.

(** One iteration of the loop of [knockbackSystem]. *)
Definition knockbackStep (delta : Q) (world : World) (entity : entity)
  : World :=
  let world :=
    set Knockback_remaining entity
        (get Knockback_remaining entity world - delta) world in
  if Qlt_bool 0 (get Knockback_remaining entity world) then
    let force := get Knockback_force entity world in
    let direction := get Knockback_direction entity world in
    let knockbackVelocityX := Math_cos direction * force in
    let knockbackVelocityY := Math_sin direction * force in
    let world :=
      set Position_x entity
          (get Position_x entity world + knockbackVelocityX * delta) world in
    let world :=
      set Position_y entity
          (get Position_y entity world + knockbackVelocityY * delta) world in
    set Knockback_force entity (get Knockback_force entity world * 0.9) world
  else world.

(** [knockbackSystem(world)]. *)
Definition knockbackSystem (world : World) : World :=
  let entities := knockbackQuery world in
  let delta := delta world in
  fold_left (knockbackStep delta) entities world.

End Combat.

(** The first loop of [healthSystem]: "Check for dead entities". *)
Definition markDead (entities : list entity) (world : World) : World :=
  fold_left
    (fun world entity =>
       if Qle_bool (get Health_current entity world) 0
       then pushDeadEntity entity world
       else world)
    entities world.

(** The second loop of [healthSystem]: [pop] takes the last element of
    [world.deadEntities]; [stack] is that array from its end, so the loop runs
    once per element and leaves the array empty. *)
Fixpoint drainDead (stack : list entity) (world : World) : World :=
  match stack with
  | [] => world
  | entity :: rest =>
      drainDead rest
                (removeEntity entity (set_deadEntities (rev rest) world))
  end.

(** [healthSystem(world)]. *)
Definition healthSystem (world : World) : World :=
  let entities := healthQuery world in
  let world := markDead entities world in
  drainDead (rev (deadEntities world)) world.

(** ** game.ts *)

Definition DEFAULT_CONFIG : GameConfig :=
  {| arenaWidth := 800;
     arenaHeight := 600;
     baseSpawnInterval := 3;
     monsterTypes := 4;
     maxLevel := 10;
     initialPlayerMonsters := 1 |}.

(** The world the constructor of [Game] sets up, before the initial player
    monsters are created. *)
Definition createWorld (mergedConfig : GameConfig) : World :=
  {| time := 0;
     delta := 0;
     config := mergedConfig;
     events := [];
     deadEntities := [];
     entitiesToRemove := [];
     playerEntities := [];
     spawnTimer := baseSpawnInterval mergedConfig;
     entityCursor := 0;
     entities := [];
     mask := fun _ _ => false;
     store := fun _ _ => 0 |}.

(** The draw of the monster type in [Game.initializePlayerMonsters]. *)
Definition initialMonsterType (roll : Q) (world : World) : Q :=
  inject_Z (Qfloor (roll * monsterTypes (config world))).

(** [Game.movePlayerMonster(entity, vx, vy)], on the world of the game. *)
Definition Game_movePlayerMonster (entity : entity) (vx vy : Q)
           (world : World) : World :=
  if existsb (Nat.eqb entity) (playerEntities world)
  then world |> set Velocity_x entity vx |> set Velocity_y entity vy
  else world.

(** [Game.createPlayerMonster(x, y, type)], on the world of the game. *)
Definition Game_createPlayerMonster (x y type : Q) (world : World)
  : World * Completion entity :=
  createPlayerMonster x y type 1 world.

(** The three results of [Math.random()] that one turn of the loop of
    [Game.initializePlayerMonsters] consumes, in the order of the calls: the
    two draws of the position and the draw of the monster type. *)
Record PlayerRolls := mkPlayerRolls {
  centerXRoll : Q;
  centerYRoll : Q;
  playerTypeRoll : Q
}.

(** The loop of [Game.initializePlayerMonsters], [turns] turns from turn [i]
    on; [rolls i] are the draws of turn [i].  A [TypeError] of
    [createPlayerMonster] ends the loop. *)
Fixpoint initializeLoop (arenaWidth arenaHeight : Q) (turns : nat)
         (rolls : nat -> PlayerRolls) (i : nat) (world : World)
  : World * Completion unit :=
  match turns with
  | O => (world, Return tt)
  | S turns =>
      let x := arenaWidth / 2 + (centerXRoll (rolls i) * 200 - 100) in
      let y := arenaHeight / 2 + (centerYRoll (rolls i) * 200 - 100) in
      let type := initialMonsterType (playerTypeRoll (rolls i)) world in
      match createPlayerMonster x y type 1 world with
      | (world, Return _) =>
          initializeLoop arenaWidth arenaHeight turns rolls (S i) world
      | (world, Throw_TypeError) => (world, Throw_TypeError)
      end
  end.

(** [Game.initializePlayerMonsters()].  The loop
    [for (let i = 0; i < initialPlayerMonsters; i++)] takes one turn for
    every natural number below [initialPlayerMonsters]: that many turns as
    the number rounded up, none when it is zero or negative. *)
Definition Game_initializePlayerMonsters (rolls : nat -> PlayerRolls)
           (world : World) : World * Completion unit :=
  let initialPlayerMonsters := initialPlayerMonsters (config world) in
  let arenaWidth := arenaWidth (config world) in
  let arenaHeight := arenaHeight (config world) in
  initializeLoop arenaWidth arenaHeight
                 (Z.to_nat (Qceiling initialPlayerMonsters)) rolls 0 world.

(** The constructor of [Game], from the merged configuration on: the empty
    world, then the initial player monsters. *)
Definition Game_constructor (mergedConfig : GameConfig)
           (rolls : nat -> PlayerRolls) : World * Completion unit :=
  Game_initializePlayerMonsters rolls (createWorld mergedConfig).

(** ** The renderer: the health bar of [PixiRenderer.render] *)

(** What [render] draws as the health bar of an entity of [monsterQuery]:
    the background [drawRect(healthX, healthY, healthWidth, healthHeight)]
    and, in [healthColor], the fill
    [drawRect(healthX, healthY, healthFillWidth, healthHeight)]. *)
Record HealthBar := mkHealthBar {
  healthX : Q;
  healthY : Q;
  healthWidth : Q;
  healthHeight : Q;
  healthFillWidth : Q;
  healthColor : Z
}.

(** The arithmetic of "Update health bar" in [render].  The quotient
    [health / maxHealth] is that of JavaScript for [maxHealth] other than
    zero only. *)
Definition render_healthBar (entity : entity) (world : World) : HealthBar :=
  let radius := get Collider_radius entity world in
  let health := get Health_current entity world in
  let maxHealth := get Health_max entity world in
  let healthWidth := radius * 2 in
  let healthHeight := 6 in
  let healthX := - radius in
  let healthY := - radius - 10 in
  let healthFillWidth := (health / maxHealth) * healthWidth in
  let healthColor :=
    if Qle_bool health (maxHealth * 0.2) then 0xFF5733%Z
    else if Qle_bool health (maxHealth * 0.5) then 0xF3FF33%Z
    else 0x33FF57%Z in
  {| healthX := healthX; healthY := healthY;
     healthWidth := healthWidth; healthHeight := healthHeight;
     healthFillWidth := healthFillWidth; healthColor := healthColor |}.

(** * Part II: the vocabulary of the properties *)

(** ** Stat scaling *)

(** The level-scaled stats in the words of the specification: every base
    stat times its curve, floored. *)
Definition scaledStats (base : MonsterStats) (level : Q) : MonsterStats :=
  {| health := Qfloor (inject_Z (health base) * (1 + (level - 1) * (5 # 10)));
     attack := Qfloor (inject_Z (attack base) * (1 + (level - 1) * (3 # 10)));
     defense := Qfloor (inject_Z (defense base) * (1 + (level - 1) * (3 # 10)));
     speed := Qfloor (inject_Z (speed base) * (1 + (level - 1) * (1 # 10)));
     radius := Qfloor (inject_Z (radius base) * (1 + (level - 1) * (2 # 10))) |}.

(** Componentwise order on stats. *)
Definition stats_le (s1 s2 : MonsterStats) : Prop :=
  (health s1 <= health s2)%Z /\ (attack s1 <= attack s2)%Z /\
  (defense s1 <= defense s2)%Z /\ (speed s1 <= speed s2)%Z /\
  (radius s1 <= radius s2)%Z.

Definition stats_nonneg (s : MonsterStats) : Prop :=
  (0 <= health s)%Z /\ (0 <= attack s)%Z /\ (0 <= defense s)%Z /\
  (0 <= speed s)%Z /\ (0 <= radius s)%Z.







(** ** Combat *)

(** What the decay loop does to one timer. *)
Definition decayed (delta t : Q) : Q :=
  if Qlt_bool 0 t then t - delta else t.

(** [distance <= attackRange] for a pair of entities, on the positions and
    the range stored in [w]. *)
Definition inRange (attacker target : entity) (w : World) : bool :=
  let dx := get Position_x target w - get Position_x attacker w in
  let dy := get Position_y target w - get Position_y attacker w in
  sqrt_le (dx * dx + dy * dy) (get Attack_range attacker w).

(** The first entity of [targets], other than the attacker itself, that is
    in range of the attacker. *)
Definition firstInRange (attacker : entity) (targets : list entity)
           (w : World) : option entity :=
  find (fun target => negb (Nat.eqb target attacker) && inRange attacker target w)
       targets.

(** The event an attacker causes in one resolution pass, read off the world
    [w] as the pass finds it: none while on cooldown or without a target in
    range, else the one for its first target in range. *)
Definition attackEvent (targets : list entity) (w : World)
           (attacker : entity) : list GameEvent :=
  if Qlt_bool 0 (get Attack_timer attacker w) then []
  else match firstInRange attacker targets w with
       | Some target =>
           [MONSTER_DAMAGED target attacker (get Attack_damage attacker w)
                            (get Position_x target w, get Position_y target w)]
       | None => []
       end.

(** [ev] is a [MONSTER_DAMAGED] event of attacker [a]. *)
Definition damagedBy (a : entity) (ev : GameEvent) : bool :=
  match ev with
  | MONSTER_DAMAGED _ attacker _ _ => Nat.eqb attacker a
  | MONSTER_SPAWNED _ _ _ _ _ => false
  end.

(** Two worlds agree on what the resolution pass reads of the attackers in
    [rest]: every position, range and damage, and the timers of [rest]. *)
Definition sameCombatInputs (rest : list entity) (w1 w2 : World) : Prop :=
  (forall e, get Position_x e w1 = get Position_x e w2) /\
  (forall e, get Position_y e w1 = get Position_y e w2) /\
  (forall e, get Attack_range e w1 = get Attack_range e w2) /\
  (forall e, get Attack_damage e w1 = get Attack_damage e w2) /\
  (forall a, In a rest -> get Attack_timer a w1 = get Attack_timer a w2).

(** Two worlds that differ at most in who carries the faction tags
    [PlayerControlled] and [Enemy] (and in what no combat system reads). *)
Definition sameUpToFaction (w1 w2 : World) : Prop :=
  entities w1 = entities w2 /\
  delta w1 = delta w2 /\
  events w1 = events w2 /\
  (forall f e, get f e w1 = get f e w2) /\
  (forall e c, c <> PlayerControlled -> c <> Enemy ->
               mask w1 e c = mask w2 e c).

(** An entity that [healthSystem] is to remove: it carries [Health] and its
    current health is zero or less. *)
Definition isDead (e : entity) (w : World) : bool :=
  hasComponent Health e w && Qle_bool (get Health_current e w) 0.

(** ** The entity store *)

(** The invariant of the entity store behind the queries: no id is listed
    twice, and every listed id was handed out by [addEntity]. *)
Definition wellFormed (w : World) : Prop :=
  NoDup (entities w) /\
  Forall (fun e => (e < entityCursor w)%nat) (entities w).

(** ** Example worlds *)

(** A rational implementation of the [Math] functions by truncated series,
    to run examples with; it is exact at the arguments the examples use
    ([atan2(0, x) = 0] for [x > 0], [cos 0 = 1], [sin 0 = 0]). *)
Definition seriesMath : MathLib :=
  let atanSeries t := t - t * t * t / 3 + t * t * t * t * t / 5 in
  let pi := 355 # 113 in
  {| Math_atan2 y x :=
       if Qlt_bool 0 x then atanSeries (y / x)
       else if Qlt_bool x 0
            then if Qle_bool 0 y then atanSeries (y / x) + pi
                 else atanSeries (y / x) - pi
            else if Qlt_bool 0 y then pi / 2
                 else if Qlt_bool y 0 then - (pi / 2) else 0;
     Math_cos x := 1 - x * x / 2 + x * x * x * x / 24;
     Math_sin x := x - x * x * x / 6 + x * x * x * x * x / 120 |}.

(** A new game with the default configuration and one player monster, a
    level-1 FIRE monster in the centre of the arena (entity 0), in a frame
    of 16 ms. *)
Definition onePlayerWorld : World :=
  set_delta 0.016
    (fst (Game_createPlayerMonster 400 300 MonsterType.FIRE
                                   (createWorld DEFAULT_CONFIG))).

(** The scenario of the specification: an attacker (entity 0) at (0,0) with
    range 10, damage 15, cooldown 1 and timer 0, and a target (entity 1) at
    (5,0) with 50 health. *)
Definition strikeScenario : World :=
  let (w, attacker) := addEntity (createWorld DEFAULT_CONFIG) in
  let (w, target) := addEntity w in
  w |> addComponent Position attacker
    |> set Position_x attacker 0
    |> set Position_y attacker 0
    |> addComponent Attack attacker
    |> set Attack_damage attacker 15
    |> set Attack_range attacker 10
    |> set Attack_cooldown attacker 1
    |> set Attack_timer attacker 0
    |> addComponent Position target
    |> set Position_x target 5
    |> set Position_y target 0
    |> addComponent Health target
    |> set Health_current target 50
    |> set Health_max target 50.

(** Two player monsters next to each other in the arena (entities 0 and 1),
    each within the attack range of the other. *)
Definition twoPlayersWorld : World :=
  createWorld DEFAULT_CONFIG
  |> (fun w => fst (Game_createPlayerMonster 400 300 MonsterType.FIRE w))
  |> (fun w => fst (Game_createPlayerMonster 420 300 MonsterType.WATER w)).

(** Two enemy monsters next to each other on the left edge (entities 0
    and 1). *)
Definition twoEnemiesWorld : World :=
  createWorld DEFAULT_CONFIG
  |> (fun w => fst (createEnemyMonster 20 100 MonsterType.EARTH 1 w))
  |> (fun w => fst (createEnemyMonster 20 120 MonsterType.AIR 1 w)).

(** The player monster of [onePlayerWorld] after seven strikes of 15 damage:
    100 - 105 health. *)
Definition deadPlayerWorld : World :=
  set Health_current 0%nat (-5) onePlayerWorld.

(** The two player monsters of [twoPlayersWorld], the second one at zero
    health. *)
Definition oneDeadOfTwoWorld : World :=
  set Health_current 1%nat 0 twoPlayersWorld.

(** The target of [strikeScenario] right after the strike, in a frame of the
    longest delta the game loop lets through (0.1 s), and one run of
    [knockbackSystem] later: 0.1 s of knockback left. *)
Definition knockedBackWorld : World :=
  set_delta 0.1 (@attackSystem seriesMath strikeScenario).

Definition knockbackLastFrameWorld : World :=
  @knockbackSystem seriesMath knockedBackWorld.

(** A game configured with two monster types, its spawn timer about to run
    out within the frame, and six draws of [Math.random] with 0.9 for the
    type. *)
Definition twoTypesWorld : World :=
  createWorld (mkConfig 800 600 3 2 10 1)
  |> set_spawnTimer 0.05
  |> set_delta 0.1.

Definition typeRollHigh : SpawnRolls :=
  {| intervalRoll := 0.5; edgeRoll := 0.25; xRoll := 0.5; yRoll := 0.25;
     typeRoll := 0.9; levelRoll := 0.5 |}.

(** [n] frames of the two systems that decide over life and death,
    [attackSystem] then [healthSystem], in the order of the game loop. *)
Fixpoint combatFrames (n : nat) (w : World) : World :=
  match n with
  | O => w
  | S n => combatFrames n (healthSystem (@attackSystem seriesMath w))
  end.

(** The two player monsters of [twoPlayersWorld] after 70 frames of 0.1 s
    of striking each other: the WATER monster (entity 1) is down to 15
    health, and both are ready for their eighth strike. *)
Definition duelWorld : World :=
  combatFrames 70 (set_delta 0.1 twoPlayersWorld).

(** ** Whole runs of the systems *)

(** The events one run of [attackSystem] appends to [world.events]: per
    attacker, in query order, the event of its strike as the resolution pass
    finds the world after the decay pass. *)
Definition strikes (w : World) : list GameEvent :=
  flat_map (attackEvent (damageableQuery w)
                        (decayCooldowns (attackerQuery w) (delta w) w))
           (attackerQuery w).

(** The damage the events [evs] record against the entity [t]. *)
Fixpoint damageTo (t : entity) (evs : list GameEvent) : Q :=
  match evs with
  | [] => 0
  | MONSTER_DAMAGED e _ d _ :: rest =>
      (if Nat.eqb e t then d else 0) + damageTo t rest
  | MONSTER_SPAWNED _ _ _ _ _ :: rest => damageTo t rest
  end.

(** What a run of [attackSystem] over the attackers [attackers] and the
    candidates [targets] may have changed from [w] to [w']: the timers of the
    attackers, the health and the knockback of the candidates, and the event
    queue. *)
Definition combatFrame (attackers targets : list entity) (w w' : World)
  : Prop :=
  (entities w' = entities w /\ entityCursor w' = entityCursor w /\
   playerEntities w' = playerEntities w /\
   deadEntities w' = deadEntities w /\
   delta w' = delta w /\ config w' = config w /\
   spawnTimer w' = spawnTimer w) /\
  (forall f e,
      f <> Health_current -> f <> Knockback_force ->
      f <> Knockback_direction -> f <> Knockback_remaining ->
      f <> Attack_timer -> get f e w' = get f e w) /\
  (forall f e, ~ In e targets -> f <> Attack_timer -> get f e w' = get f e w) /\
  (forall e, ~ In e attackers -> get Attack_timer e w' = get Attack_timer e w) /\
  (forall e c, c <> Knockback -> mask w' e c = mask w e c) /\
  (forall e, mask w e Knockback = true -> mask w' e Knockback = true) /\
  (forall e, ~ In e targets -> mask w' e Knockback = mask w e Knockback).

(** [n] runs of [knockbackSystem] in a row. *)
Fixpoint knockbackRuns {M : MathLib} (n : nat) (w : World) : World :=
  match n with
  | O => w
  | S n => knockbackRuns n (knockbackSystem w)
  end.

(** [q] to the power [n]. *)
Fixpoint power (q : Q) (n : nat) : Q :=
  match n with
  | O => 1
  | S n => q * power q n
  end.

(** ** Creation *)

(** The components the two creation functions attach. *)
Definition playerComponents : list Component :=
  [Position; Velocity; Health; Attack; Defense; Monster; Mergeable; Collider;
   Sprite; PlayerControlled].

Definition enemyComponents : list Component :=
  [Position; Velocity; Health; Attack; Defense; Monster; Mergeable; Collider;
   Sprite; AI; Enemy].

(** [c] is one of [cs]. *)
Definition carries (cs : list Component) (c : Component) : bool :=
  existsb (fun c' => if Component_eq_dec c' c then true else false) cs.

(** What a creation may have changed from [w] to [w'] besides the new
    entity [e]: nothing but the entity list, the cursor, the event queue and
    [world.playerEntities]. *)
Definition creationFrame (e : entity) (w w' : World) : Prop :=
  entities w' = entities w ++ [e] /\
  entityCursor w' = S e /\
  time w' = time w /\ delta w' = delta w /\ config w' = config w /\
  deadEntities w' = deadEntities w /\
  entitiesToRemove w' = entitiesToRemove w /\
  spawnTimer w' = spawnTimer w /\
  (forall f e', e' <> e -> get f e' w' = get f e' w) /\
  (forall c e', e' <> e -> hasComponent c e' w' = hasComponent c e' w).

(** ** The invariant of the world

    What holds of every world the code at hand builds: the entity store is
    well formed; only live entities carry components; every id in
    [world.playerEntities] was handed out by [addEntity]; an entity tagged
    [PlayerControlled] is listed in [world.playerEntities]; an entity with
    [Monster] has [Position] and [Health] and exactly one of the tags
    [PlayerControlled] and [Enemy]; and [canMerge] is 1 on player-controlled
    entities only. *)
Definition worldInvariant (w : World) : Prop :=
  wellFormed w /\
  (forall c e, hasComponent c e w = true -> In e (entities w)) /\
  (forall e, In e (playerEntities w) -> (e < entityCursor w)%nat) /\
  (forall e, hasComponent PlayerControlled e w = true ->
             In e (playerEntities w)) /\
  (forall e, hasComponent Monster e w = true ->
             hasComponent Position e w = true /\
             hasComponent Health e w = true /\
             hasComponent PlayerControlled e w
             = negb (hasComponent Enemy e w)) /\
  (forall e, hasComponent Mergeable e w = true ->
             get Mergeable_canMerge e w == 1 ->
             hasComponent PlayerControlled e w = true).

(** Nobody deals negative damage, and nobody's health is above its
    maximum. *)
Definition healthBounded (w : World) : Prop :=
  (forall e, 0 <= get Attack_damage e w) /\
  (forall e, get Health_current e w <= get Health_max e w).

(** ** Spawning *)

(** A result of [Math.random()]: a number in [0, 1). *)
Definition unitDraw (r : Q) : Prop := 0 <= r /\ r < 1.

Definition unitDraws (rolls : SpawnRolls) : Prop :=
  unitDraw (intervalRoll rolls) /\ unitDraw (edgeRoll rolls) /\
  unitDraw (xRoll rolls) /\ unitDraw (yRoll rolls) /\
  unitDraw (typeRoll rolls) /\ unitDraw (levelRoll rolls).

(** The points the spawn position is drawn from: 20 units inside the top or
    the bottom edge of the arena, or 20 units inside its left or its right
    edge. *)
Definition onSpawnEdge (c : GameConfig) (x y : Q) : Prop :=
  ((y = 20 \/ y = arenaHeight c - 20) /\ 0 <= x /\ x < arenaWidth c) \/
  ((x = 20 \/ x = arenaWidth c - 20) /\ 0 <= y /\ y < arenaHeight c).

(** Consecutive frames of [spawnSystem], each with the frame time the game
    loop has stored in [world.delta] and its own random draws. *)
Definition spawnFrames (frames : list (Q * SpawnRolls)) (w : World) : World :=
  fold_left
    (fun w frame => fst (spawnSystem (snd frame) (set_delta (fst frame) w)))
    frames w.

Definition elapsed (frames : list (Q * SpawnRolls)) : Q :=
  fold_right (fun frame total => fst frame + total) 0 frames.

(** ** The constructor *)

(** The number of turns the loop of [Game.initializePlayerMonsters] takes. *)
Definition playerTurns (c : GameConfig) : nat :=
  Z.to_nat (Qceiling (initialPlayerMonsters c)).

Definition unitPlayerRolls (rolls : nat -> PlayerRolls) : Prop :=
  forall i, unitDraw (centerXRoll (rolls i)) /\
            unitDraw (centerYRoll (rolls i)) /\
            unitDraw (playerTypeRoll (rolls i)).

(** The [MONSTER_SPAWNED] event that describes entity [e] as it is in
    [w]. *)
Definition spawnedEvent (isPlayer : bool) (w : World) (e : entity)
  : GameEvent :=
  MONSTER_SPAWNED e (get Position_x e w, get Position_y e w)
                  (get Monster_type e w) (get Monster_level e w) isPlayer.

(** The type the constructor draws in turn [i]. *)
Definition drawnType (c : GameConfig) (rolls : nat -> PlayerRolls) (i : nat)
  : Q :=
  initialMonsterType (playerTypeRoll (rolls i)) (createWorld c).

(** * Part III: the properties *)

(** ** Numbers *)

Lemma Q2R_zero : Q2R 0 = 0%R.
Proof. unfold Q2R. simpl. apply Rmult_0_l. Qed.

(** The distance test means what the source writes: for a sum of squares
    [s], [sqrt_le s r] holds exactly when the real square root of [s] is at
    most [r]. *)
Lemma sqrt_le_real (s r : Q) :
  0 <= s ->
  sqrt_le s r = true <-> (sqrt (Q2R s) <= Q2R r)%R.
Proof.
  intros Hs. unfold sqrt_le. rewrite andb_true_iff, !Qle_bool_iff.
  assert (Hs' : (0 <= Q2R s)%R) by (rewrite <- Q2R_zero; now apply Qle_Rle).
  split.
  - intros [Hr Hle]. apply Qle_Rle in Hr, Hle.
    rewrite Q2R_mult in Hle. rewrite Q2R_zero in Hr.
    rewrite <- (sqrt_square (Q2R r)) by exact Hr.
    now apply sqrt_le_1_alt.
  - intros H.
    assert (Hr : (0 <= Q2R r)%R)
      by (apply Rle_trans with (sqrt (Q2R s)); [apply sqrt_pos|exact H]).
    split; apply Rle_Qle.
    + now rewrite Q2R_zero.
    + rewrite Q2R_mult, <- (sqrt_sqrt (Q2R s)) by exact Hs'.
      apply Rmult_le_compat; auto using sqrt_pos.
Qed.

Lemma Qsquare_nonneg (x : Q) : 0 <= x * x.
Proof.
  destruct (Qlt_le_dec x 0) as [Hx|Hx].
  - setoid_replace (x * x) with ((- x) * (- x)) by ring.
    apply Qmult_le_0_compat; lra.
  - now apply Qmult_le_0_compat.
Qed.

Lemma inRange_real (a t : entity) (w : World) :
  let dx := get Position_x t w - get Position_x a w in
  let dy := get Position_y t w - get Position_y a w in
  inRange a t w = true <->
  (sqrt (Q2R (dx * dx + dy * dy)) <= Q2R (get Attack_range a w))%R.
Proof.
  cbv zeta. unfold inRange. apply sqrt_le_real.
  rewrite <- (Qplus_0_r 0).
  apply Qplus_le_compat; apply Qsquare_nonneg.
Qed.

(** ** Stat scaling *)

Lemma BASE_MONSTER_STATS_nonneg (type : Q) (base : MonsterStats) :
  BASE_MONSTER_STATS type = Some base -> stats_nonneg base.
Proof.
  unfold BASE_MONSTER_STATS.
  repeat destruct (Qeq_bool type _); intros E; inversion E;
    unfold stats_nonneg; simpl; lia.
Qed.


Lemma inject_Z_nonneg (z : Z) : (0 <= z)%Z -> 0 <= inject_Z z.
Proof.
  intros Hz. change 0 with (inject_Z 0). now rewrite <- Zle_Qle.
Qed.

Lemma scale_mono (b k l1 l2 : Q) :
  0 <= b -> 0 <= k -> l1 <= l2 ->
  (Qfloor (b * (1 + (l1 - 1) * k)) <= Qfloor (b * (1 + (l2 - 1) * k)))%Z.
Proof.
  intros Hb Hk Hl. apply Qfloor_resp_le.
  rewrite !(Qmult_comm b). apply Qmult_le_compat_r; [|exact Hb].
  apply Qplus_le_r. apply Qmult_le_compat_r; [|exact Hk]. lra.
Qed.

Lemma scaledStats_mono (base : MonsterStats) (l1 l2 : Q) :
  stats_nonneg base -> l1 <= l2 ->
  stats_le (scaledStats base l1) (scaledStats base l2).
Proof.
  intros (Hh & Ha & Hd & Hs & Hr) Hl.
  unfold stats_le, scaledStats; cbn [health attack defense speed radius].
  repeat split; apply scale_mono;
    auto using inject_Z_nonneg; discriminate.
Qed.

Lemma calculateMonsterStats_scaled (type level : Q) (base : MonsterStats) :
  BASE_MONSTER_STATS type = Some base ->
  calculateMonsterStats type level = Some (scaledStats base level).
Proof.
  intros E. unfold calculateMonsterStats. rewrite E. reflexivity.
Qed.




(** From level 14 on the two can differ by one: for a WATER monster of
    level 14 the doubles give 100 * (1 + 13 * 0.1) = 229.99999999999997 and
    a speed of 229, where the exact floor of 100 * 2.3 is 230. *)
Example calculateMonsterStats_binary64_level14 :
  option_map speed (Binary64.calculateMonsterStats MonsterType.WATER 14)
  = Some 229%Z /\
  option_map speed (calculateMonsterStats MonsterType.WATER 14) = Some 230%Z.
Proof. split; vm_compute; reflexivity. Qed.




(** The stats of the three levels [spawnSystem] draws, for a FIRE
    monster. *)
Example calculateMonsterStats_FIRE_levels :
  calculateMonsterStats MonsterType.FIRE 1 = Some (mkStats 100 15 5 120 25) /\
  calculateMonsterStats MonsterType.FIRE 2 = Some (mkStats 150 19 6 132 30) /\
  calculateMonsterStats MonsterType.FIRE 3 = Some (mkStats 200 24 8 144 35).
Proof. repeat split. Qed.

(** ** Stores, masks and queries *)

Ltac prove_NoDup :=
  vm_compute;
  repeat (apply NoDup_cons; [simpl; intuition discriminate|]);
  apply NoDup_nil.

Lemma get_set_same (f : Field) (e : entity) (v : Q) (w : World) :
  get f e (set f e v w) = v.
Proof.
  unfold get, set; simpl.
  destruct (Field_eq_dec f f) as [_|N]; [|contradiction].
  now rewrite Nat.eqb_refl.
Qed.

Lemma get_set_other_field (f g : Field) (e e' : entity) (v : Q) (w : World) :
  f <> g -> get g e' (set f e v w) = get g e' w.
Proof.
  intros N. unfold get, set; simpl.
  destruct (Field_eq_dec f g) as [E|_]; [contradiction|reflexivity].
Qed.

Lemma get_set_other_entity (f g : Field) (e e' : entity) (v : Q) (w : World) :
  e <> e' -> get g e' (set f e v w) = get g e' w.
Proof.
  intros N. unfold get, set; simpl.
  destruct (Field_eq_dec f g) as [_|_]; [|reflexivity].
  apply Nat.eqb_neq in N. now rewrite N.
Qed.

Lemma get_addComponent (c : Component) (e e' : entity) (f : Field) (w : World) :
  get f e' (addComponent c e w) = get f e' w.
Proof. reflexivity. Qed.

Lemma get_pushEvent (ev : GameEvent) (e : entity) (f : Field) (w : World) :
  get f e (pushEvent ev w) = get f e w.
Proof. reflexivity. Qed.

Lemma get_pushPlayerEntity (p e : entity) (f : Field) (w : World) :
  get f e (pushPlayerEntity p w) = get f e w.
Proof. reflexivity. Qed.

Lemma Qlt_bool_iff (x y : Q) : Qlt_bool x y = true <-> x < y.
Proof.
  unfold Qlt_bool. rewrite negb_true_iff, <- not_true_iff_false, Qle_bool_iff.
  split; [apply Qnot_le_lt | apply Qlt_not_le].
Qed.

Lemma Qlt_bool_false_iff (x y : Q) : Qlt_bool x y = false <-> y <= x.
Proof.
  unfold Qlt_bool. now rewrite negb_false_iff, Qle_bool_iff.
Qed.

Lemma defineQuery_In (cs : list Component) (w : World) (e : entity) :
  In e (defineQuery cs w) <->
  In e (entities w) /\ forall c, In c cs -> hasComponent c e w = true.
Proof.
  unfold defineQuery. rewrite filter_In, forallb_forall. reflexivity.
Qed.

Lemma defineQuery_NoDup (cs : list Component) (w : World) :
  NoDup (entities w) -> NoDup (defineQuery cs w).
Proof. apply NoDup_filter. Qed.

(** A query sees the entity list and the masks only. *)
Lemma defineQuery_ext (cs : list Component) (w w' : World) :
  entities w = entities w' ->
  (forall e c, In c cs -> mask w e c = mask w' e c) ->
  defineQuery cs w = defineQuery cs w'.
Proof.
  intros He Hm. unfold defineQuery. rewrite <- He.
  apply filter_ext. intros e. unfold hasComponent.
  induction cs as [|c cs IH]; [reflexivity|]. simpl.
  rewrite (Hm e c) by now left.
  f_equal. apply IH. intros e' c' Hc. apply Hm. now right.
Qed.

(** ** Cooldown decay *)

Section CombatProperties.
Context {M : MathLib}.

Lemma decayCooldowns_cons (a : entity) (l : list entity) (d : Q) (w : World) :
  decayCooldowns (a :: l) d w =
  decayCooldowns l d
    (if Qlt_bool 0 (get Attack_timer a w)
     then set Attack_timer a (get Attack_timer a w - d) w else w).
Proof. reflexivity. Qed.

(** The loop writes [Attack.timer] and nothing else. *)
Lemma decayCooldowns_frame (l : list entity) (d : Q) (w : World) :
  let w' := decayCooldowns l d w in
  time w' = time w /\ delta w' = delta w /\ config w' = config w /\
  events w' = events w /\ deadEntities w' = deadEntities w /\
  entitiesToRemove w' = entitiesToRemove w /\
  playerEntities w' = playerEntities w /\ spawnTimer w' = spawnTimer w /\
  entityCursor w' = entityCursor w /\ entities w' = entities w /\
  mask w' = mask w /\
  forall f e, f <> Attack_timer -> get f e w' = get f e w.
Proof.
  revert w. induction l as [|a l IH]; intros w.
  - simpl. repeat split.
  - rewrite decayCooldowns_cons.
    destruct (Qlt_bool 0 (get Attack_timer a w)); [|apply IH].
    specialize (IH (set Attack_timer a (get Attack_timer a w - d) w)).
    simpl in IH |- *.
    destruct IH as (?&?&?&?&?&?&?&?&?&?&?&Hs).
    repeat split; try assumption.
    intros f e Hf. rewrite Hs by assumption.
    apply get_set_other_field. congruence.
Qed.

Lemma decayCooldowns_notin (l : list entity) (d : Q) (w : World) (a : entity) :
  ~ In a l ->
  get Attack_timer a (decayCooldowns l d w) = get Attack_timer a w.
Proof.
  revert w. induction l as [|b l IH]; intros w Hn; [reflexivity|].
  rewrite decayCooldowns_cons, IH by (intros H; apply Hn; now right).
  destruct (Qlt_bool 0 (get Attack_timer b w)); [|reflexivity].
  apply get_set_other_entity. intros ->. apply Hn. now left.
Qed.

Lemma decayCooldowns_in (l : list entity) (d : Q) (w : World) (a : entity) :
  NoDup l -> In a l ->
  get Attack_timer a (decayCooldowns l d w)
  = decayed d (get Attack_timer a w).
Proof.
  revert w. induction l as [|b l IH]; intros w Hnd Hin; [contradiction|].
  inversion Hnd as [|? ? Hb Hl]; subst.
  rewrite decayCooldowns_cons. destruct Hin as [->|Hin].
  - rewrite decayCooldowns_notin by assumption. unfold decayed.
    destruct (Qlt_bool 0 (get Attack_timer a w)); [|reflexivity].
    apply get_set_same.
  - rewrite IH by assumption. f_equal.
    destruct (Qlt_bool 0 (get Attack_timer b w)); [|reflexivity].
    apply get_set_other_entity. intros ->. contradiction.
Qed.

(** C2, as stated, fails: the decay loop is guarded by [Attack.timer > 0].
    The attacker of [onePlayerWorld] has timer 0, and the pass leaves it at 0
    instead of lowering it by the frame's delta. *)
Lemma decay_every_frame_counterexample :
  ~ (forall (w : World) (a : entity),
        In a (attackerQuery w) ->
        get Attack_timer a (decayCooldowns (attackerQuery w) (delta w) w)
        == get Attack_timer a w - delta w).
Proof.
  intros H. specialize (H onePlayerWorld 0%nat).
  assert (Hin : In 0%nat (attackerQuery onePlayerWorld)) by (vm_compute; auto).
  specialize (H Hin). vm_compute in H. discriminate H.
Qed.

(** C2, amended.  In the cooldown-decay pass of [attackSystem] the timer of
    an attacker decreases by exactly the frame's delta when it is positive
    before the pass, with no lower bound applied (the result may be
    negative), and is left as it is when it is zero or negative already. *)
Theorem decayCooldowns_guarded (w : World) (a : entity) :
  NoDup (entities w) ->
  In a (attackerQuery w) ->
  let w' := decayCooldowns (attackerQuery w) (delta w) w in
  (0 < get Attack_timer a w ->
   get Attack_timer a w' = get Attack_timer a w - delta w) /\
  (get Attack_timer a w <= 0 ->
   get Attack_timer a w' = get Attack_timer a w).
Proof.
  intros Hnd Hin w'. subst w'.
  rewrite decayCooldowns_in;
    [|now apply (defineQuery_NoDup [Position; Attack])|exact Hin].
  unfold decayed. split; intros Ht.
  - apply Qlt_bool_iff in Ht. now rewrite Ht.
  - apply Qlt_bool_false_iff in Ht. now rewrite Ht.
Qed.

(** The player monster right after a strike of its own (timer 1), in a
    frame of 16 ms: the timer goes down by the delta. *)
Lemma decayCooldowns_guarded_witness :
  let w := set Attack_timer 0%nat 1 onePlayerWorld in
  NoDup (entities w) /\ In 0%nat (attackerQuery w) /\
  (0 < get Attack_timer 0%nat w ->
   get Attack_timer 0%nat (decayCooldowns (attackerQuery w) (delta w) w)
   = get Attack_timer 0%nat w - delta w) /\
  (get Attack_timer 0%nat w <= 0 ->
   get Attack_timer 0%nat (decayCooldowns (attackerQuery w) (delta w) w)
   = get Attack_timer 0%nat w).
Proof.
  intros w.
  assert (Hnd : NoDup (entities w)) by prove_NoDup.
  assert (Hin : In 0%nat (attackerQuery w)).
  { vm_compute. auto. }
  split; [exact Hnd|]. split; [exact Hin|].
  exact (decayCooldowns_guarded w 0%nat Hnd Hin).
Defined.

End CombatProperties.

(** ** A strike *)

Ltac get_simpl :=
  repeat first
    [ rewrite get_pushEvent
    | rewrite get_pushPlayerEntity
    | rewrite get_addComponent
    | rewrite get_set_same
    | rewrite get_set_other_field by discriminate
    | rewrite get_set_other_entity by assumption ].

Section StrikeProperties.
Context {M : MathLib}.
Variables (attacker target : entity) (dx dy targetX targetY : Q) (w : World).

Let w' := strike attacker target dx dy targetX targetY w.

Lemma strike_events :
  events w' = events w ++ [MONSTER_DAMAGED target attacker
                             (get Attack_damage attacker w)
                             (targetX, targetY)].
Proof.
  subst w'. unfold strike.
  destruct (negb (hasComponent Knockback target _)); reflexivity.
Qed.

Lemma strike_health :
  get Health_current target w'
  = get Health_current target w - get Attack_damage attacker w.
Proof.
  subst w'. unfold strike.
  destruct (negb (hasComponent Knockback target _)); now get_simpl.
Qed.

Lemma strike_knockback :
  hasComponent Knockback target w' = true /\
  get Knockback_force target w' = get Attack_damage attacker w * 10 /\
  get Knockback_direction target w' = Math_atan2 dy dx /\
  get Knockback_remaining target w' = 0.2.
Proof.
  subst w'. unfold strike.
  destruct (negb (hasComponent Knockback target _)) eqn:E;
    (split; [|now get_simpl]).
  - unfold hasComponent, addComponent; simpl.
    rewrite Nat.eqb_refl.
    now destruct (Component_eq_dec Knockback Knockback).
  - apply negb_false_iff in E. exact E.
Qed.

Lemma strike_timer :
  get Attack_timer attacker w' = get Attack_cooldown attacker w.
Proof.
  subst w'. unfold strike.
  destruct (negb (hasComponent Knockback target _)); now get_simpl.
Qed.

Lemma strike_timer_other (a : entity) :
  a <> attacker -> get Attack_timer a w' = get Attack_timer a w.
Proof.
  intros Ha. assert (attacker <> a) by congruence.
  subst w'. unfold strike.
  destruct (negb (hasComponent Knockback target _)); now get_simpl.
Qed.

(** A strike writes [Health.current], the three [Knockback] fields and
    [Attack.timer]; every other store is as before. *)
Lemma strike_other_field (f : Field) (e : entity) :
  f <> Health_current -> f <> Knockback_force ->
  f <> Knockback_direction -> f <> Knockback_remaining ->
  f <> Attack_timer ->
  get f e w' = get f e w.
Proof.
  intros. subst w'. unfold strike.
  destruct (negb (hasComponent Knockback target _));
    repeat first [ rewrite get_pushEvent | rewrite get_addComponent
                 | rewrite get_set_other_field by congruence ];
    reflexivity.
Qed.

(** A strike leaves the entity list and the rest of the world alone, and
    changes no mask bit other than [Knockback] of the target. *)
Lemma strike_frame :
  entities w' = entities w /\ entityCursor w' = entityCursor w /\
  playerEntities w' = playerEntities w /\
  deadEntities w' = deadEntities w /\
  delta w' = delta w /\ config w' = config w /\
  spawnTimer w' = spawnTimer w /\
  forall e c, c <> Knockback -> mask w' e c = mask w e c.
Proof.
  subst w'. unfold strike.
  destruct (negb (hasComponent Knockback target _));
    repeat split; intros e c Hc; cbn -[Component_eq_dec]; try reflexivity.
  destruct (Nat.eqb target e); [|reflexivity].
  destruct (Component_eq_dec Knockback c); congruence.
Qed.

End StrikeProperties.

(** ** The resolution pass *)

Section ResolutionProperties.
Context {M : MathLib}.

(** The inner loop strikes the first target in range and stops. *)
Lemma scanTargets_firstInRange (a : entity) (targets : list entity) (w : World) :
  scanTargets a (get Position_x a w) (get Position_y a w)
              (get Attack_range a w) targets w
  = match firstInRange a targets w with
    | Some t =>
        strike a t
               (get Position_x t w - get Position_x a w)
               (get Position_y t w - get Position_y a w)
               (get Position_x t w) (get Position_y t w) w
    | None => w
    end.
Proof.
  induction targets as [|t rest IH]; [reflexivity|].
  unfold firstInRange. cbn [scanTargets find].
  destruct (Nat.eqb t a); cbn [negb andb]; [exact IH|].
  unfold inRange at 1. cbv zeta.
  destruct (sqrt_le _ _); [reflexivity|exact IH].
Qed.

Lemma processAttacker_unfold (targets : list entity) (w : World) (a : entity) :
  processAttacker targets w a
  = if Qlt_bool 0 (get Attack_timer a w) then w
    else match firstInRange a targets w with
         | Some t =>
             strike a t
                    (get Position_x t w - get Position_x a w)
                    (get Position_y t w - get Position_y a w)
                    (get Position_x t w) (get Position_y t w) w
         | None => w
         end.
Proof.
  unfold processAttacker.
  destruct (Qlt_bool 0 _); [reflexivity|apply scanTargets_firstInRange].
Qed.

Lemma processAttacker_events (targets : list entity) (w : World) (a : entity) :
  events (processAttacker targets w a) = events w ++ attackEvent targets w a.
Proof.
  rewrite processAttacker_unfold. unfold attackEvent.
  destruct (Qlt_bool 0 _); [now rewrite app_nil_r|].
  destruct (firstInRange a targets w) as [t|]; [|now rewrite app_nil_r].
  apply strike_events.
Qed.

Lemma inRange_same (rest : list entity) (w1 w2 : World) (a t : entity) :
  sameCombatInputs rest w1 w2 -> inRange a t w1 = inRange a t w2.
Proof.
  intros (Hx & Hy & Hr & _). unfold inRange.
  now rewrite !Hx, !Hy, Hr.
Qed.

Lemma firstInRange_same (rest targets : list entity) (w1 w2 : World)
      (a : entity) :
  sameCombatInputs rest w1 w2 ->
  firstInRange a targets w1 = firstInRange a targets w2.
Proof.
  intros H. unfold firstInRange.
  induction targets as [|t ts IH]; [reflexivity|]. cbn [find].
  now rewrite (inRange_same rest w1 w2 a t H), IH.
Qed.

Lemma attackEvent_same (rest targets : list entity) (w1 w2 : World)
      (a : entity) :
  sameCombatInputs rest w1 w2 -> In a rest ->
  attackEvent targets w1 a = attackEvent targets w2 a.
Proof.
  intros H Hin. unfold attackEvent.
  rewrite (firstInRange_same rest targets w1 w2 a H).
  destruct H as (Hx & Hy & Hr & Hd & Ht).
  rewrite (Ht a Hin), Hd.
  destruct (Qlt_bool 0 _); [reflexivity|].
  destruct (firstInRange a targets w2); [|reflexivity].
  now rewrite Hx, Hy.
Qed.

(** Resolving one attacker leaves what the later attackers read as it
    was. *)
Lemma processAttacker_same (rest targets : list entity) (w1 w2 : World)
      (a : entity) :
  ~ In a rest ->
  sameCombatInputs (a :: rest) w1 w2 ->
  sameCombatInputs rest (processAttacker targets w1 a) w2.
Proof.
  intros Hn (Hx & Hy & Hr & Hd & Ht).
  assert (Hkeep : sameCombatInputs rest w1 w2).
  { repeat split; auto. intros b Hb. apply Ht. now right. }
  rewrite processAttacker_unfold.
  destruct (Qlt_bool 0 _); [exact Hkeep|].
  destruct (firstInRange a targets w1) as [t|]; [|exact Hkeep].
  repeat split; intros e.
  - rewrite strike_other_field by discriminate. apply Hx.
  - rewrite strike_other_field by discriminate. apply Hy.
  - rewrite strike_other_field by discriminate. apply Hr.
  - rewrite strike_other_field by discriminate. apply Hd.
  - intros He. rewrite strike_timer_other by (intros ->; contradiction).
    apply Ht. now right.
Qed.

Lemma processAttacks_events_gen (attackers targets : list entity)
      (w1 w0 : World) :
  NoDup attackers ->
  sameCombatInputs attackers w1 w0 ->
  events (processAttacks attackers targets w1)
  = events w1 ++ flat_map (attackEvent targets w0) attackers.
Proof.
  revert w1. induction attackers as [|a rest IH]; intros w1 Hnd Hs.
  - simpl. now rewrite app_nil_r.
  - inversion Hnd as [|? ? Ha Hrest]; subst.
    unfold processAttacks in *. cbn [fold_left flat_map].
    rewrite IH; [|exact Hrest|now apply processAttacker_same].
    rewrite processAttacker_events, <- app_assoc. f_equal. f_equal.
    apply (attackEvent_same (a :: rest)); [exact Hs|now left].
Qed.

Lemma sameCombatInputs_refl (rest : list entity) (w : World) :
  sameCombatInputs rest w w.
Proof. repeat split. Qed.

(** The events of one run of [attackSystem]: per attacker, in query order,
    the event of its strike, as read off the world after the decay pass. *)
Lemma attackSystem_events (w : World) :
  NoDup (entities w) ->
  events (attackSystem w)
  = events w
    ++ flat_map (attackEvent (damageableQuery w)
                             (decayCooldowns (attackerQuery w) (delta w) w))
                (attackerQuery w).
Proof.
  intros Hnd. unfold attackSystem.
  rewrite processAttacks_events_gen
    with (w0 := decayCooldowns (attackerQuery w) (delta w) w).
  - f_equal. apply decayCooldowns_frame.
  - now apply (defineQuery_NoDup [Position; Attack]).
  - apply sameCombatInputs_refl.
Qed.

End ResolutionProperties.

(** ** One strike per attacker *)

(** What [firstInRange] finds: the target is a candidate in range, and every
    entity before it in the list is the attacker itself or out of range. *)
Lemma firstInRange_Some (a t : entity) (targets : list entity) (w : World) :
  firstInRange a targets w = Some t ->
  t <> a /\ inRange a t w = true /\
  exists before after,
    targets = before ++ t :: after /\
    forall u, In u before -> u = a \/ inRange a u w = false.
Proof.
  unfold firstInRange. induction targets as [|u us IH]; [discriminate|].
  cbn [find]. destruct (Nat.eqb u a) eqn:Eu; cbn [negb andb].
  - intros H. destruct (IH H) as (Hne & Hin & before & after & -> & Hb).
    repeat split; auto. exists (u :: before), after. split; [reflexivity|].
    intros v [<-|Hv]; [left; now apply Nat.eqb_eq|auto].
  - destruct (inRange a u w) eqn:Er.
    + intros [= <-]. apply Nat.eqb_neq in Eu.
      repeat split; auto. exists [], us. split; [reflexivity|]. intros ? [].
    + intros H. destruct (IH H) as (Hne & Hin & before & after & -> & Hb).
      repeat split; auto. exists (u :: before), after. split; [reflexivity|].
      intros v [<-|Hv]; auto.
Qed.

Lemma attackEvent_inv (targets : list entity) (w : World) (b : entity)
      (ev : GameEvent) :
  In ev (attackEvent targets w b) ->
  get Attack_timer b w <= 0 /\
  exists t, firstInRange b targets w = Some t /\
            ev = MONSTER_DAMAGED t b (get Attack_damage b w)
                                 (get Position_x t w, get Position_y t w).
Proof.
  unfold attackEvent. destruct (Qlt_bool 0 _) eqn:Et; [intros []|].
  apply Qlt_bool_false_iff in Et.
  destruct (firstInRange b targets w) as [t|]; [|intros []].
  intros [<-|[]]. split; [exact Et|]. now exists t.
Qed.

Lemma attackEvent_damagedBy (targets : list entity) (w : World)
      (a b : entity) :
  (length (filter (damagedBy a) (attackEvent targets w b)) <= 1)%nat /\
  (b <> a -> filter (damagedBy a) (attackEvent targets w b) = []).
Proof.
  unfold attackEvent. destruct (Qlt_bool 0 _); [simpl; auto|].
  destruct (firstInRange b targets w); [|simpl; auto].
  cbn [filter damagedBy]. destruct (Nat.eqb b a) eqn:E.
  - split; [simpl; lia|]. intros N. apply Nat.eqb_eq in E. contradiction.
  - simpl; auto.
Qed.

Lemma flat_map_attackEvent_count (targets attackers : list entity)
      (w : World) (a : entity) :
  NoDup attackers ->
  (length (filter (damagedBy a)
                  (flat_map (attackEvent targets w) attackers)) <= 1)%nat /\
  (~ In a attackers ->
   filter (damagedBy a) (flat_map (attackEvent targets w) attackers) = []).
Proof.
  induction attackers as [|b rest IH]; intros Hnd; [simpl; auto|].
  inversion Hnd as [|? ? Hb Hrest]; subst.
  destruct (IH Hrest) as [IHle IHnil].
  destruct (attackEvent_damagedBy targets w a b) as [Hle Hnil].
  cbn [flat_map]. rewrite filter_app, length_app. split.
  - destruct (Nat.eq_dec b a) as [->|N].
    + rewrite (IHnil Hb). simpl. lia.
    + rewrite (Hnil N). simpl. exact IHle.
  - intros Hn. rewrite Hnil, IHnil; [reflexivity| |];
      intros H; apply Hn; [now right | now left].
Qed.

Section AttackClaims.
Context {M : MathLib}.

(** C5.  In one run of [attackSystem], at most one [MONSTER_DAMAGED] event
    per attacker is appended to [world.events]; one is appended only for an
    attacker whose timer is at most 0 when the resolution pass starts (after
    the decay pass), and then the struck entity is the first one in the order
    of the damageable query, the attacker itself skipped, whose distance to
    the attacker is at most [Attack.range]. *)
Theorem attackSystem_one_strike_per_attacker (w : World) :
  NoDup (entities w) ->
  let attackers := attackerQuery w in
  let targets := damageableQuery w in
  let ready := decayCooldowns attackers (delta w) w in
  exists appended,
    events (attackSystem w) = events w ++ appended /\
    forall a,
      (length (filter (damagedBy a) appended) <= 1)%nat /\
      (forall t d p,
          In (MONSTER_DAMAGED t a d p) appended ->
          In a attackers /\ get Attack_timer a ready <= 0 /\
          firstInRange a targets w = Some t) /\
      (forall t,
          In a attackers -> get Attack_timer a ready <= 0 ->
          firstInRange a targets w = Some t ->
          In (MONSTER_DAMAGED t a (get Attack_damage a w)
                              (get Position_x t w, get Position_y t w))
             appended).
Proof.
  intros Hnd attackers targets ready.
  assert (Hnda : NoDup attackers)
    by now apply (defineQuery_NoDup [Position; Attack]).
  assert (Hsame : sameCombatInputs [] ready w).
  { destruct (decayCooldowns_frame attackers (delta w) w)
      as (_&_&_&_&_&_&_&_&_&_&_&Hs).
    repeat split; try (intros e; apply Hs; discriminate). intros ? []. }
  exists (flat_map (attackEvent targets ready) attackers).
  split; [now apply attackSystem_events|].
  intros a. split; [now apply flat_map_attackEvent_count|]. split.
  - intros t d p Hin. apply in_flat_map in Hin as (b & Hb & Hev).
    apply attackEvent_inv in Hev as (Ht & t' & Hf & E).
    injection E as -> -> _ _.
    rewrite (firstInRange_same [] targets ready w b Hsame) in Hf. auto.
  - intros t Hin Ht Hf. apply in_flat_map. exists a. split; [exact Hin|].
    unfold attackEvent. apply Qlt_bool_false_iff in Ht. rewrite Ht.
    rewrite (firstInRange_same [] targets ready w a Hsame), Hf.
    destruct Hsame as (Hx & Hy & _ & Hd & _).
    rewrite Hd, Hx, Hy. now left.
Qed.

(** C4.  The postcondition of a strike: when the attacker is ready (timer at
    most 0 after the decay) and [t] is its target (the first candidate within
    [Attack.range]), then after the attacker is resolved the health of [t]
    is lower by exactly [Attack.damage] (no defense is applied), [t] carries
    [Knockback] with force damage*10, direction atan2(dy, dx) from attacker to
    target and 0.2 remaining, the timer of the attacker equals its cooldown,
    and one [MONSTER_DAMAGED] event with the entity, the attacker, the damage
    and the position of the target was appended to [world.events]. *)
Theorem strike_postcondition (w : World) (targets : list entity)
        (a t : entity) :
  get Attack_timer a w <= 0 ->
  firstInRange a targets w = Some t ->
  let w' := processAttacker targets w a in
  let damage := get Attack_damage a w in
  let dx := get Position_x t w - get Position_x a w in
  let dy := get Position_y t w - get Position_y a w in
  get Health_current t w' = get Health_current t w - damage /\
  hasComponent Knockback t w' = true /\
  get Knockback_force t w' = damage * 10 /\
  get Knockback_direction t w' = Math_atan2 dy dx /\
  get Knockback_remaining t w' = 0.2 /\
  get Attack_timer a w' = get Attack_cooldown a w /\
  events w' = events w
              ++ [MONSTER_DAMAGED t a damage
                                  (get Position_x t w, get Position_y t w)].
Proof.
  intros Ht Hf w' damage dx dy. subst w'.
  rewrite processAttacker_unfold.
  apply Qlt_bool_false_iff in Ht. rewrite Ht, Hf.
  match goal with
  | |- context [strike ?a' ?t' ?x ?y ?tx ?ty ?v] =>
      destruct (strike_knockback a' t' x y tx ty v) as (Hk & Hforce & Hdir & Hrem)
  end.
  split; [apply strike_health|].
  split; [exact Hk|]. split; [exact Hforce|].
  split; [exact Hdir|]. split; [exact Hrem|].
  split; [apply strike_timer|apply strike_events].
Qed.

End AttackClaims.

Lemma strike_postcondition_witness :
  let w := strikeScenario in
  let targets := damageableQuery w in
  let w' := @processAttacker seriesMath targets w 0%nat in
  get Attack_timer 0%nat w <= 0 /\
  firstInRange 0%nat targets w = Some 1%nat /\
  get Health_current 1%nat w'
  = get Health_current 1%nat w - get Attack_damage 0%nat w /\
  hasComponent Knockback 1%nat w' = true /\
  get Knockback_force 1%nat w' = get Attack_damage 0%nat w * 10 /\
  get Knockback_direction 1%nat w'
  = @Math_atan2 seriesMath
                (get Position_y 1%nat w - get Position_y 0%nat w)
                (get Position_x 1%nat w - get Position_x 0%nat w) /\
  get Knockback_remaining 1%nat w' = 0.2 /\
  get Attack_timer 0%nat w' = get Attack_cooldown 0%nat w /\
  events w' = events w
              ++ [MONSTER_DAMAGED 1%nat 0%nat (get Attack_damage 0%nat w)
                    (get Position_x 1%nat w, get Position_y 1%nat w)].
Proof.
  intros w targets w'.
  assert (Ht : get Attack_timer 0%nat w <= 0) by (vm_compute; discriminate).
  assert (Hf : firstInRange 0%nat targets w = Some 1%nat) by reflexivity.
  split; [exact Ht|]. split; [exact Hf|].
  exact (@strike_postcondition seriesMath w targets 0%nat 1%nat Ht Hf).
Defined.

(** The scenario of the specification, run through the whole of
    [attackSystem]: the target is left with 35 health and a knockback of
    direction 0 and 0.2 remaining, the timer of the attacker is its
    cooldown, and the one event of the strike was emitted. *)
Example strikeScenario_attackSystem :
  let w' := @attackSystem seriesMath strikeScenario in
  get Health_current 1%nat w' == 35 /\
  hasComponent Knockback 1%nat w' = true /\
  get Knockback_force 1%nat w' == 150 /\
  get Knockback_direction 1%nat w' == 0 /\
  get Knockback_remaining 1%nat w' == 0.2 /\
  get Attack_timer 0%nat w' == get Attack_cooldown 0%nat strikeScenario /\
  events w' = [MONSTER_DAMAGED 1%nat 0%nat 15 (5, 0)].
Proof. vm_compute. repeat split. Qed.

(** The direction of the scenario is 0 with every implementation of
    [Math.atan2] that returns 0 at (0, x) for positive x, as ECMAScript
    requires. *)
Lemma strikeScenario_direction (M : MathLib) :
  (forall x, 0 < x -> Math_atan2 0 x == 0) ->
  get Knockback_direction 1%nat (attackSystem strikeScenario) == 0.
Proof.
  intros Hatan.
  assert (E : get Knockback_direction 1%nat (attackSystem strikeScenario)
              = Math_atan2 0 5) by (vm_compute; reflexivity).
  rewrite E. apply Hatan. reflexivity.
Qed.

Lemma attackSystem_one_strike_per_attacker_witness :
  let w := strikeScenario in
  let attackers := attackerQuery w in
  let targets := damageableQuery w in
  let ready := decayCooldowns attackers (delta w) w in
  NoDup (entities w) /\
  exists appended,
    events (@attackSystem seriesMath w) = events w ++ appended /\
    forall a,
      (length (filter (damagedBy a) appended) <= 1)%nat /\
      (forall t d p,
          In (MONSTER_DAMAGED t a d p) appended ->
          In a attackers /\ get Attack_timer a ready <= 0 /\
          firstInRange a targets w = Some t) /\
      (forall t,
          In a attackers -> get Attack_timer a ready <= 0 ->
          firstInRange a targets w = Some t ->
          In (MONSTER_DAMAGED t a (get Attack_damage a w)
                              (get Position_x t w, get Position_y t w))
             appended).
Proof.
  intros w attackers targets ready.
  assert (Hnd : NoDup (entities w)) by prove_NoDup.
  split; [exact Hnd|].
  exact (@attackSystem_one_strike_per_attacker seriesMath w Hnd).
Defined.

(** ** No faction filter *)

Lemma get_set_pointwise (w1 w2 : World) (g : Field) (a : entity) (v : Q) :
  (forall f e, get f e w1 = get f e w2) ->
  forall f e, get f e (set g a v w1) = get f e (set g a v w2).
Proof.
  intros H f e. unfold get, set; simpl.
  destruct (Field_eq_dec g f); [|apply H].
  destruct (Nat.eqb a e); [reflexivity|apply H].
Qed.

Lemma decayCooldowns_pointwise (l : list entity) (d : Q) (w1 w2 : World) :
  (forall f e, get f e w1 = get f e w2) ->
  forall f e, get f e (decayCooldowns l d w1) = get f e (decayCooldowns l d w2).
Proof.
  revert w1 w2. induction l as [|a l IH]; intros w1 w2 H; [exact H|].
  rewrite !decayCooldowns_cons. apply IH. rewrite (H Attack_timer a).
  destruct (Qlt_bool 0 _); [|exact H]. now apply get_set_pointwise.
Qed.

Lemma attackEvent_pointwise (targets : list entity) (w1 w2 : World)
      (a : entity) :
  (forall f e, get f e w1 = get f e w2) ->
  attackEvent targets w1 a = attackEvent targets w2 a.
Proof.
  intros H. apply (attackEvent_same [a]); [|now left].
  repeat split; intros; apply H.
Qed.

Section FactionClaims.
Context {M : MathLib}.

(** The events of a run of [attackSystem] do not depend on the faction
    tags. *)
Lemma attackSystem_events_sameUpToFaction (w1 w2 : World) :
  NoDup (entities w1) -> sameUpToFaction w1 w2 ->
  events (attackSystem w1) = events (attackSystem w2).
Proof.
  intros Hnd (He & Hd & Hev & Hs & Hm).
  assert (Hnd2 : NoDup (entities w2)) by now rewrite <- He.
  assert (Ha : attackerQuery w1 = attackerQuery w2).
  { apply defineQuery_ext; [exact He|].
    intros e c [<-|[<-|[]]]; apply Hm; discriminate. }
  assert (Ht : damageableQuery w1 = damageableQuery w2).
  { apply defineQuery_ext; [exact He|].
    intros e c [<-|[<-|[]]]; apply Hm; discriminate. }
  rewrite !attackSystem_events by assumption.
  rewrite Hev, Ha, Ht, Hd. f_equal.
  apply flat_map_ext. intros a. apply attackEvent_pointwise.
  now apply decayCooldowns_pointwise.
Qed.

(** C10.  [attackSystem] selects its target without regard to faction: the
    candidates are the live entities with [Position] and [Health], the
    attacker itself excepted; changing who carries [PlayerControlled] or
    [Enemy] changes no event of a run; and there are worlds in which a
    player-controlled monster strikes another player-controlled monster, and
    an enemy another enemy. *)
Theorem attackSystem_no_faction_filter :
  (forall w t,
      In t (damageableQuery w) <->
      In t (entities w) /\ hasComponent Position t w = true
      /\ hasComponent Health t w = true) /\
  (forall w targets a,
      get Attack_timer a w <= 0 ->
      events (processAttacker targets w a) = events w ++
        match find (fun t => negb (Nat.eqb t a) && inRange a t w) targets with
        | Some t => [MONSTER_DAMAGED t a (get Attack_damage a w)
                       (get Position_x t w, get Position_y t w)]
        | None => []
        end) /\
  (forall w1 w2,
      NoDup (entities w1) -> sameUpToFaction w1 w2 ->
      events (attackSystem w1) = events (attackSystem w2)) /\
  (exists w a t d p,
      a <> t /\
      hasComponent PlayerControlled a w = true /\
      hasComponent PlayerControlled t w = true /\
      In (MONSTER_DAMAGED t a d p) (events (attackSystem w))) /\
  (exists w a t d p,
      a <> t /\
      hasComponent Enemy a w = true /\
      hasComponent Enemy t w = true /\
      In (MONSTER_DAMAGED t a d p) (events (attackSystem w))).
Proof.
  split; [|split; [|split; [|split]]].
  - intros w t. unfold damageableQuery. rewrite defineQuery_In.
    split.
    + intros [Hin Hc]. repeat split; [exact Hin| |]; apply Hc; simpl; auto.
    + intros (Hin & Hp & Hh). split; [exact Hin|].
      intros c [<-|[<-|[]]]; assumption.
  - intros w targets a Ht. rewrite processAttacker_events.
    unfold attackEvent, firstInRange.
    apply Qlt_bool_false_iff in Ht. now rewrite Ht.
  - apply attackSystem_events_sameUpToFaction.
  - exists twoPlayersWorld, 0%nat, 1%nat, 15, (420, 300).
    split; [discriminate|]. split; [reflexivity|]. split; [reflexivity|].
    vm_compute. auto.
  - exists twoEnemiesWorld, 0%nat, 1%nat, 8, (20, 120).
    split; [discriminate|]. split; [reflexivity|]. split; [reflexivity|].
    vm_compute. auto.
Qed.

End FactionClaims.

(** ** Death *)

Lemma set_deadEntities_eta (w : World) :
  set_deadEntities (deadEntities w) w = w.
Proof. now destruct w. Qed.

Lemma markDead_eq (l : list entity) (w : World) :
  markDead l w
  = set_deadEntities
      (deadEntities w
       ++ filter (fun e => Qle_bool (get Health_current e w) 0) l) w.
Proof.
  revert w. induction l as [|e l IH]; intros w.
  - simpl. now rewrite app_nil_r, set_deadEntities_eta.
  - unfold markDead in *. cbn [fold_left filter].
    destruct (Qle_bool (get Health_current e w) 0).
    + rewrite IH. unfold pushDeadEntity. cbn [deadEntities set_deadEntities].
      rewrite <- app_assoc. reflexivity.
    + apply IH.
Qed.

Lemma entityExists_In (e : entity) (w : World) :
  entityExists e w = true <-> In e (entities w).
Proof.
  unfold entityExists. rewrite existsb_exists. split.
  - intros (x & Hx & E). apply Nat.eqb_eq in E. now subst.
  - intros H. exists e. split; [exact H|apply Nat.eqb_refl].
Qed.

Lemma filter_neq_notin (e : entity) (l : list entity) :
  ~ In e l -> filter (fun e' => negb (Nat.eqb e e')) l = l.
Proof.
  induction l as [|x l IH]; intros Hn; [reflexivity|]. cbn [filter].
  destruct (Nat.eqb e x) eqn:E.
  - apply Nat.eqb_eq in E. subst. exfalso. apply Hn. now left.
  - cbn [negb]. f_equal. apply IH. intros H. apply Hn. now right.
Qed.

Lemma removeEntity_entities (e : entity) (w : World) :
  entities (removeEntity e w)
  = filter (fun e' => negb (Nat.eqb e e')) (entities w).
Proof.
  unfold removeEntity. destruct (entityExists e w) eqn:E; [reflexivity|].
  symmetry. apply filter_neq_notin. rewrite <- entityExists_In. congruence.
Qed.

Lemma removeEntity_mask_other (e e' : entity) (c : Component) (w : World) :
  e <> e' -> mask (removeEntity e w) e' c = mask w e' c.
Proof.
  intros N. unfold removeEntity. destruct (entityExists e w); [|reflexivity].
  simpl. apply Nat.eqb_neq in N. now rewrite N.
Qed.

Lemma removeEntity_mask_same (e : entity) (c : Component) (w : World) :
  In e (entities w) -> mask (removeEntity e w) e c = false.
Proof.
  intros H. apply entityExists_In in H. unfold removeEntity. rewrite H.
  simpl. now rewrite Nat.eqb_refl.
Qed.

(** [removeEntity] touches the entity list and the masks only; in
    particular it leaves [world.playerEntities] as it is. *)
Lemma removeEntity_frame (e : entity) (w : World) :
  let w' := removeEntity e w in
  time w' = time w /\ delta w' = delta w /\ config w' = config w /\
  events w' = events w /\ deadEntities w' = deadEntities w /\
  entitiesToRemove w' = entitiesToRemove w /\
  playerEntities w' = playerEntities w /\ spawnTimer w' = spawnTimer w /\
  entityCursor w' = entityCursor w /\ store w' = store w.
Proof.
  unfold removeEntity. destruct (entityExists e w); repeat split.
Qed.

Lemma drainDead_frame (stack : list entity) (w : World) :
  let w' := drainDead stack w in
  time w' = time w /\ delta w' = delta w /\ config w' = config w /\
  events w' = events w /\
  entitiesToRemove w' = entitiesToRemove w /\
  playerEntities w' = playerEntities w /\ spawnTimer w' = spawnTimer w /\
  entityCursor w' = entityCursor w /\ store w' = store w.
Proof.
  revert w. induction stack as [|e rest IH]; intros w; [repeat split|].
  cbn [drainDead].
  specialize (IH (removeEntity e (set_deadEntities (rev rest) w))).
  destruct (removeEntity_frame e (set_deadEntities (rev rest) w))
    as (?&?&?&?&?&?&?&?&?&?).
  cbv zeta in IH. destruct IH as (?&?&?&?&?&?&?&?&?).
  simpl in *. repeat split; congruence.
Qed.

Lemma drainDead_deadEntities (stack : list entity) (w : World) :
  deadEntities (drainDead stack w)
  = match stack with [] => deadEntities w | _ :: _ => [] end.
Proof.
  revert w. induction stack as [|e rest IH]; intros w; [reflexivity|].
  cbn [drainDead]. rewrite IH. destruct rest as [|e' rest']; [|reflexivity].
  destruct (removeEntity_frame e (set_deadEntities (rev []) w))
    as (_&_&_&_&->&_). reflexivity.
Qed.

Lemma filter_twice {A : Type} (f g : A -> bool) (l : list A) :
  filter f (filter g l) = filter (fun x => g x && f x) l.
Proof.
  induction l as [|x l IH]; [reflexivity|]. cbn [filter].
  destruct (g x); cbn [filter andb]; [|exact IH].
  destruct (f x); now rewrite IH.
Qed.

Lemma drainDead_entities (stack : list entity) (w : World) :
  entities (drainDead stack w)
  = filter (fun e => negb (existsb (Nat.eqb e) stack)) (entities w).
Proof.
  revert w. induction stack as [|x rest IH]; intros w.
  - cbn [drainDead existsb negb]. symmetry. apply forallb_filter_id.
    now apply forallb_forall.
  - cbn [drainDead]. rewrite IH, removeEntity_entities.
    cbn [entities set_deadEntities]. rewrite filter_twice.
    apply filter_ext. intros e. cbn [existsb].
    rewrite (Nat.eqb_sym x e).
    destruct (Nat.eqb e x), (existsb (Nat.eqb e) rest); reflexivity.
Qed.

Lemma drainDead_mask_survivor (stack : list entity) (w : World)
      (e : entity) (c : Component) :
  ~ In e stack -> mask (drainDead stack w) e c = mask w e c.
Proof.
  revert w. induction stack as [|x rest IH]; intros w Hn; [reflexivity|].
  cbn [drainDead]. rewrite IH by (intros H; apply Hn; now right).
  rewrite removeEntity_mask_other; [reflexivity|].
  intros ->. apply Hn. now left.
Qed.

Lemma removeEntity_mask_false (e e' : entity) (c : Component) (w : World) :
  mask w e' c = false -> mask (removeEntity e w) e' c = false.
Proof.
  intros H. unfold removeEntity. destruct (entityExists e w); [|exact H].
  simpl. now destruct (Nat.eqb e e').
Qed.

Lemma drainDead_mask_false (stack : list entity) (w : World)
      (e : entity) (c : Component) :
  mask w e c = false -> mask (drainDead stack w) e c = false.
Proof.
  revert w. induction stack as [|x rest IH]; intros w H; [exact H|].
  cbn [drainDead]. apply IH. now apply removeEntity_mask_false.
Qed.

Lemma drainDead_mask_removed (stack : list entity) (w : World)
      (e : entity) (c : Component) :
  In e stack -> In e (entities w) -> mask (drainDead stack w) e c = false.
Proof.
  revert w. induction stack as [|x rest IH]; intros w Hin He; [contradiction|].
  cbn [drainDead]. destruct (Nat.eq_dec x e) as [->|N].
  - apply drainDead_mask_false. now apply removeEntity_mask_same.
  - destruct Hin as [->|Hin]; [contradiction|].
    apply IH; [exact Hin|].
    rewrite removeEntity_entities. apply filter_In. split; [exact He|].
    apply Nat.eqb_neq in N. now rewrite N.
Qed.

(** The entities a run of [healthSystem] finds dead, in query order. *)
Lemma healthSystem_unfold (w : World) :
  let dead :=
    filter (fun e => Qle_bool (get Health_current e w) 0) (healthQuery w) in
  healthSystem w
  = drainDead (rev (deadEntities w ++ dead))
              (set_deadEntities (deadEntities w ++ dead) w).
Proof.
  intros dead. unfold healthSystem. rewrite markDead_eq. reflexivity.
Qed.

Lemma In_dead_isDead (w : World) (e : entity) :
  In e (filter (fun e => Qle_bool (get Health_current e w) 0) (healthQuery w))
  <-> In e (entities w) /\ isDead e w = true.
Proof.
  unfold healthQuery, isDead.
  rewrite filter_In, defineQuery_In, andb_true_iff. split.
  - intros [[Hin Hc] Hh]. repeat split; auto. apply Hc. now left.
  - intros [Hin [Hc Hh]]. repeat split; auto. now intros c [<-|[]].
Qed.

Lemma existsb_eqb_In (e : entity) (l : list entity) :
  existsb (Nat.eqb e) l = true <-> In e l.
Proof.
  rewrite existsb_exists. split.
  - intros (x & Hx & E). apply Nat.eqb_eq in E. now subst.
  - intros H. exists e. split; [exact H|apply Nat.eqb_refl].
Qed.

Lemma healthSystem_entities_gen (w : World) :
  entities (healthSystem w)
  = filter (fun e => negb (isDead e w || existsb (Nat.eqb e) (deadEntities w)))
           (entities w).
Proof.
  rewrite healthSystem_unfold. cbv zeta. rewrite drainDead_entities.
  cbn [entities set_deadEntities]. apply filter_ext_in. intros e He.
  f_equal. apply eq_true_iff_eq.
  rewrite orb_true_iff, !existsb_eqb_In, <- in_rev, in_app_iff, In_dead_isDead.
  tauto.
Qed.

Lemma healthSystem_entities (w : World) :
  deadEntities w = [] ->
  entities (healthSystem w) = filter (fun e => negb (isDead e w)) (entities w).
Proof.
  intros Hd. rewrite healthSystem_entities_gen, Hd.
  apply filter_ext. intros e. cbn [existsb]. now rewrite orb_false_r.
Qed.

Lemma healthSystem_frame (w : World) :
  let w' := healthSystem w in
  time w' = time w /\ delta w' = delta w /\ config w' = config w /\
  events w' = events w /\
  entitiesToRemove w' = entitiesToRemove w /\
  playerEntities w' = playerEntities w /\ spawnTimer w' = spawnTimer w /\
  entityCursor w' = entityCursor w /\ store w' = store w.
Proof.
  cbv zeta. rewrite healthSystem_unfold. cbv zeta.
  apply (drainDead_frame _ (set_deadEntities _ w)).
Qed.

Lemma healthSystem_deadEntities (w : World) :
  deadEntities (healthSystem w) = [].
Proof.
  rewrite healthSystem_unfold. cbv zeta. rewrite drainDead_deadEntities.
  destruct (rev _) eqn:E; [|reflexivity].
  cbn [deadEntities set_deadEntities].
  apply (f_equal (@rev _)) in E. now rewrite rev_involutive in E.
Qed.

Lemma healthSystem_mask_survivor (w : World) (e : entity) (c : Component) :
  In e (entities (healthSystem w)) ->
  hasComponent c e (healthSystem w) = hasComponent c e w.
Proof.
  rewrite healthSystem_entities_gen, filter_In, negb_true_iff, orb_false_iff.
  intros (He & Hdead & Hq). unfold hasComponent.
  rewrite healthSystem_unfold. cbv zeta.
  rewrite drainDead_mask_survivor; [reflexivity|].
  rewrite <- in_rev, in_app_iff, In_dead_isDead, <- existsb_eqb_In.
  intros [H|[_ H]]; congruence.
Qed.

Lemma healthSystem_mask_removed (w : World) (e : entity) (c : Component) :
  In e (entities w) -> ~ In e (entities (healthSystem w)) ->
  hasComponent c e (healthSystem w) = false.
Proof.
  intros He Hn. unfold hasComponent.
  rewrite healthSystem_entities_gen, filter_In in Hn.
  rewrite healthSystem_unfold. cbv zeta.
  apply drainDead_mask_removed; [|exact He].
  rewrite <- in_rev, in_app_iff, In_dead_isDead, <- existsb_eqb_In.
  destruct (isDead e w) eqn:Ed; [right; auto|].
  destruct (existsb (Nat.eqb e) (deadEntities w)) eqn:Eq; [left; auto|].
  exfalso. apply Hn. split; [exact He|reflexivity].
Qed.

Lemma filter_nil_forall {A : Type} (f : A -> bool) (l : list A) :
  (forall x, In x l -> f x = false) -> filter f l = [].
Proof.
  induction l as [|x l IH]; intros H; [reflexivity|]. cbn [filter].
  rewrite (H x) by now left. apply IH. intros y Hy. apply H. now right.
Qed.

(** After a run nothing alive is dead, so a second run finds nothing to
    remove. *)
Lemma healthSystem_idempotent (w : World) :
  healthSystem (healthSystem w) = healthSystem w.
Proof.
  pose proof (healthSystem_deadEntities w) as Hd.
  rewrite (healthSystem_unfold (healthSystem w)). cbv zeta.
  rewrite Hd. cbn [app].
  rewrite filter_nil_forall.
  - cbn [rev drainDead]. rewrite <- Hd. apply set_deadEntities_eta.
  - intros e He. apply not_true_is_false. intros Hh.
    assert (Hdead : In e (entities (healthSystem w))
                    /\ isDead e (healthSystem w) = true).
    { apply In_dead_isDead. apply filter_In. auto. }
    destruct Hdead as [Hin Hdead]. unfold isDead in Hdead.
    rewrite (healthSystem_mask_survivor w e Health Hin) in Hdead.
    assert (Hs : store (healthSystem w) = store w) by apply healthSystem_frame.
    unfold get in Hdead. rewrite Hs in Hdead.
    rewrite healthSystem_entities_gen, filter_In, negb_true_iff,
      orb_false_iff in Hin.
    destruct Hin as (_ & Hnd & _). unfold isDead, get in Hnd. congruence.
Qed.

(** C7.  Started with an empty [world.deadEntities] (as every run leaves
    it), one run of [healthSystem] removes from the world every entity that
    carries [Health] with [Health.current <= 0] and removes no other entity:
    the survivors keep their components, the removed ones lose every
    component.  Afterwards [world.deadEntities] is empty, and a second run
    with no damage in between changes nothing. *)
Theorem healthSystem_removes_exactly_the_dead (w : World) :
  deadEntities w = [] ->
  let w' := healthSystem w in
  (forall e,
      In e (entities w') <->
      In e (entities w) /\
      ~ (hasComponent Health e w = true /\ get Health_current e w <= 0)) /\
  (forall e c, In e (entities w') -> hasComponent c e w' = hasComponent c e w) /\
  (forall e c,
      In e (entities w) -> ~ In e (entities w') -> hasComponent c e w' = false) /\
  deadEntities w' = [] /\
  healthSystem w' = w'.
Proof.
  intros Hd w'. subst w'.
  split; [|split; [|split; [|split]]].
  - intros e. rewrite healthSystem_entities by exact Hd.
    rewrite filter_In, negb_true_iff. unfold isDead.
    rewrite <- not_true_iff_false, andb_true_iff, Qle_bool_iff. reflexivity.
  - intros e c. apply healthSystem_mask_survivor.
  - intros e c. apply healthSystem_mask_removed.
  - apply healthSystem_deadEntities.
  - apply healthSystem_idempotent.
Qed.

Lemma healthSystem_removes_exactly_the_dead_witness :
  let w := oneDeadOfTwoWorld in
  let w' := healthSystem w in
  deadEntities w = [] /\
  (forall e,
      In e (entities w') <->
      In e (entities w) /\
      ~ (hasComponent Health e w = true /\ get Health_current e w <= 0)) /\
  (forall e c, In e (entities w') -> hasComponent c e w' = hasComponent c e w) /\
  (forall e c,
      In e (entities w) -> ~ In e (entities w') -> hasComponent c e w' = false) /\
  deadEntities w' = [] /\
  healthSystem w' = w'.
Proof.
  intros w w'.
  assert (Hd : deadEntities w = []) by reflexivity.
  split; [exact Hd|].
  exact (healthSystem_removes_exactly_the_dead w Hd).
Defined.

(** Of the two player monsters of [oneDeadOfTwoWorld], the run removes the
    one at zero health and keeps the other. *)
Example healthSystem_oneDeadOfTwo :
  entities oneDeadOfTwoWorld = [0%nat; 1%nat] /\
  entities (healthSystem oneDeadOfTwoWorld) = [0%nat].
Proof. split; reflexivity. Qed.

(** C1, what the code does.  [healthSystem] never writes
    [world.playerEntities]: the id of a player monster that dies stays in
    the list.  In [deadPlayerWorld] the player monster 0 has -5 health; after
    the run it is gone from the world, and 0 is still in
    [world.playerEntities], where [Game.movePlayerMonster] still accepts
    it.  The same happens in play: in the 71st frame of [duelWorld] the
    WATER monster 1 is struck down to 0 health and removed, and 1 stays in
    [world.playerEntities]. *)
Theorem healthSystem_leaves_stale_player_id :
  (forall w, playerEntities (healthSystem w) = playerEntities w) /\
  (let w := deadPlayerWorld in
   In 0%nat (entities w) /\
   In 0%nat (playerEntities w) /\
   get Health_current 0%nat w <= 0 /\
   ~ In 0%nat (entities (healthSystem w)) /\
   In 0%nat (playerEntities (healthSystem w)) /\
   get Velocity_x 0%nat (Game_movePlayerMonster 0%nat 7 0 (healthSystem w))
   == 7) /\
  (let w := duelWorld in
   let w' := healthSystem (@attackSystem seriesMath w) in
   entities w = [0%nat; 1%nat] /\
   playerEntities w = [0%nat; 1%nat] /\
   get Health_current 1%nat w == 15 /\
   entities w' = [0%nat] /\
   playerEntities w' = [0%nat; 1%nat]).
Proof.
  split; [intros w; apply healthSystem_frame|]. split.
  - cbv zeta. repeat split.
    + vm_compute; auto.
    + vm_compute; auto.
    + vm_compute; discriminate.
    + vm_compute. intros [].
    + vm_compute; auto.
  - cbv zeta. repeat split; vm_compute; reflexivity.
Qed.

(** ** Knockback *)

Section KnockbackProperties.
Context {M : MathLib}.

(** One step of the loop, field by field, for the entity it handles. *)
Lemma knockbackStep_same (d : Q) (w : World) (e : entity) :
  let w' := knockbackStep d w e in
  let remaining := get Knockback_remaining e w - d in
  let force := get Knockback_force e w in
  let direction := get Knockback_direction e w in
  get Knockback_remaining e w' = remaining /\
  (0 < remaining ->
   get Knockback_force e w' = force * 0.9 /\
   get Position_x e w' = get Position_x e w + Math_cos direction * force * d /\
   get Position_y e w' = get Position_y e w + Math_sin direction * force * d) /\
  (remaining <= 0 ->
   get Knockback_force e w' = force /\
   get Position_x e w' = get Position_x e w /\
   get Position_y e w' = get Position_y e w).
Proof.
  cbv zeta. unfold knockbackStep. rewrite get_set_same.
  destruct (Qlt_bool 0 (get Knockback_remaining e w - d)) eqn:E.
  - split; [now get_simpl|]. split.
    + intros _. repeat split; now get_simpl.
    + intros H. apply Qlt_bool_false_iff in H. congruence.
  - split; [now get_simpl|]. split.
    + intros H. apply Qlt_bool_iff in H. congruence.
    + intros _. repeat split; now get_simpl.
Qed.

(** A step writes the stores of its own entity only. *)
Lemma knockbackStep_other (d : Q) (w : World) (e e' : entity) (f : Field) :
  e <> e' -> get f e' (knockbackStep d w e) = get f e' w.
Proof.
  intros N. unfold knockbackStep.
  destruct (Qlt_bool 0 _);
    repeat (rewrite get_set_other_entity by exact N); reflexivity.
Qed.

(** A step reads the stores of its own entity only. *)
Lemma knockbackStep_local (d : Q) (w1 w2 : World) (e : entity) :
  (forall f, get f e w1 = get f e w2) ->
  forall f, get f e (knockbackStep d w1 e) = get f e (knockbackStep d w2 e).
Proof.
  intros H f.
  pose proof (H Knockback_remaining) as Hr.
  pose proof (H Knockback_force) as Hf.
  pose proof (H Knockback_direction) as Hd.
  pose proof (H Position_x) as Hx.
  pose proof (H Position_y) as Hy.
  pose proof (H f) as Hg.
  unfold knockbackStep, get, set in *. cbn -[Field_eq_dec Qlt_bool].
  rewrite !Nat.eqb_refl. cbn -[Field_eq_dec Qlt_bool].
  rewrite Hr, Hf, Hd, Hx, Hy.
  destruct (Qlt_bool 0 _); cbn -[Field_eq_dec Qlt_bool];
    rewrite ?Nat.eqb_refl;
    repeat (destruct (Field_eq_dec _ f); [reflexivity|]); exact Hg.
Qed.

Lemma knockbackSystem_notin (l : list entity) (d : Q) (w : World)
      (e : entity) (f : Field) :
  ~ In e l -> get f e (fold_left (knockbackStep d) l w) = get f e w.
Proof.
  revert w. induction l as [|b l IH]; intros w Hn; [reflexivity|].
  cbn [fold_left]. rewrite IH by (intros H; apply Hn; now right).
  apply knockbackStep_other. intros ->. apply Hn. now left.
Qed.

Lemma knockbackSystem_in (l : list entity) (d : Q) (w : World)
      (e : entity) (f : Field) :
  NoDup l -> In e l ->
  get f e (fold_left (knockbackStep d) l w) = get f e (knockbackStep d w e).
Proof.
  revert w. induction l as [|b l IH]; intros w Hnd Hin; [contradiction|].
  inversion Hnd as [|? ? Hb Hl]; subst. cbn [fold_left].
  destruct Hin as [->|Hin].
  - now apply knockbackSystem_notin.
  - rewrite IH by assumption. apply knockbackStep_local.
    intros g. apply knockbackStep_other. intros ->. contradiction.
Qed.

(** C6, amended.  For every entity with [Position] and [Knockback], one run
    of [knockbackSystem] first lowers [Knockback.remaining] by the frame's
    delta.  While the lowered value is still positive, the position is
    displaced by (cos, sin)(direction) * force * delta and the force is
    multiplied by 0.9, so a positive force strictly decreases from the run to
    the next.  Once the lowered value is zero or less -- in particular once
    [remaining <= 0] before a run of non-negative delta -- the component is
    inert: neither the position nor the force changes. *)
Theorem knockbackSystem_decay_then_inert (w : World) (e : entity) :
  NoDup (entities w) ->
  In e (knockbackQuery w) ->
  let w' := knockbackSystem w in
  let remaining := get Knockback_remaining e w - delta w in
  let force := get Knockback_force e w in
  let direction := get Knockback_direction e w in
  get Knockback_remaining e w' = remaining /\
  (0 < remaining ->
   get Knockback_force e w' = force * 0.9 /\
   (0 < force -> get Knockback_force e w' < force) /\
   get Position_x e w'
   = get Position_x e w + Math_cos direction * force * delta w /\
   get Position_y e w'
   = get Position_y e w + Math_sin direction * force * delta w) /\
  (remaining <= 0 ->
   get Knockback_force e w' = force /\
   get Position_x e w' = get Position_x e w /\
   get Position_y e w' = get Position_y e w) /\
  (get Knockback_remaining e w <= 0 -> 0 <= delta w ->
   get Knockback_remaining e w' <= 0 /\
   get Knockback_force e w' = force /\
   get Position_x e w' = get Position_x e w /\
   get Position_y e w' = get Position_y e w).
Proof.
  intros Hnd Hin. cbv zeta. unfold knockbackSystem.
  assert (Hq : NoDup (knockbackQuery w))
    by now apply (defineQuery_NoDup [Position; Knockback]).
  rewrite !(knockbackSystem_in _ _ _ _ _ Hq Hin).
  destruct (knockbackStep_same (delta w) w e) as (Hr & Hpos & Hneg).
  split; [exact Hr|]. split; [|split].
  - intros H. destruct (Hpos H) as (Hf & Hx & Hy).
    repeat split; try assumption.
    intros Hforce. rewrite Hf. lra.
  - exact Hneg.
  - intros H0 Hd.
    assert (Hle : get Knockback_remaining e w - delta w <= 0) by lra.
    split; [rewrite Hr; exact Hle|]. exact (Hneg Hle).
Qed.

End KnockbackProperties.

(** C6, as stated, fails on the last frame of every knockback: the system
    lowers [remaining] before it tests it.  In [knockbackLastFrameWorld] the
    target still has 0.1 s of knockback left ([remaining > 0]), the frame
    takes 0.1 s, and the run leaves its force at 135. *)
Lemma knockbackSystem_last_frame_counterexample :
  ~ (forall (M : MathLib) (w : World) (e : entity),
        In e (knockbackQuery w) ->
        0 < get Knockback_remaining e w ->
        get Knockback_force e (@knockbackSystem M w)
        < get Knockback_force e w).
Proof.
  intros H.
  specialize (H seriesMath knockbackLastFrameWorld 1%nat).
  assert (Hin : In 1%nat (knockbackQuery knockbackLastFrameWorld))
    by (vm_compute; auto).
  assert (Hr : 0 < get Knockback_remaining 1%nat knockbackLastFrameWorld)
    by (vm_compute; reflexivity).
  specialize (H Hin Hr). vm_compute in H. discriminate H.
Qed.

Example knockbackLastFrame_values :
  get Knockback_remaining 1%nat knockbackLastFrameWorld == 0.1 /\
  get Knockback_force 1%nat knockbackLastFrameWorld == 135 /\
  get Knockback_force 1%nat (@knockbackSystem seriesMath knockbackLastFrameWorld)
  == 135 /\
  get Position_x 1%nat knockedBackWorld == 5 /\
  get Position_x 1%nat knockbackLastFrameWorld == 20.
Proof. vm_compute. repeat split. Qed.

Lemma knockbackSystem_decay_then_inert_witness :
  let w := knockedBackWorld in
  let e := 1%nat in
  let w' := @knockbackSystem seriesMath w in
  let remaining := get Knockback_remaining e w - delta w in
  let force := get Knockback_force e w in
  let direction := get Knockback_direction e w in
  NoDup (entities w) /\
  In e (knockbackQuery w) /\
  get Knockback_remaining e w' = remaining /\
  (0 < remaining ->
   get Knockback_force e w' = force * 0.9 /\
   (0 < force -> get Knockback_force e w' < force) /\
   get Position_x e w'
   = get Position_x e w + @Math_cos seriesMath direction * force * delta w /\
   get Position_y e w'
   = get Position_y e w + @Math_sin seriesMath direction * force * delta w) /\
  (remaining <= 0 ->
   get Knockback_force e w' = force /\
   get Position_x e w' = get Position_x e w /\
   get Position_y e w' = get Position_y e w) /\
  (get Knockback_remaining e w <= 0 -> 0 <= delta w ->
   get Knockback_remaining e w' <= 0 /\
   get Knockback_force e w' = force /\
   get Position_x e w' = get Position_x e w /\
   get Position_y e w' = get Position_y e w).
Proof.
  intros w e w' remaining force direction.
  assert (Hnd : NoDup (entities w)) by prove_NoDup.
  assert (Hin : In e (knockbackQuery w)) by (vm_compute; auto).
  split; [exact Hnd|]. split; [exact Hin|].
  exact (@knockbackSystem_decay_then_inert seriesMath w e Hnd Hin).
Defined.

(** ** Spawning and creation *)

Lemma BASE_MONSTER_STATS_index (z : Z) :
  (0 <= z < 4)%Z -> exists base, BASE_MONSTER_STATS (inject_Z z) = Some base.
Proof.
  intros Hz.
  assert (z = 0 \/ z = 1 \/ z = 2 \/ z = 3)%Z as [->|[->|[->| ->]]] by lia;
    eexists; reflexivity.
Qed.

Lemma Qfloor_roll_times_4 (r : Q) :
  0 <= r -> r < 1 -> (0 <= Qfloor (r * 4) < 4)%Z.
Proof.
  intros H0 H1. split.
  - change 0%Z with (Qfloor 0). apply Qfloor_resp_le. lra.
  - assert (H : inject_Z (Qfloor (r * 4)) < inject_Z 4).
    { apply Qle_lt_trans with (r * 4); [apply Qfloor_le|].
      change (inject_Z 4) with 4. lra. }
    now rewrite <- Zlt_Qlt in H.
Qed.

Lemma createEnemyMonster_events (x y type level : Q) (w : World)
      (base : MonsterStats) :
  BASE_MONSTER_STATS type = Some base ->
  exists w',
    createEnemyMonster x y type level w = (w', Return (entityCursor w)) /\
    events w' = events w
                ++ [MONSTER_SPAWNED (entityCursor w) (x, y) type level false].
Proof.
  intros Hb. unfold createEnemyMonster, addEntity, calculateMonsterStats.
  rewrite Hb. eexists. split; reflexivity.
Qed.

(** C3, what the code does.  When [spawnSystem] fires, the type of the
    enemy it creates is floor(roll * 4) for the type roll, whatever
    [world.config.monsterTypes] says.  With two configured types and a roll of
    0.9 the enemy is of type 3 (AIR), not of type floor(0.9 * 2) = 1, which is
    what the draw of [Game.initializePlayerMonsters] gives on the same
    configuration. *)
Theorem spawnSystem_type_ignores_config :
  (forall rolls w,
      spawnTimer w - delta w <= 0 ->
      0 <= typeRoll rolls -> typeRoll rolls < 1 ->
      exists w' e position level,
        spawnSystem rolls w = (w', Return tt) /\
        events w' = events w
                    ++ [MONSTER_SPAWNED e position
                          (inject_Z (Qfloor (typeRoll rolls * 4)))
                          level false]) /\
  monsterTypes (config twoTypesWorld) = 2 /\
  snd (spawnSystem typeRollHigh twoTypesWorld) = Return tt /\
  (exists position,
      events (fst (spawnSystem typeRollHigh twoTypesWorld))
      = [MONSTER_SPAWNED 0%nat position 3 1 false]) /\
  inject_Z (Qfloor (typeRoll typeRollHigh * monsterTypes (config twoTypesWorld)))
  = 1 /\
  initialMonsterType (typeRoll typeRollHigh) twoTypesWorld = 1.
Proof.
  split; [|split; [reflexivity|split; [|split; [|split; reflexivity]]]].
  - intros rolls w Ht H0 H1. unfold spawnSystem.
    cbn [spawnTimer set_spawnTimer]. apply Qle_bool_iff in Ht. rewrite Ht.
    destruct (BASE_MONSTER_STATS_index (Qfloor (typeRoll rolls * 4)))
      as [base Hb]; [now apply Qfloor_roll_times_4|].
    cbv zeta.
    match goal with
    | |- context [let (_, _) := ?p in _] => destruct p as [x y]
    end.
    match goal with
    | |- context [createEnemyMonster ?x ?y ?t ?l ?v] =>
        destruct (createEnemyMonster_events x y t l v base Hb)
          as (w' & -> & Hev);
        exists w', (entityCursor v), (x, y), l
    end.
    split; [reflexivity|exact Hev].
  - vm_compute. reflexivity.
  - eexists. vm_compute. reflexivity.
Qed.

Lemma BASE_MONSTER_STATS_None (type : Q) :
  BASE_MONSTER_STATS type = None <->
  ~ (type == MonsterType.FIRE \/ type == MonsterType.WATER \/
     type == MonsterType.EARTH \/ type == MonsterType.AIR).
Proof.
  unfold BASE_MONSTER_STATS.
  destruct (Qeq_bool type MonsterType.FIRE) eqn:E0;
    [apply Qeq_bool_iff in E0; split; [discriminate|tauto]|].
  destruct (Qeq_bool type MonsterType.WATER) eqn:E1;
    [apply Qeq_bool_iff in E1; split; [discriminate|tauto]|].
  destruct (Qeq_bool type MonsterType.EARTH) eqn:E2;
    [apply Qeq_bool_iff in E2; split; [discriminate|tauto]|].
  destruct (Qeq_bool type MonsterType.AIR) eqn:E3;
    [apply Qeq_bool_iff in E3; split; [discriminate|tauto]|].
  apply Qeq_bool_neq in E0, E1, E2, E3. tauto.
Qed.



(** ** The entity store stays well formed *)

Lemma wellFormed_createWorld (c : GameConfig) : wellFormed (createWorld c).
Proof. split; constructor. Qed.

Lemma wellFormed_same_store (w w' : World) :
  entities w' = entities w -> entityCursor w' = entityCursor w ->
  wellFormed w -> wellFormed w'.
Proof. unfold wellFormed. intros -> ->. auto. Qed.

Lemma wellFormed_addEntity (w : World) :
  wellFormed w -> wellFormed (fst (addEntity w)).
Proof.
  intros [Hnd Hlt]. unfold addEntity, wellFormed. cbn [fst entities entityCursor set_ecs].
  rewrite Forall_forall in Hlt. split.
  - apply NoDup_app; [exact Hnd|repeat constructor; intros []|].
    intros e He [<-|[]]. specialize (Hlt _ He). lia.
  - apply Forall_app. split.
    + apply Forall_forall. intros e He. specialize (Hlt _ He). lia.
    + repeat constructor.
Qed.

Lemma createPlayerMonster_store (x y type level : Q) (w : World) :
  entities (fst (createPlayerMonster x y type level w))
  = entities (fst (addEntity w)) /\
  entityCursor (fst (createPlayerMonster x y type level w))
  = entityCursor (fst (addEntity w)).
Proof.
  unfold createPlayerMonster, addEntity.
  destruct (calculateMonsterStats type level); split; reflexivity.
Qed.

Lemma createEnemyMonster_store (x y type level : Q) (w : World) :
  entities (fst (createEnemyMonster x y type level w))
  = entities (fst (addEntity w)) /\
  entityCursor (fst (createEnemyMonster x y type level w))
  = entityCursor (fst (addEntity w)).
Proof.
  unfold createEnemyMonster, addEntity.
  destruct (calculateMonsterStats type level); split; reflexivity.
Qed.

Lemma wellFormed_createPlayerMonster (x y type level : Q) (w : World) :
  wellFormed w -> wellFormed (fst (createPlayerMonster x y type level w)).
Proof.
  intros H. destruct (createPlayerMonster_store x y type level w) as [He Hc].
  apply (wellFormed_same_store (fst (addEntity w))); auto.
  now apply wellFormed_addEntity.
Qed.

Lemma wellFormed_spawnSystem (rolls : SpawnRolls) (w : World) :
  wellFormed w -> wellFormed (fst (spawnSystem rolls w)).
Proof.
  intros H. unfold spawnSystem. cbn [spawnTimer set_spawnTimer].
  destruct (Qle_bool _ 0); [|exact H]. cbv zeta.
  match goal with
  | |- context [let (_, _) := ?p in _] => destruct p as [x y]
  end.
  match goal with
  | |- context [createEnemyMonster ?x ?y ?t ?l ?v] =>
      destruct (createEnemyMonster_store x y t l v) as [He Hc];
      destruct (createEnemyMonster x y t l v) as [w' [e|]]
  end; cbn [fst] in *;
    (apply (wellFormed_same_store (fst (addEntity
              (set_spawnTimer (baseSpawnInterval (config w)
                               * (0.8 + intervalRoll rolls * 0.4))
                 (set_spawnTimer (spawnTimer w - delta w) w)))));
     [exact He|exact Hc|now apply wellFormed_addEntity]).
Qed.

Section SystemsKeepTheStore.
Context {M : MathLib}.

Lemma processAttacks_store (attackers targets : list entity) (w : World) :
  entities (processAttacks attackers targets w) = entities w /\
  entityCursor (processAttacks attackers targets w) = entityCursor w.
Proof.
  revert w. induction attackers as [|a rest IH]; intros w; [split; reflexivity|].
  unfold processAttacks in *. cbn [fold_left].
  destruct (IH (processAttacker targets w a)) as [-> ->].
  rewrite processAttacker_unfold.
  destruct (Qlt_bool 0 _); [split; reflexivity|].
  destruct (firstInRange a targets w) as [t|]; [|split; reflexivity].
  split; apply strike_frame.
Qed.

Lemma wellFormed_attackSystem (w : World) :
  wellFormed w -> wellFormed (attackSystem w).
Proof.
  intros H. unfold attackSystem.
  destruct (processAttacks_store (attackerQuery w) (damageableQuery w)
              (decayCooldowns (attackerQuery w) (delta w) w)) as [He Hc].
  destruct (decayCooldowns_frame (attackerQuery w) (delta w) w)
    as (_&_&_&_&_&_&_&_&Hc'&He'&_).
  apply (wellFormed_same_store w); [congruence|congruence|exact H].
Qed.

Lemma knockbackSystem_store (l : list entity) (d : Q) (w : World) :
  entities (fold_left (knockbackStep d) l w) = entities w /\
  entityCursor (fold_left (knockbackStep d) l w) = entityCursor w.
Proof.
  revert w. induction l as [|e l IH]; intros w; [split; reflexivity|].
  cbn [fold_left]. destruct (IH (knockbackStep d w e)) as [-> ->].
  unfold knockbackStep. destruct (Qlt_bool 0 _); split; reflexivity.
Qed.

Lemma wellFormed_knockbackSystem (w : World) :
  wellFormed w -> wellFormed (knockbackSystem w).
Proof.
  intros H. unfold knockbackSystem.
  destruct (knockbackSystem_store (knockbackQuery w) (delta w) w) as [He Hc].
  now apply (wellFormed_same_store w).
Qed.

End SystemsKeepTheStore.

Lemma wellFormed_healthSystem (w : World) :
  wellFormed w -> wellFormed (healthSystem w).
Proof.
  intros [Hnd Hlt]. unfold wellFormed.
  rewrite healthSystem_entities_gen.
  replace (entityCursor (healthSystem w)) with (entityCursor w)
    by (symmetry; apply healthSystem_frame).
  split; [now apply NoDup_filter|].
  rewrite Forall_forall in *. intros e He. apply filter_In in He.
  apply Hlt, He.
Qed.

(** ** The dead-entity queue is empty between runs of [healthSystem]

    Of the code at hand only [healthSystem] writes [world.deadEntities]: the
    constructor starts it empty, [healthSystem] leaves it empty, and creation,
    spawning, attack and knockback do not touch it. *)

Lemma deadEntities_createWorld (c : GameConfig) :
  deadEntities (createWorld c) = [].
Proof. reflexivity. Qed.

Lemma deadEntities_createPlayerMonster (x y type level : Q) (w : World) :
  deadEntities (fst (createPlayerMonster x y type level w)) = deadEntities w.
Proof.
  unfold createPlayerMonster, addEntity.
  destruct (calculateMonsterStats type level); reflexivity.
Qed.

Lemma deadEntities_createEnemyMonster (x y type level : Q) (w : World) :
  deadEntities (fst (createEnemyMonster x y type level w)) = deadEntities w.
Proof.
  unfold createEnemyMonster, addEntity.
  destruct (calculateMonsterStats type level); reflexivity.
Qed.

Lemma deadEntities_spawnSystem (rolls : SpawnRolls) (w : World) :
  deadEntities (fst (spawnSystem rolls w)) = deadEntities w.
Proof.
  unfold spawnSystem. cbn [spawnTimer set_spawnTimer].
  destruct (Qle_bool _ 0); [|reflexivity]. cbv zeta.
  match goal with
  | |- context [let (_, _) := ?p in _] => destruct p as [x y]
  end.
  match goal with
  | |- context [createEnemyMonster ?x ?y ?t ?l ?v] =>
      pose proof (deadEntities_createEnemyMonster x y t l v) as H;
      destruct (createEnemyMonster x y t l v) as [w' [e|]]
  end; exact H.
Qed.

Section QueueUntouched.
Context {M : MathLib}.

Lemma deadEntities_attackSystem (w : World) :
  deadEntities (attackSystem w) = deadEntities w.
Proof.
  unfold attackSystem.
  transitivity (deadEntities (decayCooldowns (attackerQuery w) (delta w) w));
    [|apply decayCooldowns_frame].
  generalize (decayCooldowns (attackerQuery w) (delta w) w) as v.
  generalize (damageableQuery w) as targets.
  induction (attackerQuery w) as [|a rest IH]; intros targets v; [reflexivity|].
  unfold processAttacks in *. cbn [fold_left]. rewrite IH.
  rewrite processAttacker_unfold.
  destruct (Qlt_bool 0 _); [reflexivity|].
  destruct (firstInRange a targets v) as [t|]; [|reflexivity].
  apply strike_frame.
Qed.

Lemma deadEntities_knockbackSystem (w : World) :
  deadEntities (knockbackSystem w) = deadEntities w.
Proof.
  unfold knockbackSystem. generalize (delta w) as d.
  generalize w at 2 3 as v.
  induction (knockbackQuery w) as [|e l IH]; intros v d; [reflexivity|].
  cbn [fold_left]. rewrite IH.
  unfold knockbackStep. destruct (Qlt_bool 0 _); reflexivity.
Qed.

End QueueUntouched.

(** * Part IV: further properties of the systems *)

(** ** Whole runs of [attackSystem] *)

Lemma damageTo_app (t : entity) (evs evs' : list GameEvent) :
  damageTo t (evs ++ evs') == damageTo t evs + damageTo t evs'.
Proof.
  induction evs as [|ev evs IH]; [simpl; ring|].
  destruct ev; cbn [app damageTo]; rewrite IH; ring.
Qed.

Section AttackRuns.
Context {M : MathLib}.

Lemma strike_health_other (a t e : entity) (dx dy tx ty : Q) (w : World) :
  e <> t ->
  get Health_current e (strike a t dx dy tx ty w) = get Health_current e w.
Proof.
  intros N. assert (t <> e) by congruence. unfold strike.
  destruct (negb (hasComponent Knockback t _)); now get_simpl.
Qed.

Lemma attackSystem_strikes (w : World) :
  NoDup (entities w) -> events (attackSystem w) = events w ++ strikes w.
Proof. apply attackSystem_events. Qed.

Lemma processAttacker_health (targets : list entity) (w : World)
      (a t : entity) :
  get Health_current t (processAttacker targets w a)
  == get Health_current t w - damageTo t (attackEvent targets w a).
Proof.
  rewrite processAttacker_unfold. unfold attackEvent.
  destruct (Qlt_bool 0 _); [simpl; ring|].
  destruct (firstInRange a targets w) as [t'|]; [|simpl; ring].
  cbn [damageTo]. destruct (Nat.eqb t' t) eqn:E.
  - apply Nat.eqb_eq in E. subst t'. rewrite strike_health. ring.
  - apply Nat.eqb_neq in E. rewrite strike_health_other by congruence. ring.
Qed.

Lemma processAttacks_health_gen (attackers targets : list entity)
      (w1 w0 : World) (t : entity) :
  NoDup attackers ->
  sameCombatInputs attackers w1 w0 ->
  get Health_current t (processAttacks attackers targets w1)
  == get Health_current t w1
     - damageTo t (flat_map (attackEvent targets w0) attackers).
Proof.
  revert w1. induction attackers as [|a rest IH]; intros w1 Hnd Hs.
  - simpl. ring.
  - inversion Hnd as [|? ? Ha Hrest]; subst.
    unfold processAttacks in *. cbn [fold_left flat_map].
    rewrite IH; [|exact Hrest|now apply processAttacker_same].
    rewrite processAttacker_health, damageTo_app.
    rewrite (attackEvent_same (a :: rest) targets w1 w0 a Hs) by now left.
    ring.
Qed.

Lemma decayCooldowns_sameCombatInputs (l : list entity) (d : Q)
      (w : World) :
  sameCombatInputs [] (decayCooldowns l d w) w.
Proof.
  destruct (decayCooldowns_frame l d w) as (_&_&_&_&_&_&_&_&_&_&_&Hs).
  repeat split; try (intros e; apply Hs; discriminate). intros ? [].
Qed.

Lemma damageTo_nonneg (targets : list entity) (w : World) (t : entity)
      (attackers : list entity) :
  (forall e, 0 <= get Attack_damage e w) ->
  0 <= damageTo t (flat_map (attackEvent targets w) attackers).
Proof.
  intros Hd. induction attackers as [|a rest IH]; [simpl; lra|].
  cbn [flat_map]. rewrite damageTo_app.
  assert (0 <= damageTo t (attackEvent targets w a)); [|lra].
  unfold attackEvent. destruct (Qlt_bool 0 _); [simpl; lra|].
  destruct (firstInRange a targets w) as [t'|]; [|simpl; lra].
  cbn [damageTo]. specialize (Hd a).
  destruct (Nat.eqb t' t); lra.
Qed.

(** X1.  The health ledger of a run of [attackSystem]: the health of every
    entity goes down by exactly the sum of the damages of the
    [MONSTER_DAMAGED] events the run appended for it (strikes by several
    attackers add up), and stays as it is for an entity no event names.  So
    when no attacker has negative damage, a run raises nobody's health. *)
Theorem attackSystem_health_ledger (w : World) :
  NoDup (entities w) ->
  events (attackSystem w) = events w ++ strikes w /\
  (forall t,
      get Health_current t (attackSystem w)
      == get Health_current t w - damageTo t (strikes w)) /\
  ((forall e, 0 <= get Attack_damage e w) ->
   forall t, get Health_current t (attackSystem w) <= get Health_current t w).
Proof.
  intros Hnd. split; [now apply attackSystem_strikes|].
  assert (Hledger : forall t,
             get Health_current t (attackSystem w)
             == get Health_current t w - damageTo t (strikes w)).
  { intros t. unfold attackSystem, strikes.
    rewrite processAttacks_health_gen
      with (w0 := decayCooldowns (attackerQuery w) (delta w) w).
    - destruct (decayCooldowns_frame (attackerQuery w) (delta w) w)
        as (_&_&_&_&_&_&_&_&_&_&_&Hs).
      rewrite Hs by discriminate. reflexivity.
    - now apply (defineQuery_NoDup [Position; Attack]).
    - apply sameCombatInputs_refl. }
  split; [exact Hledger|].
  intros Hd t. rewrite Hledger.
  assert (0 <= damageTo t (strikes w)); [|lra].
  apply damageTo_nonneg. intros e.
  destruct (decayCooldowns_frame (attackerQuery w) (delta w) w)
    as (_&_&_&_&_&_&_&_&_&_&_&Hs).
  rewrite Hs by discriminate. apply Hd.
Qed.

End AttackRuns.

(** In the duel of the two player monsters, the first frame costs the FIRE
    monster 10 and the WATER monster 15 health. *)
Lemma attackSystem_health_ledger_witness :
  let w := twoPlayersWorld in
  NoDup (entities w) /\
  events (@attackSystem seriesMath w) = events w ++ strikes w /\
  (forall t,
      get Health_current t (@attackSystem seriesMath w)
      == get Health_current t w - damageTo t (strikes w)) /\
  ((forall e, 0 <= get Attack_damage e w) ->
   forall t,
     get Health_current t (@attackSystem seriesMath w)
     <= get Health_current t w).
Proof.
  intros w.
  assert (Hnd : NoDup (entities w)) by prove_NoDup.
  split; [exact Hnd|].
  exact (@attackSystem_health_ledger seriesMath w Hnd).
Defined.

Example attackSystem_ledger_duel :
  damageTo 0%nat (strikes twoPlayersWorld) == 10 /\
  damageTo 1%nat (strikes twoPlayersWorld) == 15 /\
  get Health_current 0%nat (@attackSystem seriesMath twoPlayersWorld) == 90 /\
  get Health_current 1%nat (@attackSystem seriesMath twoPlayersWorld) == 105.
Proof. vm_compute. repeat split. Qed.

Section AttackRunsMore.
Context {M : MathLib}.

(** X2.  What a [MONSTER_DAMAGED] event of a run says is true of the world
    the run started in: the attacker is a live entity with [Position] and
    [Attack], the struck entity a live one with [Position] and [Health],
    the two are different (nothing strikes itself, though it is at distance
    0 of itself), the struck entity is within the attacker's range, and the
    event carries the attacker's [Attack.damage] and the position of the
    struck entity. *)
Theorem attackSystem_events_truthful (w : World) :
  NoDup (entities w) ->
  events (attackSystem w) = events w ++ strikes w /\
  forall ev, In ev (strikes w) ->
    exists t a,
      ev = MONSTER_DAMAGED t a (get Attack_damage a w)
                           (get Position_x t w, get Position_y t w) /\
      t <> a /\
      In a (attackerQuery w) /\ In t (damageableQuery w) /\
      inRange a t w = true.
Proof.
  intros Hnd. split; [now apply attackSystem_strikes|].
  intros ev Hev. unfold strikes in Hev.
  apply in_flat_map in Hev as (a & Ha & Hev).
  apply attackEvent_inv in Hev as (_ & t & Hf & ->).
  pose proof (decayCooldowns_sameCombatInputs (attackerQuery w) (delta w) w)
    as Hs.
  rewrite (firstInRange_same [] _ _ w a Hs) in Hf.
  destruct Hs as (Hx & Hy & _ & Hd & _). rewrite Hd, Hx, Hy.
  apply firstInRange_Some in Hf as (Hne & Hr & before & after & E & _).
  exists t, a. split; [reflexivity|]. split; [exact Hne|].
  split; [exact Ha|]. split; [|exact Hr].
  rewrite E. apply in_or_app. right. now left.
Qed.

(** The timers after the resolution pass: the cooldown for an attacker that
    struck, untouched for one that did not. *)
Lemma processAttacks_timer_gen (attackers targets : list entity)
      (w1 w0 : World) (a : entity) :
  NoDup attackers -> In a attackers ->
  sameCombatInputs attackers w1 w0 ->
  get Attack_timer a (processAttacks attackers targets w1)
  = match attackEvent targets w0 a with
    | [] => get Attack_timer a w1
    | _ :: _ => get Attack_cooldown a w1
    end.
Proof.
  revert w1. induction attackers as [|b rest IH]; intros w1 Hnd Hin Hs;
    [contradiction|].
  inversion Hnd as [|? ? Hb Hrest]; subst.
  unfold processAttacks in *. cbn [fold_left].
  assert (Hkeep : forall c targets' v,
             ~ In c rest ->
             get Attack_timer c (fold_left (processAttacker targets') rest v)
             = get Attack_timer c v).
  { clear. intros c targets' v. revert v.
    induction rest as [|x rest IH]; intros v Hn; [reflexivity|].
    cbn [fold_left]. rewrite IH by (intros H; apply Hn; now right).
    rewrite processAttacker_unfold.
    destruct (Qlt_bool 0 _); [reflexivity|].
    destruct (firstInRange x targets' v); [|reflexivity].
    apply strike_timer_other. intros ->. apply Hn. now left. }
  destruct Hin as [->|Hin].
  - rewrite Hkeep by exact Hb.
    rewrite <- (attackEvent_same (a :: rest) targets w1 w0 a Hs) by now left.
    rewrite processAttacker_unfold. unfold attackEvent.
    destruct (Qlt_bool 0 _); [reflexivity|].
    destruct (firstInRange a targets w1); [|reflexivity].
    apply strike_timer.
  - rewrite IH; [|exact Hrest|exact Hin|now apply processAttacker_same].
    assert (a <> b) by (intros ->; contradiction).
    destruct (attackEvent targets w0 a); rewrite processAttacker_unfold;
      destruct (Qlt_bool 0 _); try reflexivity;
      destruct (firstInRange b targets w1); try reflexivity.
    + now apply strike_timer_other.
    + apply strike_other_field; discriminate.
Qed.

Lemma attackSystem_same_store (w : World) :
  entities (attackSystem w) = entities w /\
  delta (attackSystem w) = delta w.
Proof.
  unfold attackSystem. split.
  - destruct (processAttacks_store (attackerQuery w) (damageableQuery w)
                (decayCooldowns (attackerQuery w) (delta w) w)) as [-> _].
    apply decayCooldowns_frame.
  - transitivity (delta (decayCooldowns (attackerQuery w) (delta w) w));
      [|apply decayCooldowns_frame].
    generalize (decayCooldowns (attackerQuery w) (delta w) w) as v.
    generalize (damageableQuery w) as targets.
    induction (attackerQuery w) as [|a rest IH]; intros targets v;
      [reflexivity|].
    unfold processAttacks in *. cbn [fold_left]. rewrite IH.
    rewrite processAttacker_unfold.
    destruct (Qlt_bool 0 _); [reflexivity|].
    destruct (firstInRange a targets v) as [t|]; [|reflexivity].
    apply strike_frame.
Qed.

(** X3.  The cooldown gates the next frame: an attacker that strikes in a
    run has its timer at [Attack.cooldown] afterwards, and when that
    cooldown is positive and longer than the frame's delta it strikes nobody
    in the run that follows. *)
Theorem attackSystem_cooldown_gate (w : World) (a t : entity) (d : Q)
        (p : Q * Q) :
  NoDup (entities w) ->
  In (MONSTER_DAMAGED t a d p) (strikes w) ->
  0 < get Attack_cooldown a w ->
  delta w < get Attack_cooldown a w ->
  get Attack_timer a (attackSystem w) = get Attack_cooldown a w /\
  forall t' d' p', ~ In (MONSTER_DAMAGED t' a d' p') (strikes (attackSystem w)).
Proof.
  intros Hnd Hev Hc Hd.
  assert (Htimer : get Attack_timer a (attackSystem w)
                   = get Attack_cooldown a w).
  { unfold strikes in Hev. apply in_flat_map in Hev as (b & Hb & Hev).
    assert (b = a) as ->.
    { apply attackEvent_inv in Hev as (_ & t0 & _ & E). now injection E. }
    unfold attackSystem.
    rewrite processAttacks_timer_gen
      with (w0 := decayCooldowns (attackerQuery w) (delta w) w);
      [|now apply (defineQuery_NoDup [Position; Attack])|exact Hb
       |apply sameCombatInputs_refl].
    destruct (attackEvent _ _ a); [contradiction|].
    apply decayCooldowns_frame. discriminate. }
  split; [exact Htimer|].
  intros t' d' p' Hin. unfold strikes in Hin.
  apply in_flat_map in Hin as (b & Hb & Hin).
  apply attackEvent_inv in Hin as (Hready & t0 & _ & E).
  assert (b = a) as -> by now injection E.
  destruct (attackSystem_same_store w) as [He Hdelta].
  rewrite decayCooldowns_in in Hready;
    [|apply (defineQuery_NoDup [Position; Attack]); now rewrite He|exact Hb].
  rewrite Htimer, Hdelta in Hready. unfold decayed in Hready.
  apply Qlt_bool_iff in Hc. rewrite Hc in Hready.
  apply Qlt_bool_iff in Hc. lra.
Qed.

End AttackRunsMore.

(** The FIRE monster of the duel strikes in the first frame and, with its
    cooldown of 1 s, not in the second. *)
Lemma attackSystem_cooldown_gate_witness :
  let w := set_delta 0.1 twoPlayersWorld in
  NoDup (entities w) /\
  In (MONSTER_DAMAGED 1%nat 0%nat 15 (420, 300)) (strikes w) /\
  0 < get Attack_cooldown 0%nat w /\
  delta w < get Attack_cooldown 0%nat w /\
  get Attack_timer 0%nat (@attackSystem seriesMath w)
  = get Attack_cooldown 0%nat w /\
  forall t' d' p',
    ~ In (MONSTER_DAMAGED t' 0%nat d' p')
         (strikes (@attackSystem seriesMath w)).
Proof.
  intros w.
  assert (Hnd : NoDup (entities w)) by prove_NoDup.
  assert (Hev : In (MONSTER_DAMAGED 1%nat 0%nat 15 (420, 300)) (strikes w))
    by (vm_compute; auto).
  assert (Hc : 0 < get Attack_cooldown 0%nat w) by (vm_compute; reflexivity).
  assert (Hd : delta w < get Attack_cooldown 0%nat w)
    by (vm_compute; reflexivity).
  split; [exact Hnd|]. split; [exact Hev|]. split; [exact Hc|].
  split; [exact Hd|].
  exact (@attackSystem_cooldown_gate seriesMath w 0%nat 1%nat 15 (420, 300)
           Hnd Hev Hc Hd).
Defined.

Lemma attackSystem_events_truthful_witness :
  let w := twoPlayersWorld in
  NoDup (entities w) /\
  events (@attackSystem seriesMath w) = events w ++ strikes w /\
  forall ev, In ev (strikes w) ->
    exists t a,
      ev = MONSTER_DAMAGED t a (get Attack_damage a w)
                           (get Position_x t w, get Position_y t w) /\
      t <> a /\
      In a (attackerQuery w) /\ In t (damageableQuery w) /\
      inRange a t w = true.
Proof.
  intros w.
  assert (Hnd : NoDup (entities w)) by prove_NoDup.
  split; [exact Hnd|].
  exact (@attackSystem_events_truthful seriesMath w Hnd).
Defined.

Section AttackFrame.
Context {M : MathLib}.

Lemma combatFrame_refl (attackers targets : list entity) (w : World) :
  combatFrame attackers targets w w.
Proof. unfold combatFrame. repeat split; auto. Qed.

Lemma combatFrame_trans (attackers targets : list entity) (w1 w2 w3 : World) :
  combatFrame attackers targets w1 w2 ->
  combatFrame attackers targets w2 w3 ->
  combatFrame attackers targets w1 w3.
Proof.
  intros ((E1&C1&P1&D1&T1&G1&S1) & F1 & H1 & A1 & M1 & K1 & N1)
         ((E2&C2&P2&D2&T2&G2&S2) & F2 & H2 & A2 & M2 & K2 & N2).
  unfold combatFrame. repeat split; try congruence.
  - intros f e ? ? ? ? ?. rewrite F2, F1; auto.
  - intros f e ? ?. rewrite H2, H1; auto.
  - intros e ?. rewrite A2, A1; auto.
  - intros e c ?. rewrite M2, M1; auto.
  - intros e ?. auto.
  - intros e ?. rewrite N2, N1; auto.
Qed.

Lemma combatFrame_decay (targets l : list entity) (d : Q) (w : World) :
  combatFrame l targets w (decayCooldowns l d w).
Proof.
  destruct (decayCooldowns_frame l d w)
    as (_&Hd&Hc&_&Hde&_&Hp&Hs&Hcur&He&Hm&Hf).
  unfold combatFrame. repeat split; try assumption.
  - intros f e ? ? ? ? ?. now apply Hf.
  - intros f e _ ?. now apply Hf.
  - intros e ?. now apply decayCooldowns_notin.
  - intros e c _. now rewrite Hm.
  - intros e H. now rewrite Hm.
  - intros e _. now rewrite Hm.
Qed.

Lemma combatFrame_strike (attackers targets : list entity) (a t : entity)
      (dx dy tx ty : Q) (w : World) :
  In a attackers -> In t targets ->
  combatFrame attackers targets w (strike a t dx dy tx ty w).
Proof.
  intros Ha Ht.
  destruct (strike_frame a t dx dy tx ty w)
    as (He&Hc&Hp&Hd&Hdl&Hcf&Hs&Hm).
  unfold combatFrame. repeat split; try assumption.
  - intros f e ? ? ? ? ?. now apply strike_other_field.
  - intros f e Hn Hf. assert (t <> e) by (intros ->; contradiction).
    unfold strike.
    destruct (negb (hasComponent Knockback t _));
      repeat first [ rewrite get_pushEvent | rewrite get_addComponent
                   | rewrite get_set_other_entity by assumption
                   | rewrite get_set_other_field by congruence ];
      reflexivity.
  - intros e Hn. apply strike_timer_other. intros ->. contradiction.
  - intros e H. unfold strike.
    destruct (negb (hasComponent Knockback t _)) eqn:E; cbn; [|exact H].
    destruct (Nat.eqb t e); [reflexivity|exact H].
  - intros e Hn. unfold strike.
    destruct (negb (hasComponent Knockback t _)); cbn; [|reflexivity].
    destruct (Nat.eqb t e) eqn:E; [|reflexivity].
    apply Nat.eqb_eq in E. subst. contradiction.
Qed.

Lemma combatFrame_processAttacks (attackers targets rest : list entity)
      (w : World) :
  incl rest attackers ->
  combatFrame attackers targets w (processAttacks rest targets w).
Proof.
  revert w. induction rest as [|a rest IH]; intros w Hincl;
    [apply combatFrame_refl|].
  unfold processAttacks in *. cbn [fold_left].
  eapply combatFrame_trans;
    [|apply IH; intros x Hx; apply Hincl; now right].
  rewrite processAttacker_unfold.
  destruct (Qlt_bool 0 _); [apply combatFrame_refl|].
  destruct (firstInRange a targets w) as [t|] eqn:Hf;
    [|apply combatFrame_refl].
  apply combatFrame_strike; [apply Hincl; now left|].
  apply firstInRange_Some in Hf as (_ & _ & before & after & -> & _).
  apply in_or_app. right. now left.
Qed.

(** X4.  What a run of [attackSystem] never does: it creates and removes no
    entity, leaves [world.playerEntities], the dead-entity queue and the
    spawn timer alone, moves nothing (positions and velocities, like every
    store other than [Health.current], the three [Knockback] fields and
    [Attack.timer], are as before), writes the timer of no entity outside
    the attacker query and the health and knockback of no entity outside the
    damageable query, and adds no component other than [Knockback] (which it
    never takes away). *)
Theorem attackSystem_frame (w : World) :
  combatFrame (attackerQuery w) (damageableQuery w) w (attackSystem w).
Proof.
  unfold attackSystem.
  eapply combatFrame_trans; [apply combatFrame_decay|].
  apply combatFrame_processAttacks. apply incl_refl.
Qed.

End AttackFrame.

(** ** Whole runs of [knockbackSystem] *)

Section KnockbackRuns.
Context {M : MathLib}.

Lemma knockbackStep_frame (d : Q) (w : World) (e : entity) :
  let w' := knockbackStep d w e in
  (time w' = time w /\ delta w' = delta w /\ config w' = config w /\
   events w' = events w /\ deadEntities w' = deadEntities w /\
   entitiesToRemove w' = entitiesToRemove w /\
   playerEntities w' = playerEntities w /\ spawnTimer w' = spawnTimer w /\
   entityCursor w' = entityCursor w /\ entities w' = entities w /\
   mask w' = mask w) /\
  forall f e',
    f <> Position_x -> f <> Position_y ->
    f <> Knockback_remaining -> f <> Knockback_force ->
    get f e' w' = get f e' w.
Proof.
  cbv zeta. unfold knockbackStep. split.
  - destruct (Qlt_bool 0 _); repeat split.
  - intros f e' ? ? ? ?.
    destruct (Qlt_bool 0 _);
      repeat (rewrite get_set_other_field by congruence); reflexivity.
Qed.

Lemma knockbackSystem_fold_frame (l : list entity) (d : Q) (w : World) :
  let w' := fold_left (knockbackStep d) l w in
  (time w' = time w /\ delta w' = delta w /\ config w' = config w /\
   events w' = events w /\ deadEntities w' = deadEntities w /\
   entitiesToRemove w' = entitiesToRemove w /\
   playerEntities w' = playerEntities w /\ spawnTimer w' = spawnTimer w /\
   entityCursor w' = entityCursor w /\ entities w' = entities w /\
   mask w' = mask w) /\
  forall f e',
    f <> Position_x -> f <> Position_y ->
    f <> Knockback_remaining -> f <> Knockback_force ->
    get f e' w' = get f e' w.
Proof.
  revert w. induction l as [|e l IH]; intros w; [repeat split|].
  cbn [fold_left]. cbv zeta in *.
  destruct (IH (knockbackStep d w e))
    as ((T&D&C&E&Dd&R&P&S&Cu&En&Ma) & F).
  destruct (knockbackStep_frame d w e)
    as ((T'&D'&C'&E'&Dd'&R'&P'&S'&Cu'&En'&Ma') & F').
  split; [repeat split; congruence|].
  intros f e' ? ? ? ?. rewrite F, F'; auto.
Qed.

(** X5.  What a run of [knockbackSystem] never does: it writes nothing but
    the position and the [remaining] and [force] of [Knockback]; it leaves
    every store of an entity outside the knockback query (the live entities
    with [Position] and [Knockback]) as it is; and it changes no entity, no
    component mask and no event. *)
Theorem knockbackSystem_frame (w : World) :
  let w' := knockbackSystem w in
  (entities w' = entities w /\ mask w' = mask w /\ events w' = events w /\
   playerEntities w' = playerEntities w /\ delta w' = delta w /\
   spawnTimer w' = spawnTimer w) /\
  (forall f e,
      f <> Position_x -> f <> Position_y ->
      f <> Knockback_remaining -> f <> Knockback_force ->
      get f e w' = get f e w) /\
  (forall f e, ~ In e (knockbackQuery w) -> get f e w' = get f e w).
Proof.
  cbv zeta. unfold knockbackSystem.
  destruct (knockbackSystem_fold_frame (knockbackQuery w) (delta w) w)
    as ((T&D&C&E&Dd&R&P&S&Cu&En&Ma) & F).
  split; [repeat split; assumption|]. split; [exact F|].
  intros f e Hn. now apply knockbackSystem_notin.
Qed.

Lemma knockbackStep_direction (d : Q) (w : World) (e e' : entity) :
  get Knockback_direction e' (knockbackStep d w e)
  = get Knockback_direction e' w.
Proof. apply knockbackStep_frame; discriminate. Qed.

Lemma knockbackQuery_knockbackSystem (w : World) :
  knockbackQuery (knockbackSystem w) = knockbackQuery w.
Proof.
  unfold knockbackSystem.
  destruct (knockbackSystem_fold_frame (knockbackQuery w) (delta w) w)
    as ((_&_&_&_&_&_&_&_&_&En&Ma) & _).
  apply defineQuery_ext; [exact En|]. intros e c _. now rewrite Ma.
Qed.

Lemma power_succ (q : Q) (n : nat) : power q (S n) = q * power q n.
Proof. reflexivity. Qed.

Lemma inject_Z_succ (n : nat) :
  inject_Z (Z.of_nat (S n)) == inject_Z (Z.of_nat n) + 1.
Proof. rewrite Nat2Z.inj_succ, <- Z.add_1_r, inject_Z_plus. reflexivity. Qed.

(** X6.  The closed form of a knockback: over [n] runs of
    [knockbackSystem] at a non-negative delta for which [remaining] stays
    positive, [remaining] is down by n * delta, the force is the initial
    force times 0.9^n, the direction is unchanged, and the entity has been
    displaced along (cos, sin)(direction) by
    force * delta * (1 + 0.9 + ... + 0.9^(n-1)) = force * delta * 10 *
    (1 - 0.9^n). *)
Theorem knockbackSystem_runs (n : nat) (w : World) (e : entity) :
  NoDup (entities w) ->
  In e (knockbackQuery w) ->
  0 <= delta w ->
  0 < get Knockback_remaining e w - inject_Z (Z.of_nat n) * delta w ->
  let w' := knockbackRuns n w in
  let force := get Knockback_force e w in
  let direction := get Knockback_direction e w in
  get Knockback_remaining e w'
  == get Knockback_remaining e w - inject_Z (Z.of_nat n) * delta w /\
  get Knockback_force e w' == force * power 0.9 n /\
  get Knockback_direction e w' = direction /\
  get Position_x e w'
  == get Position_x e w
     + Math_cos direction * force * delta w * (10 * (1 - power 0.9 n)) /\
  get Position_y e w'
  == get Position_y e w
     + Math_sin direction * force * delta w * (10 * (1 - power 0.9 n)).
Proof.
  revert w. induction n as [|n IH]; intros w Hnd Hin Hd Hr; cbv zeta.
  - cbn [knockbackRuns power]. change (inject_Z (Z.of_nat 0)) with 0.
    repeat split; try reflexivity; ring.
  - cbn [knockbackRuns]. rewrite inject_Z_succ in Hr.
    assert (Hq : NoDup (knockbackQuery w))
      by now apply (defineQuery_NoDup [Position; Knockback]).
    assert (Hstep : forall f,
               get f e (knockbackSystem w)
               = get f e (knockbackStep (delta w) w e))
      by (intros f; unfold knockbackSystem; now apply knockbackSystem_in).
    destruct (knockbackSystem_fold_frame (knockbackQuery w) (delta w) w)
      as ((_&Dl&_&_&_&_&_&_&_&En&_) & _).
    fold (knockbackSystem w) in Dl, En.
    destruct (knockbackStep_same (delta w) w e) as (Hrem & Hpos & _).
    assert (Hpos1 : 0 < get Knockback_remaining e w - delta w).
    { assert (0 <= inject_Z (Z.of_nat n) * delta w); [|lra].
      apply Qmult_le_0_compat; [|exact Hd].
      change 0 with (inject_Z 0). rewrite <- Zle_Qle. lia. }
    destruct (Hpos Hpos1) as (Hf & Hx & Hy).
    specialize (IH (knockbackSystem w)). cbv zeta in IH.
    rewrite !Hstep, Dl, Hrem, Hf, Hx, Hy, knockbackStep_direction in IH.
    destruct IH as (IHr & IHf & IHd & IHx & IHy).
    + now rewrite En.
    + now rewrite knockbackQuery_knockbackSystem.
    + exact Hd.
    + lra.
    + rewrite inject_Z_succ, power_succ.
      split; [rewrite IHr; ring|]. split; [rewrite IHf; ring|].
      split; [exact IHd|].
      split; [rewrite IHx; ring|rewrite IHy; ring].
Qed.

End KnockbackRuns.

(** The struck target of the scenario, one run of 0.1 s later: 0.1 s of
    knockback left, force 135, 15 further along the x axis. *)
Lemma knockbackSystem_runs_witness :
  let w := knockedBackWorld in
  let e := 1%nat in
  let w' := @knockbackRuns seriesMath 1 w in
  let force := get Knockback_force e w in
  let direction := get Knockback_direction e w in
  NoDup (entities w) /\
  In e (knockbackQuery w) /\
  0 <= delta w /\
  0 < get Knockback_remaining e w - inject_Z (Z.of_nat 1) * delta w /\
  get Knockback_remaining e w'
  == get Knockback_remaining e w - inject_Z (Z.of_nat 1) * delta w /\
  get Knockback_force e w' == force * power 0.9 1 /\
  get Knockback_direction e w' = direction /\
  get Position_x e w'
  == get Position_x e w
     + @Math_cos seriesMath direction * force * delta w
       * (10 * (1 - power 0.9 1)) /\
  get Position_y e w'
  == get Position_y e w
     + @Math_sin seriesMath direction * force * delta w
       * (10 * (1 - power 0.9 1)).
Proof.
  intros w e w' force direction.
  assert (Hnd : NoDup (entities w)) by prove_NoDup.
  assert (Hin : In e (knockbackQuery w)) by (vm_compute; auto).
  assert (Hd : 0 <= delta w) by (vm_compute; discriminate).
  assert (Hr : 0 < get Knockback_remaining e w
                   - inject_Z (Z.of_nat 1) * delta w)
    by (vm_compute; reflexivity).
  split; [exact Hnd|]. split; [exact Hin|]. split; [exact Hd|].
  split; [exact Hr|].
  exact (@knockbackSystem_runs seriesMath 1 w e Hnd Hin Hd Hr).
Defined.

(** ** Whole runs of [healthSystem] *)

Lemma markDead_nothing (l : list entity) (w : World) :
  (forall e, In e l -> Qle_bool (get Health_current e w) 0 = false) ->
  markDead l w = w.
Proof.
  revert w. induction l as [|e l IH]; intros w H; [reflexivity|].
  unfold markDead in *. cbn [fold_left]. rewrite (H e) by now left.
  apply IH. intros x Hx. apply H. now right.
Qed.

(** X7.  [healthSystem] in general: it drains the whole of
    [world.deadEntities], so an entity survives a run exactly when it is
    neither dead (a [Health] carrier at [current <= 0]) nor was queued in
    [world.deadEntities] before the run -- a queued id is removed whatever
    its health.  The run emits no event, writes no component store (the
    health of a removed entity stays readable), and leaves the queue empty.
    On a world with an empty queue and nobody dead it changes nothing at
    all. *)
Theorem healthSystem_drains_queue (w : World) :
  let w' := healthSystem w in
  (forall e,
      In e (entities w') <->
      In e (entities w) /\ isDead e w = false /\ ~ In e (deadEntities w)) /\
  events w' = events w /\
  (forall f e, get f e w' = get f e w) /\
  deadEntities w' = [] /\
  (deadEntities w = [] ->
   (forall e, In e (entities w) -> isDead e w = false) ->
   w' = w).
Proof.
  cbv zeta. split; [|split; [|split; [|split]]].
  - intros e. rewrite healthSystem_entities_gen, filter_In, negb_true_iff,
      orb_false_iff, <- (not_true_iff_false (existsb _ _)), existsb_eqb_In.
    tauto.
  - apply healthSystem_frame.
  - intros f e. unfold get.
    replace (store (healthSystem w)) with (store w)
      by (symmetry; apply healthSystem_frame).
    reflexivity.
  - apply healthSystem_deadEntities.
  - intros Hq Halive. unfold healthSystem.
    rewrite markDead_nothing.
    + rewrite Hq. reflexivity.
    + intros e He. unfold healthQuery in He. apply defineQuery_In in He.
      destruct He as [He Hc]. specialize (Halive e He).
      unfold isDead in Halive. rewrite (Hc Health) in Halive by now left.
      exact Halive.
Qed.

(** A queued id is removed though its health is full: entity 0 of
    [onePlayerWorld], queued by hand. *)
Example healthSystem_removes_queued :
  let w := pushDeadEntity 0%nat onePlayerWorld in
  get Health_current 0%nat w == 100 /\
  entities w = [0%nat] /\ entities (healthSystem w) = [].
Proof. vm_compute. repeat split. Qed.

(** ** Creation *)

Lemma carries_In (cs : list Component) (c : Component) :
  carries cs c = true <-> In c cs.
Proof.
  unfold carries. rewrite existsb_exists. split.
  - intros (c' & Hin & E). destruct (Component_eq_dec c' c); [|discriminate].
    now subst.
  - intros H. exists c. split; [exact H|].
    now destruct (Component_eq_dec c c).
Qed.

Lemma createEnemyMonster_mask (x y type level : Q) (w : World)
      (base : MonsterStats) (c : Component) (e : entity) :
  BASE_MONSTER_STATS type = Some base ->
  hasComponent c e (fst (createEnemyMonster x y type level w))
  = (Nat.eqb (entityCursor w) e && carries enemyComponents c)
    || hasComponent c e w.
Proof.
  intros Hb. unfold createEnemyMonster, addEntity.
  rewrite (calculateMonsterStats_scaled type level base Hb).
  unfold hasComponent. cbn -[Nat.eqb carries].
  destruct (Nat.eqb (entityCursor w) e); [|reflexivity].
  destruct c; reflexivity.
Qed.

Lemma createPlayerMonster_mask (x y type level : Q) (w : World)
      (base : MonsterStats) (c : Component) (e : entity) :
  BASE_MONSTER_STATS type = Some base ->
  hasComponent c e (fst (createPlayerMonster x y type level w))
  = (Nat.eqb (entityCursor w) e && carries playerComponents c)
    || hasComponent c e w.
Proof.
  intros Hb. unfold createPlayerMonster, addEntity.
  rewrite (calculateMonsterStats_scaled type level base Hb).
  unfold hasComponent. cbn -[Nat.eqb carries].
  destruct (Nat.eqb (entityCursor w) e); [|reflexivity].
  destruct c; reflexivity.
Qed.

Lemma get_addEntity (f : Field) (e : entity) (w : World) :
  get f e (fst (addEntity w)) = get f e w.
Proof. reflexivity. Qed.

Lemma createEnemyMonster_frame (x y type level : Q) (w : World) :
  creationFrame (entityCursor w) w (fst (createEnemyMonster x y type level w)).
Proof.
  unfold createEnemyMonster, addEntity, creationFrame.
  destruct (calculateMonsterStats type level) as [stats|]; cbn [fst].
  - repeat split.
    + intros f e' Hn. assert (entityCursor w <> e') by congruence.
      now get_simpl.
    + intros c e' Hn. unfold hasComponent. cbn -[Nat.eqb].
      assert (E : Nat.eqb (entityCursor w) e' = false)
        by (apply Nat.eqb_neq; congruence).
      now rewrite E.
  - repeat split.
Qed.

Lemma createPlayerMonster_frame (x y type level : Q) (w : World) :
  creationFrame (entityCursor w) w (fst (createPlayerMonster x y type level w)).
Proof.
  unfold createPlayerMonster, addEntity, creationFrame.
  destruct (calculateMonsterStats type level) as [stats|]; cbn [fst].
  - repeat split.
    + intros f e' Hn. assert (entityCursor w <> e') by congruence.
      now get_simpl.
    + intros c e' Hn. unfold hasComponent. cbn -[Nat.eqb].
      assert (E : Nat.eqb (entityCursor w) e' = false)
        by (apply Nat.eqb_neq; congruence).
      now rewrite E.
  - repeat split.
Qed.



(** ** The invariant of the world *)

Lemma worldInvariant_createWorld (c : GameConfig) :
  worldInvariant (createWorld c).
Proof.
  unfold worldInvariant. split; [apply wellFormed_createWorld|].
  repeat split; try discriminate; intros; try discriminate; contradiction.
Qed.

Lemma worldInvariant_fresh (w : World) (c : Component) :
  worldInvariant w -> hasComponent c (entityCursor w) w = false.
Proof.
  intros ([_ Hlt] & Hlive & _). apply not_true_is_false. intros H.
  apply Hlive in H. rewrite Forall_forall in Hlt. specialize (Hlt _ H). lia.
Qed.

(** The invariant across the addition of one entity with the components
    [added]. *)
Lemma worldInvariant_creation (w w' : World) (added : list Component)
      (listed : bool) :
  worldInvariant w ->
  creationFrame (entityCursor w) w w' ->
  (forall c, hasComponent c (entityCursor w) w'
             = carries added c || hasComponent c (entityCursor w) w) ->
  playerEntities w'
  = (if listed then playerEntities w ++ [entityCursor w]
     else playerEntities w) ->
  (carries added Monster = true ->
   carries added Position = true /\ carries added Health = true /\
   carries added PlayerControlled = negb (carries added Enemy)) ->
  (carries added PlayerControlled = true -> listed = true) ->
  (carries added Mergeable = true ->
   get Mergeable_canMerge (entityCursor w) w' == 1 ->
   carries added PlayerControlled = true) ->
  worldInvariant w'.
Proof.
  intros Hinv (He & Hc & _ & _ & _ & _ & _ & _ & Hget & Hmask)
         Hnew Hpl Hmon Hlist Hmerge.
  assert (Hfresh : forall c, hasComponent c (entityCursor w) w = false)
    by (intros c; now apply worldInvariant_fresh).
  assert (Hnew' : forall c, hasComponent c (entityCursor w) w' = carries added c)
    by (intros c; now rewrite Hnew, Hfresh, orb_false_r).
  destruct Hinv as ([Hnd Hlt] & Hlive & Hissued & Htag & Hm & Hcm).
  rewrite Forall_forall in Hlt.
  unfold worldInvariant, wellFormed. rewrite He, Hc.
  split; [split|split; [|split; [|split; [|split]]]].
  - apply NoDup_app; [exact Hnd|repeat constructor; intros []|].
    intros e Hin [<-|[]]. specialize (Hlt _ Hin). lia.
  - apply Forall_app. split; [|repeat constructor].
    apply Forall_forall. intros e Hin. specialize (Hlt _ Hin). lia.
  - intros c e H. apply in_or_app.
    destruct (Nat.eq_dec e (entityCursor w)) as [->|N]; [right; now left|].
    left. rewrite Hmask in H by exact N. now apply (Hlive c).
  - intros e H. rewrite Hpl in H. destruct listed.
    + apply in_app_or in H as [H|[<-|[]]]; [|lia].
      specialize (Hissued _ H). lia.
    + specialize (Hissued _ H). lia.
  - intros e H. rewrite Hpl.
    destruct (Nat.eq_dec e (entityCursor w)) as [->|N].
    + rewrite Hnew' in H. rewrite (Hlist H). apply in_or_app. right. now left.
    + rewrite Hmask in H by exact N. apply Htag in H.
      destruct listed; [apply in_or_app; now left|exact H].
  - intros e H.
    destruct (Nat.eq_dec e (entityCursor w)) as [->|N].
    + rewrite !Hnew' in *. now apply Hmon.
    + rewrite !Hmask in * by exact N. now apply Hm.
  - intros e H Hv.
    destruct (Nat.eq_dec e (entityCursor w)) as [->|N].
    + rewrite !Hnew' in *. now apply Hmerge.
    + rewrite !Hmask in * by exact N. rewrite Hget in Hv by exact N.
      now apply Hcm.
Qed.

Lemma createPlayerMonster_playerEntities (x y type level : Q) (w : World) :
  playerEntities (fst (createPlayerMonster x y type level w))
  = match BASE_MONSTER_STATS type with
    | Some _ => playerEntities w ++ [entityCursor w]
    | None => playerEntities w
    end.
Proof.
  unfold createPlayerMonster, addEntity, calculateMonsterStats.
  destruct (BASE_MONSTER_STATS type); reflexivity.
Qed.

Lemma createEnemyMonster_playerEntities (x y type level : Q) (w : World) :
  playerEntities (fst (createEnemyMonster x y type level w))
  = playerEntities w.
Proof.
  unfold createEnemyMonster, addEntity, calculateMonsterStats.
  destruct (BASE_MONSTER_STATS type); reflexivity.
Qed.

Lemma createPlayerMonster_failed_mask (type level : Q) (x y : Q) (w : World)
      (c : Component) (e : entity) :
  BASE_MONSTER_STATS type = None ->
  hasComponent c e (fst (createPlayerMonster x y type level w))
  = hasComponent c e w.
Proof.
  intros Hb. unfold createPlayerMonster, addEntity, calculateMonsterStats.
  rewrite Hb. reflexivity.
Qed.

Lemma createEnemyMonster_failed_mask (type level : Q) (x y : Q) (w : World)
      (c : Component) (e : entity) :
  BASE_MONSTER_STATS type = None ->
  hasComponent c e (fst (createEnemyMonster x y type level w))
  = hasComponent c e w.
Proof.
  intros Hb. unfold createEnemyMonster, addEntity, calculateMonsterStats.
  rewrite Hb. reflexivity.
Qed.

Lemma worldInvariant_createPlayerMonster (x y type level : Q) (w : World) :
  worldInvariant w ->
  worldInvariant (fst (createPlayerMonster x y type level w)).
Proof.
  intros Hinv. destruct (BASE_MONSTER_STATS type) as [base|] eqn:Hb.
  - apply (worldInvariant_creation w _ playerComponents true Hinv).
    + apply createPlayerMonster_frame.
    + intros c. rewrite (createPlayerMonster_mask x y type level w base c _ Hb).
      rewrite Nat.eqb_refl. reflexivity.
    + rewrite createPlayerMonster_playerEntities, Hb. reflexivity.
    + intros _. repeat split.
    + reflexivity.
    + reflexivity.
  - apply (worldInvariant_creation w _ [] false Hinv).
    + apply createPlayerMonster_frame.
    + intros c. rewrite (createPlayerMonster_failed_mask type level x y w c _ Hb).
      reflexivity.
    + rewrite createPlayerMonster_playerEntities, Hb. reflexivity.
    + discriminate.
    + discriminate.
    + discriminate.
Qed.

Lemma createEnemyMonster_canMerge (x y type level : Q) (w : World)
      (base : MonsterStats) :
  BASE_MONSTER_STATS type = Some base ->
  get Mergeable_canMerge (entityCursor w)
      (fst (createEnemyMonster x y type level w)) = 0.
Proof.
  intros Hb. unfold createEnemyMonster, addEntity.
  rewrite (calculateMonsterStats_scaled type level base Hb). cbn [fst].
  now get_simpl.
Qed.

Lemma worldInvariant_createEnemyMonster (x y type level : Q) (w : World) :
  worldInvariant w ->
  worldInvariant (fst (createEnemyMonster x y type level w)).
Proof.
  intros Hinv. destruct (BASE_MONSTER_STATS type) as [base|] eqn:Hb.
  - apply (worldInvariant_creation w _ enemyComponents false Hinv).
    + apply createEnemyMonster_frame.
    + intros c. rewrite (createEnemyMonster_mask x y type level w base c _ Hb).
      rewrite Nat.eqb_refl. reflexivity.
    + apply createEnemyMonster_playerEntities.
    + intros _. repeat split.
    + discriminate.
    + intros _ H.
      rewrite (createEnemyMonster_canMerge x y type level w base Hb) in H.
      discriminate H.
  - apply (worldInvariant_creation w _ [] false Hinv).
    + apply createEnemyMonster_frame.
    + intros c. rewrite (createEnemyMonster_failed_mask type level x y w c _ Hb).
      reflexivity.
    + apply createEnemyMonster_playerEntities.
    + discriminate.
    + discriminate.
    + discriminate.
Qed.

(** The invariant across a step that keeps the entities and
    [world.playerEntities], writes no [canMerge], and adds at most
    [Knockback], and that to live entities only. *)
Lemma worldInvariant_step (w w' : World) :
  worldInvariant w ->
  entities w' = entities w -> entityCursor w' = entityCursor w ->
  playerEntities w' = playerEntities w ->
  (forall e, get Mergeable_canMerge e w' = get Mergeable_canMerge e w) ->
  (forall e c, c <> Knockback -> mask w' e c = mask w e c) ->
  (forall e, mask w' e Knockback = true -> In e (entities w)) ->
  worldInvariant w'.
Proof.
  intros (Hwf & Hlive & Hissued & Htag & Hm & Hcm) He Hc Hp Hcan Hmask Hk.
  unfold worldInvariant, wellFormed, hasComponent in *.
  rewrite He, Hc, Hp.
  split; [exact Hwf|]. split; [|split; [exact Hissued|split; [|split]]].
  - intros c e H. destruct (Component_eq_dec c Knockback) as [->|N].
    + now apply Hk.
    + rewrite Hmask in H by exact N. now apply (Hlive c).
  - intros e H. rewrite Hmask in H by discriminate. now apply Htag.
  - intros e H. rewrite !Hmask in * by discriminate. now apply Hm.
  - intros e H Hv. rewrite !Hmask in * by discriminate.
    rewrite Hcan in Hv. now apply Hcm.
Qed.

Lemma healthSystem_mask_false (w : World) (e : entity) (c : Component) :
  mask w e c = false -> mask (healthSystem w) e c = false.
Proof.
  intros H. rewrite healthSystem_unfold. cbv zeta.
  now apply drainDead_mask_false.
Qed.

Lemma worldInvariant_healthSystem (w : World) :
  worldInvariant w -> worldInvariant (healthSystem w).
Proof.
  intros (Hwf & Hlive & Hissued & Htag & Hm & Hcm).
  assert (Hkeep : forall c e,
             hasComponent c e (healthSystem w) = true ->
             In e (entities (healthSystem w))
             /\ hasComponent c e w = true).
  { intros c e H.
    destruct (in_dec Nat.eq_dec e (entities (healthSystem w))) as [Hin|Hn].
    - split; [exact Hin|]. now rewrite <- (healthSystem_mask_survivor w e c).
    - exfalso. destruct (in_dec Nat.eq_dec e (entities w)) as [Hw|Hw].
      + rewrite (healthSystem_mask_removed w e c Hw Hn) in H. discriminate.
      + destruct (hasComponent c e w) eqn:E; [apply Hlive in E; contradiction|].
        unfold hasComponent in *.
        rewrite (healthSystem_mask_false w e c E) in H. discriminate. }
  assert (Hsame : forall c e,
             In e (entities (healthSystem w)) ->
             hasComponent c e (healthSystem w) = hasComponent c e w)
    by (intros; now apply healthSystem_mask_survivor).
  destruct (healthSystem_frame w) as (_&_&_&_&_&Hp&_&Hc&Hs).
  unfold worldInvariant. rewrite Hp.
  split; [now apply wellFormed_healthSystem|].
  split; [|split; [|split; [|split]]].
  - intros c e H. now apply (Hkeep c).
  - intros e H. rewrite Hc. now apply Hissued.
  - intros e H. apply Htag. now apply Hkeep.
  - intros e H. destruct (Hkeep _ _ H) as [Hin H'].
    rewrite !Hsame by exact Hin. now apply Hm.
  - intros e H Hv. destruct (Hkeep _ _ H) as [Hin H'].
    rewrite Hsame by exact Hin. apply Hcm; [exact H'|].
    unfold get in *. now rewrite <- Hs.
Qed.

Lemma worldInvariant_spawnSystem (rolls : SpawnRolls) (w : World) :
  worldInvariant w -> worldInvariant (fst (spawnSystem rolls w)).
Proof.
  intros H. unfold spawnSystem. cbn [spawnTimer set_spawnTimer].
  destruct (Qle_bool _ 0); [|exact H]. cbv zeta.
  match goal with
  | |- context [let (_, _) := ?p in _] => destruct p as [x y]
  end.
  match goal with
  | |- context [createEnemyMonster ?x ?y ?t ?l ?v] =>
      pose proof (worldInvariant_createEnemyMonster x y t l v H) as Hinv;
      destruct (createEnemyMonster x y t l v) as [w' [e|]]
  end; exact Hinv.
Qed.

Lemma worldInvariant_movePlayerMonster (e : entity) (vx vy : Q) (w : World) :
  worldInvariant w -> worldInvariant (Game_movePlayerMonster e vx vy w).
Proof.
  intros H. unfold Game_movePlayerMonster.
  destruct (existsb _ _); [|exact H].
  apply (worldInvariant_step w).
  - exact H.
  - reflexivity.
  - reflexivity.
  - reflexivity.
  - intros e'. rewrite !get_set_other_field by discriminate. reflexivity.
  - reflexivity.
  - intros e' Hk. destruct H as (_ & Hlive & _). now apply (Hlive Knockback).
Qed.

Section InvariantOfTheSystems.
Context {M : MathLib}.

Lemma worldInvariant_attackSystem (w : World) :
  worldInvariant w -> worldInvariant (attackSystem w).
Proof.
  intros H.
  assert (Hframe : combatFrame (attackerQuery w) (damageableQuery w) w
                               (attackSystem w)).
  { unfold attackSystem.
    eapply combatFrame_trans; [apply combatFrame_decay|].
    apply combatFrame_processAttacks. apply incl_refl. }
  destruct Hframe as ((He&Hc&Hp&_) & Hf & _ & _ & Hm & _ & Hk).
  apply (worldInvariant_step w); try assumption.
  - intros e. apply Hf; discriminate.
  - intros e Hmask.
    destruct (in_dec Nat.eq_dec e (damageableQuery w)) as [Hin|Hn].
    + unfold damageableQuery in Hin. now apply defineQuery_In in Hin.
    + rewrite Hk in Hmask by exact Hn.
      destruct H as (_ & Hlive & _). now apply (Hlive Knockback).
Qed.

Lemma worldInvariant_knockbackSystem (w : World) :
  worldInvariant w -> worldInvariant (knockbackSystem w).
Proof.
  intros H.
  destruct (knockbackSystem_fold_frame (knockbackQuery w) (delta w) w)
    as ((_&_&_&_&_&_&Hp&_&Hc&He&Hm) & Hf).
  fold (knockbackSystem w) in Hp, Hc, He, Hm, Hf.
  apply (worldInvariant_step w).
  - exact H.
  - exact He.
  - exact Hc.
  - exact Hp.
  - intros e. apply Hf; discriminate.
  - intros e c _. now rewrite Hm.
  - intros e Hk. rewrite Hm in Hk.
    destruct H as (_ & Hlive & _). now apply (Hlive Knockback).
Qed.

(** X9.  The invariant of the world is established by the constructor's
    empty world and kept by everything the code at hand does to a world:
    both creation functions (also when they end in the [TypeError]),
    [spawnSystem], [attackSystem], [knockbackSystem], [healthSystem] and
    [Game.movePlayerMonster].  In every world so reached no id is listed
    twice, only live entities carry components, every entity tagged
    [PlayerControlled] is listed in [world.playerEntities], every monster has
    a position, a health and exactly one of the two faction tags, and only
    player-controlled entities can merge. *)
Theorem worldInvariant_kept :
  (forall c, worldInvariant (createWorld c)) /\
  (forall x y type level w,
      worldInvariant w ->
      worldInvariant (fst (createPlayerMonster x y type level w))) /\
  (forall x y type level w,
      worldInvariant w ->
      worldInvariant (fst (createEnemyMonster x y type level w))) /\
  (forall rolls w,
      worldInvariant w -> worldInvariant (fst (spawnSystem rolls w))) /\
  (forall w, worldInvariant w -> worldInvariant (attackSystem w)) /\
  (forall w, worldInvariant w -> worldInvariant (knockbackSystem w)) /\
  (forall w, worldInvariant w -> worldInvariant (healthSystem w)) /\
  (forall e vx vy w,
      worldInvariant w -> worldInvariant (Game_movePlayerMonster e vx vy w)).
Proof.
  split; [exact worldInvariant_createWorld|].
  split; [exact worldInvariant_createPlayerMonster|].
  split; [exact worldInvariant_createEnemyMonster|].
  split; [exact worldInvariant_spawnSystem|].
  split; [exact worldInvariant_attackSystem|].
  split; [exact worldInvariant_knockbackSystem|].
  split; [exact worldInvariant_healthSystem|].
  exact worldInvariant_movePlayerMonster.
Qed.

End InvariantOfTheSystems.

(** X10.  The postcondition of [createPlayerMonster] for a type among the
    four, beyond what C9 records: the new entity carries exactly the ten
    components of a player monster besides what its id carried before; it
    stands at (x, y) at rest, with a cooldown of 1 s and a timer of 0 (ready
    to strike at once), an attack range of 1.5 times its collider radius and
    [canMerge] 1; its id is the last of [world.playerEntities]; and no store
    or component of any other entity is touched. *)
Theorem createPlayerMonster_postcondition (x y type level : Q) (w : World)
        (base : MonsterStats) :
  BASE_MONSTER_STATS type = Some base ->
  let e := entityCursor w in
  let r := createPlayerMonster x y type level w in
  snd r = Return e /\
  (forall c, hasComponent c e (fst r)
             = carries playerComponents c || hasComponent c e w) /\
  (get Position_x e (fst r) = x /\ get Position_y e (fst r) = y /\
   get Velocity_x e (fst r) = 0 /\ get Velocity_y e (fst r) = 0) /\
  (get Attack_timer e (fst r) = 0 /\
   get Attack_cooldown e (fst r) == 1 /\
   get Attack_range e (fst r) = get Collider_radius e (fst r) * 1.5) /\
  get Mergeable_canMerge e (fst r) = 1 /\
  playerEntities (fst r) = playerEntities w ++ [e] /\
  creationFrame e w (fst r).
Proof.
  intros Hb. cbv zeta.
  split; [|split; [|split; [|split; [|split; [|split]]]]].
  - unfold createPlayerMonster, addEntity.
    now rewrite (calculateMonsterStats_scaled type level base Hb).
  - intros c. rewrite (createPlayerMonster_mask x y type level w base c _ Hb).
    rewrite Nat.eqb_refl. reflexivity.
  - unfold createPlayerMonster, addEntity.
    rewrite (calculateMonsterStats_scaled type level base Hb). cbn [fst].
    repeat split; now get_simpl.
  - unfold createPlayerMonster, addEntity.
    rewrite (calculateMonsterStats_scaled type level base Hb). cbn [fst].
    repeat split; now get_simpl.
  - unfold createPlayerMonster, addEntity.
    rewrite (calculateMonsterStats_scaled type level base Hb). cbn [fst].
    now get_simpl.
  - rewrite createPlayerMonster_playerEntities, Hb. reflexivity.
  - apply createPlayerMonster_frame.
Qed.

Lemma createPlayerMonster_postcondition_witness :
  let w := onePlayerWorld in
  let x := 420 in
  let y := 300 in
  let type := MonsterType.WATER in
  let level := 1 in
  let base := mkStats 120 10 10 100 25 in
  let e := entityCursor w in
  let r := createPlayerMonster x y type level w in
  BASE_MONSTER_STATS type = Some base /\
  snd r = Return e /\
  (forall c, hasComponent c e (fst r)
             = carries playerComponents c || hasComponent c e w) /\
  (get Position_x e (fst r) = x /\ get Position_y e (fst r) = y /\
   get Velocity_x e (fst r) = 0 /\ get Velocity_y e (fst r) = 0) /\
  (get Attack_timer e (fst r) = 0 /\
   get Attack_cooldown e (fst r) == 1 /\
   get Attack_range e (fst r) = get Collider_radius e (fst r) * 1.5) /\
  get Mergeable_canMerge e (fst r) = 1 /\
  playerEntities (fst r) = playerEntities w ++ [e] /\
  creationFrame e w (fst r).
Proof.
  intros w x y type level base e r.
  assert (Hb : BASE_MONSTER_STATS type = Some base) by reflexivity.
  split; [exact Hb|].
  exact (createPlayerMonster_postcondition x y type level w base Hb).
Defined.

(** ** Health stays within its maximum *)

Lemma scaledStats_base_le (base : MonsterStats) (level : Q) :
  stats_nonneg base -> 1 <= level ->
  stats_le base (scaledStats base level).
Proof.
  intros Hn Hl.
  assert (E : scaledStats base 1 = base).
  { destruct base as [h a d s r]. unfold scaledStats. cbn [health attack defense speed radius].
    f_equal; rewrite <- (Qfloor_Z h) at 2 || rewrite <- (Qfloor_Z a) at 2
             || rewrite <- (Qfloor_Z d) at 2 || rewrite <- (Qfloor_Z s) at 2
             || rewrite <- (Qfloor_Z r) at 2;
      apply Qfloor_comp; ring. }
  rewrite <- E at 1. now apply scaledStats_mono.
Qed.

Lemma healthBounded_createWorld (c : GameConfig) :
  healthBounded (createWorld c).
Proof. split; intros e; unfold get; simpl; lra. Qed.

Lemma scaledStats_attack_nonneg (type level : Q) (base : MonsterStats) :
  BASE_MONSTER_STATS type = Some base -> 1 <= level ->
  0 <= inject_Z (attack (scaledStats base level)).
Proof.
  intros Hb Hl. apply inject_Z_nonneg.
  pose proof (BASE_MONSTER_STATS_nonneg type base Hb) as Hn.
  destruct (scaledStats_base_le base level Hn Hl) as (_ & Ha & _).
  destruct Hn as (_ & Ha0 & _). lia.
Qed.

Lemma healthBounded_createPlayerMonster (x y type level : Q) (w : World) :
  1 <= level -> healthBounded w ->
  healthBounded (fst (createPlayerMonster x y type level w)).
Proof.
  intros Hl [Hd Hh].
  destruct (BASE_MONSTER_STATS type) as [base|] eqn:Hb.
  - pose proof (scaledStats_attack_nonneg type level base Hb Hl) as Ha.
    unfold createPlayerMonster, addEntity.
    rewrite (calculateMonsterStats_scaled type level base Hb). cbn [fst].
    split; intros e; destruct (Nat.eq_dec (entityCursor w) e) as [<-|N].
    + now get_simpl.
    + get_simpl. apply Hd.
    + get_simpl. apply Qle_refl.
    + get_simpl. apply Hh.
  - unfold createPlayerMonster, addEntity, calculateMonsterStats.
    rewrite Hb. split; [exact Hd|exact Hh].
Qed.

Lemma healthBounded_createEnemyMonster (x y type level : Q) (w : World) :
  1 <= level -> healthBounded w ->
  healthBounded (fst (createEnemyMonster x y type level w)).
Proof.
  intros Hl [Hd Hh].
  destruct (BASE_MONSTER_STATS type) as [base|] eqn:Hb.
  - pose proof (scaledStats_attack_nonneg type level base Hb Hl) as Ha.
    unfold createEnemyMonster, addEntity.
    rewrite (calculateMonsterStats_scaled type level base Hb). cbn [fst].
    split; intros e; destruct (Nat.eq_dec (entityCursor w) e) as [<-|N].
    + now get_simpl.
    + get_simpl. apply Hd.
    + get_simpl. apply Qle_refl.
    + get_simpl. apply Hh.
  - unfold createEnemyMonster, addEntity, calculateMonsterStats.
    rewrite Hb. split; [exact Hd|exact Hh].
Qed.

Lemma healthBounded_spawnSystem (rolls : SpawnRolls) (w : World) :
  healthBounded w -> healthBounded (fst (spawnSystem rolls w)).
Proof.
  intros H. unfold spawnSystem. cbn [spawnTimer set_spawnTimer].
  destruct (Qle_bool _ 0); [|exact H]. cbv zeta.
  match goal with
  | |- context [let (_, _) := ?p in _] => destruct p as [x y]
  end.
  match goal with
  | |- context [createEnemyMonster ?x ?y ?t ?l ?v] =>
      assert (Hl : 1 <= l)
        by (destruct (Qlt_bool 0.95 _); [discriminate|];
            destruct (Qlt_bool 0.8 _); discriminate);
      pose proof (healthBounded_createEnemyMonster x y t l v Hl H) as Hinv;
      destruct (createEnemyMonster x y t l v) as [w' [e|]]
  end; exact Hinv.
Qed.

Section HealthBoundedSystems.
Context {M : MathLib}.

Lemma processAttacks_health_le (attackers targets : list entity) (w : World) :
  (forall e, 0 <= get Attack_damage e w) ->
  (forall e, 0 <= get Attack_damage e (processAttacks attackers targets w)) /\
  forall t, get Health_current t (processAttacks attackers targets w)
            <= get Health_current t w.
Proof.
  revert w. induction attackers as [|a rest IH]; intros w Hd.
  - split; [exact Hd|]. intros t. apply Qle_refl.
  - unfold processAttacks in *. cbn [fold_left].
    assert (Hd' : forall e, 0 <= get Attack_damage e (processAttacker targets w a)).
    { intros e. rewrite processAttacker_unfold.
      destruct (Qlt_bool 0 _); [apply Hd|].
      destruct (firstInRange a targets w); [|apply Hd].
      rewrite strike_other_field by discriminate. apply Hd. }
    destruct (IH _ Hd') as [IHd IHh]. split; [exact IHd|].
    intros t. eapply Qle_trans; [apply IHh|].
    rewrite processAttacker_health.
    assert (0 <= damageTo t (attackEvent targets w a)); [|lra].
    unfold attackEvent. destruct (Qlt_bool 0 _); [simpl; lra|].
    destruct (firstInRange a targets w) as [t'|]; [|simpl; lra].
    cbn [damageTo]. specialize (Hd a). destruct (Nat.eqb t' t); lra.
Qed.

Lemma healthBounded_attackSystem (w : World) :
  healthBounded w -> healthBounded (attackSystem w).
Proof.
  intros [Hd Hh]. unfold attackSystem.
  destruct (decayCooldowns_frame (attackerQuery w) (delta w) w)
    as (_&_&_&_&_&_&_&_&_&_&_&Hs).
  destruct (processAttacks_health_le (attackerQuery w) (damageableQuery w)
              (decayCooldowns (attackerQuery w) (delta w) w)) as [Hd' Hh'].
  { intros e. rewrite Hs by discriminate. apply Hd. }
  split; [exact Hd'|]. intros e.
  eapply Qle_trans; [apply Hh'|]. rewrite Hs by discriminate.
  eapply Qle_trans; [apply Hh|].
  assert (Hframe : combatFrame (attackerQuery w) (damageableQuery w) w
                               (attackSystem w)).
  { unfold attackSystem.
    eapply combatFrame_trans; [apply combatFrame_decay|].
    apply combatFrame_processAttacks. apply incl_refl. }
  destruct Hframe as (_ & Hf & _).
  unfold attackSystem in Hf. rewrite Hf by discriminate. apply Qle_refl.
Qed.

Lemma healthBounded_knockbackSystem (w : World) :
  healthBounded w -> healthBounded (knockbackSystem w).
Proof.
  intros [Hd Hh]. unfold knockbackSystem.
  destruct (knockbackSystem_fold_frame (knockbackQuery w) (delta w) w)
    as (_ & Hf).
  split; intros e; rewrite !Hf by discriminate; auto.
Qed.

End HealthBoundedSystems.

Lemma healthBounded_healthSystem (w : World) :
  healthBounded w -> healthBounded (healthSystem w).
Proof.
  intros [Hd Hh].
  assert (Hs : store (healthSystem w) = store w) by apply healthSystem_frame.
  unfold healthBounded, get. rewrite Hs. split; [exact Hd|exact Hh].
Qed.

Lemma healthBounded_movePlayerMonster (e : entity) (vx vy : Q) (w : World) :
  healthBounded w -> healthBounded (Game_movePlayerMonster e vx vy w).
Proof.
  intros [Hd Hh]. unfold Game_movePlayerMonster.
  destruct (existsb _ _); [|split; assumption].
  split; intros e'; rewrite !get_set_other_field by discriminate; auto.
Qed.

Section HealthBoundedKept.
Context {M : MathLib}.

(** X11.  Health stays within its maximum.  Starting from the constructor's
    empty world, as long as monsters are created at a level of at least 1,
    everything the code at hand does keeps two facts: no attacker has
    negative damage, and no entity has more [Health.current] than
    [Health.max] -- creation sets the two equal, [attackSystem] only lowers
    the current health, and nothing else writes either. *)
Theorem healthBounded_kept :
  (forall c, healthBounded (createWorld c)) /\
  (forall x y type level w,
      1 <= level -> healthBounded w ->
      healthBounded (fst (createPlayerMonster x y type level w))) /\
  (forall x y type level w,
      1 <= level -> healthBounded w ->
      healthBounded (fst (createEnemyMonster x y type level w))) /\
  (forall rolls w,
      healthBounded w -> healthBounded (fst (spawnSystem rolls w))) /\
  (forall w, healthBounded w -> healthBounded (attackSystem w)) /\
  (forall w, healthBounded w -> healthBounded (knockbackSystem w)) /\
  (forall w, healthBounded w -> healthBounded (healthSystem w)) /\
  (forall e vx vy w,
      healthBounded w -> healthBounded (Game_movePlayerMonster e vx vy w)).
Proof.
  split; [exact healthBounded_createWorld|].
  split; [exact healthBounded_createPlayerMonster|].
  split; [exact healthBounded_createEnemyMonster|].
  split; [exact healthBounded_spawnSystem|].
  split; [exact healthBounded_attackSystem|].
  split; [exact healthBounded_knockbackSystem|].
  split; [exact healthBounded_healthSystem|].
  exact healthBounded_movePlayerMonster.
Qed.

End HealthBoundedKept.

(** With a negative level the first fact fails, and with it the second: a
    FIRE monster of level -3 has -3 damage, and its strike lifts a WATER
    monster 5 away from 120 health, its maximum, to 123. *)
Example healthBounded_negative_level :
  let w := createWorld DEFAULT_CONFIG
           |> (fun w => fst (createPlayerMonster 400 300 MonsterType.FIRE (-3) w))
           |> (fun w => fst (createPlayerMonster 405 300 MonsterType.WATER 1 w)) in
  get Attack_damage 0%nat w == -3 /\
  get Health_max 1%nat w == 120 /\
  get Health_current 1%nat (@attackSystem seriesMath w) == 123.
Proof. vm_compute. repeat split. Qed.

(** ** Levels *)

Lemma scaledStats_level_1 (base : MonsterStats) : scaledStats base 1 = base.
Proof.
  destruct base as [h a d s r]. unfold scaledStats.
  cbn [health attack defense speed radius].
  f_equal;
    match goal with
    | |- Qfloor _ = ?z => rewrite <- (Qfloor_Z z) at 2
    end; apply Qfloor_comp; ring.
Qed.

Lemma BASE_MONSTER_STATS_positive (type : Q) (base : MonsterStats) :
  BASE_MONSTER_STATS type = Some base ->
  (0 < health base)%Z /\ (0 < attack base)%Z /\ (0 < defense base)%Z /\
  (0 < speed base)%Z /\ (0 < radius base)%Z.
Proof.
  unfold BASE_MONSTER_STATS.
  repeat destruct (Qeq_bool type _); intros E; inversion E; simpl; lia.
Qed.



(** ** Creation, then the health system *)

Lemma createPlayerMonster_health (x y type level : Q) (w : World)
      (base : MonsterStats) :
  BASE_MONSTER_STATS type = Some base ->
  get Health_current (entityCursor w)
      (fst (createPlayerMonster x y type level w))
  = inject_Z (health (scaledStats base level)).
Proof.
  intros Hb. unfold createPlayerMonster, addEntity.
  rewrite (calculateMonsterStats_scaled type level base Hb). cbn [fst].
  now get_simpl.
Qed.

Lemma createEnemyMonster_health (x y type level : Q) (w : World)
      (base : MonsterStats) :
  BASE_MONSTER_STATS type = Some base ->
  get Health_current (entityCursor w)
      (fst (createEnemyMonster x y type level w))
  = inject_Z (health (scaledStats base level)).
Proof.
  intros Hb. unfold createEnemyMonster, addEntity.
  rewrite (calculateMonsterStats_scaled type level base Hb). cbn [fst].
  now get_simpl.
Qed.

Lemma deadEntities_createPlayerMonster_nil (x y type level : Q) (w : World) :
  deadEntities w = [] ->
  deadEntities (fst (createPlayerMonster x y type level w)) = [].
Proof. intros H. now rewrite deadEntities_createPlayerMonster. Qed.

Lemma created_survives_iff (w' : World) (e : entity) (h : Z) :
  deadEntities w' = [] ->
  In e (entities w') ->
  hasComponent Health e w' = true ->
  get Health_current e w' = inject_Z h ->
  (In e (entities (healthSystem w')) <-> (0 < h)%Z).
Proof.
  intros Hq Hin Hc Hh.
  rewrite (healthSystem_entities w' Hq), filter_In, negb_true_iff.
  unfold isDead. rewrite Hc, Hh. cbn [andb].
  rewrite <- not_true_iff_false, Qle_bool_iff.
  change 0 with (inject_Z 0). rewrite <- Zle_Qle. split; [lia|].
  intros H. split; [exact Hin|lia].
Qed.

Lemma scaledStats_health_nonpos (base : MonsterStats) (level : Q) :
  stats_nonneg base -> level <= -1 ->
  (health (scaledStats base level) <= 0)%Z.
Proof.
  intros (Hh & _) Hl. unfold scaledStats. cbn [health].
  change 0%Z with (Qfloor 0). apply Qfloor_resp_le.
  assert (0 <= inject_Z (health base)) by now apply inject_Z_nonneg.
  assert (E : inject_Z (health base) * (1 + (level - 1) * (5 # 10))
              == - (inject_Z (health base) * ((- level - 1) * (5 # 10))))
    by ring.
  rewrite E.
  assert (0 <= inject_Z (health base) * ((- level - 1) * (5 # 10))); [|lra].
  apply Qmult_le_0_compat; [assumption|]. lra.
Qed.

(** X13.  Creation composed with the health system, for a type among the
    four and an empty dead-entity queue: the run of [healthSystem] that
    follows [createPlayerMonster] or [createEnemyMonster] keeps the new
    entity exactly when its scaled health is positive.  So a monster created
    at a level of at least 1 survives, and one created at a level of -1 or
    less (zero or negative health) is removed in the frame it is created
    in -- and, for a player monster, its id stays in
    [world.playerEntities]. *)
Theorem created_monster_faces_healthSystem (x y type level : Q) (w : World)
        (base : MonsterStats) :
  BASE_MONSTER_STATS type = Some base ->
  deadEntities w = [] ->
  let e := entityCursor w in
  let wp := healthSystem (fst (createPlayerMonster x y type level w)) in
  let we := healthSystem (fst (createEnemyMonster x y type level w)) in
  (In e (entities wp) <-> (0 < health (scaledStats base level))%Z) /\
  (In e (entities we) <-> (0 < health (scaledStats base level))%Z) /\
  (1 <= level -> In e (entities wp) /\ In e (entities we)) /\
  (level <= -1 ->
   ~ In e (entities wp) /\ ~ In e (entities we) /\ In e (playerEntities wp)).
Proof.
  intros Hb Hq. cbv zeta.
  assert (Hp : In (entityCursor w)
                  (entities (healthSystem
                     (fst (createPlayerMonster x y type level w))))
               <-> (0 < health (scaledStats base level))%Z).
  { apply created_survives_iff.
    - now rewrite deadEntities_createPlayerMonster.
    - destruct (createPlayerMonster_frame x y type level w) as (-> & _).
      apply in_or_app. right. now left.
    - rewrite (createPlayerMonster_mask x y type level w base _ _ Hb).
      now rewrite Nat.eqb_refl.
    - now apply createPlayerMonster_health. }
  assert (He : In (entityCursor w)
                  (entities (healthSystem
                     (fst (createEnemyMonster x y type level w))))
               <-> (0 < health (scaledStats base level))%Z).
  { apply created_survives_iff.
    - now rewrite deadEntities_createEnemyMonster.
    - destruct (createEnemyMonster_frame x y type level w) as (-> & _).
      apply in_or_app. right. now left.
    - rewrite (createEnemyMonster_mask x y type level w base _ _ Hb).
      now rewrite Nat.eqb_refl.
    - now apply createEnemyMonster_health. }
  pose proof (BASE_MONSTER_STATS_nonneg type base Hb) as Hn.
  split; [exact Hp|]. split; [exact He|]. split.
  - intros Hl.
    destruct (BASE_MONSTER_STATS_positive type base Hb) as (Hpos & _).
    destruct (scaledStats_base_le base level Hn Hl) as (Hle & _).
    split; [apply Hp|apply He]; lia.
  - intros Hl. pose proof (scaledStats_health_nonpos base level Hn Hl) as Hle.
    split; [rewrite Hp; lia|]. split; [rewrite He; lia|].
    replace (playerEntities (healthSystem
               (fst (createPlayerMonster x y type level w))))
      with (playerEntities (fst (createPlayerMonster x y type level w)))
      by (symmetry; apply healthSystem_frame).
    rewrite createPlayerMonster_playerEntities, Hb.
    apply in_or_app. right. now left.
Qed.

Lemma created_monster_faces_healthSystem_witness :
  let x := 400 in
  let y := 300 in
  let type := MonsterType.FIRE in
  let level := 2 in
  let w := createWorld DEFAULT_CONFIG in
  let base := mkStats 100 15 5 120 25 in
  let e := entityCursor w in
  let wp := healthSystem (fst (createPlayerMonster x y type level w)) in
  let we := healthSystem (fst (createEnemyMonster x y type level w)) in
  BASE_MONSTER_STATS type = Some base /\
  deadEntities w = [] /\
  (In e (entities wp) <-> (0 < health (scaledStats base level))%Z) /\
  (In e (entities we) <-> (0 < health (scaledStats base level))%Z) /\
  (1 <= level -> In e (entities wp) /\ In e (entities we)) /\
  (level <= -1 ->
   ~ In e (entities wp) /\ ~ In e (entities we) /\ In e (playerEntities wp)).
Proof.
  intros x y type level w base e wp we.
  assert (Hb : BASE_MONSTER_STATS type = Some base) by reflexivity.
  assert (Hq : deadEntities w = []) by reflexivity.
  split; [exact Hb|]. split; [exact Hq|].
  exact (created_monster_faces_healthSystem x y type level w base Hb Hq).
Defined.

(** ** The spawn system *)

Lemma createEnemyMonster_returns (x y type level : Q) (w : World)
      (base : MonsterStats) :
  BASE_MONSTER_STATS type = Some base ->
  snd (createEnemyMonster x y type level w) = Return (entityCursor w).
Proof.
  intros Hb. unfold createEnemyMonster, addEntity.
  now rewrite (calculateMonsterStats_scaled type level base Hb).
Qed.

Lemma createEnemyMonster_identity (x y type level : Q) (w : World)
      (base : MonsterStats) :
  BASE_MONSTER_STATS type = Some base ->
  let w' := fst (createEnemyMonster x y type level w) in
  let e := entityCursor w in
  get Position_x e w' = x /\ get Position_y e w' = y /\
  get Monster_type e w' = type /\ get Monster_level e w' = level /\
  events w' = events w ++ [MONSTER_SPAWNED e (x, y) type level false].
Proof.
  intros Hb. cbv zeta. unfold createEnemyMonster, addEntity.
  rewrite (calculateMonsterStats_scaled type level base Hb). cbn [fst].
  repeat split; now get_simpl.
Qed.

Lemma spawn_interval_bounds (b r : Q) :
  0 < b -> 0 <= r -> r < 1 ->
  0.8 * b <= b * (0.8 + r * 0.4) /\ b * (0.8 + r * 0.4) < 1.2 * b.
Proof.
  intros Hb H0 H1.
  assert (E : b * (0.8 + r * 0.4) == 0.8 * b + 0.4 * (b * r)) by ring.
  assert (0 <= b * r) by (apply Qmult_le_0_compat; lra).
  assert (b * r < b * 1) by (apply Qmult_lt_l; assumption).
  rewrite E. split; lra.
Qed.

Lemma spawn_coordinate_bounds (r a : Q) :
  0 < a -> 0 <= r -> r < 1 -> 0 <= r * a /\ r * a < a.
Proof.
  intros Ha H0 H1. split.
  - apply Qmult_le_0_compat; lra.
  - assert (r * a < 1 * a) by (apply Qmult_lt_r; assumption). lra.
Qed.

(** X14.  What a firing of [spawnSystem] does.  When the timer is due
    (spawnTimer - delta <= 0), the arena and the base interval are positive
    and the six draws lie in [0, 1), the run never throws; it creates exactly
    one entity, an enemy, at the id the cursor stood at, and appends exactly
    one [MONSTER_SPAWNED] event with [isPlayer] false; the enemy stands 20
    units inside one of the four edges of the arena; its type is one of the
    four; its level is 3 for a level roll above 0.95, 2 for one above 0.8
    and 1 otherwise; the timer is re-armed to a value in
    [0.8, 1.2) x baseSpawnInterval; and [world.playerEntities] is
    unchanged. *)
Theorem spawnSystem_fires (rolls : SpawnRolls) (w : World) :
  unitDraws rolls ->
  0 < arenaWidth (config w) -> 0 < arenaHeight (config w) ->
  0 < baseSpawnInterval (config w) ->
  spawnTimer w - delta w <= 0 ->
  let e := entityCursor w in
  let w' := fst (spawnSystem rolls w) in
  snd (spawnSystem rolls w) = Return tt /\
  entities w' = entities w ++ [e] /\
  hasComponent Enemy e w' = true /\
  playerEntities w' = playerEntities w /\
  0.8 * baseSpawnInterval (config w) <= spawnTimer w' /\
  spawnTimer w' < 1.2 * baseSpawnInterval (config w) /\
  exists x y type level,
    events w' = events w ++ [MONSTER_SPAWNED e (x, y) type level false] /\
    get Position_x e w' = x /\ get Position_y e w' = y /\
    get Monster_type e w' = type /\ get Monster_level e w' = level /\
    onSpawnEdge (config w) x y /\
    (type = MonsterType.FIRE \/ type = MonsterType.WATER \/
     type = MonsterType.EARTH \/ type = MonsterType.AIR) /\
    (level = 3 /\ 0.95 < levelRoll rolls \/
     level = 2 /\ 0.8 < levelRoll rolls /\ levelRoll rolls <= 0.95 \/
     level = 1 /\ levelRoll rolls <= 0.8).
Proof.
  intros (Hi & He & Hx & Hy & Ht & Hl) HW HH Hb Hdue. cbv zeta.
  unfold spawnSystem. cbn [spawnTimer set_spawnTimer config].
  apply Qle_bool_iff in Hdue. rewrite Hdue. cbv zeta.
  destruct (BASE_MONSTER_STATS_index (Qfloor (typeRoll rolls * 4)))
    as [base Hbase]; [now apply Qfloor_roll_times_4; destruct Ht|].
  assert (Htype : inject_Z (Qfloor (typeRoll rolls * 4)) = MonsterType.FIRE \/
                  inject_Z (Qfloor (typeRoll rolls * 4)) = MonsterType.WATER \/
                  inject_Z (Qfloor (typeRoll rolls * 4)) = MonsterType.EARTH \/
                  inject_Z (Qfloor (typeRoll rolls * 4)) = MonsterType.AIR).
  { destruct Ht as (Ht0 & Ht1).
    pose proof (Qfloor_roll_times_4 (typeRoll rolls) Ht0 Ht1) as Hz.
    assert (Ez : (Qfloor (typeRoll rolls * 4) = 0 \/
                  Qfloor (typeRoll rolls * 4) = 1 \/
                  Qfloor (typeRoll rolls * 4) = 2 \/
                  Qfloor (typeRoll rolls * 4) = 3)%Z) by lia.
    destruct Ez as [-> | [-> | [-> | ->]]]; auto. }
  remember (inject_Z (Qfloor (typeRoll rolls * 4))) as type eqn:Etype.
  remember (if Qlt_bool 0.95 (levelRoll rolls) then 3
            else if Qlt_bool 0.8 (levelRoll rolls) then 2 else 1)
    as level eqn:Elevel.
  assert (Hlevel : level = 3 /\ 0.95 < levelRoll rolls \/
                   level = 2 /\ 0.8 < levelRoll rolls /\
                   levelRoll rolls <= 0.95 \/
                   level = 1 /\ levelRoll rolls <= 0.8).
  { subst level.
    destruct (Qlt_bool 0.95 (levelRoll rolls)) eqn:E3.
    - left. split; [reflexivity|now apply Qlt_bool_iff].
    - apply Qlt_bool_false_iff in E3.
      destruct (Qlt_bool 0.8 (levelRoll rolls)) eqn:E2.
      + right; left. apply Qlt_bool_iff in E2. auto.
      + right; right. apply Qlt_bool_false_iff in E2. auto. }
  clear Elevel.
  match goal with
  | |- context [let (_, _) := ?p in _] => destruct p as [x y] eqn:Epos
  end.
  assert (Hedge : onSpawnEdge (config w) x y).
  { destruct Hx as (Hx0 & Hx1), Hy as (Hy0 & Hy1).
    pose proof (spawn_coordinate_bounds _ _ HW Hx0 Hx1) as (? & ?).
    pose proof (spawn_coordinate_bounds _ _ HH Hy0 Hy1) as (? & ?).
    unfold onSpawnEdge.
    destruct (Qlt_bool (edgeRoll rolls) 0.5).
    - left.
      destruct (Qlt_bool (yRoll rolls) 0.5); inversion Epos; subst; auto.
    - right.
      destruct (Qlt_bool (xRoll rolls) 0.5); inversion Epos; subst; auto. }
  clear Epos.
  match goal with
  | |- context [createEnemyMonster x y type level ?v] => set (v0 := v)
  end.
  pose proof (createEnemyMonster_returns x y type level v0 base Hbase) as Hr.
  pose proof (createEnemyMonster_identity x y type level v0 base Hbase)
    as (Hpx & Hpy & Hmt & Hml & Hev).
  pose proof (createEnemyMonster_frame x y type level v0)
    as (Hent & _ & _ & _ & _ & _ & _ & Hst & _).
  pose proof (createEnemyMonster_mask x y type level v0 base Enemy
                (entityCursor v0) Hbase) as Hmask.
  pose proof (createEnemyMonster_playerEntities x y type level v0) as Hpl.
  destruct (createEnemyMonster x y type level v0) as [w' c].
  cbn [fst snd] in *. subst c. cbn [fst snd].
  change (entityCursor v0) with (entityCursor w) in *.
  change (entities v0) with (entities w) in *.
  change (events v0) with (events w) in *.
  change (playerEntities v0) with (playerEntities w) in *.
  destruct Hi as (Hi0 & Hi1).
  destruct (spawn_interval_bounds _ _ Hb Hi0 Hi1) as (Hlo & Hhi).
  split; [reflexivity|]. split; [exact Hent|].
  split; [rewrite Hmask, Nat.eqb_refl; reflexivity|].
  split; [exact Hpl|].
  split; [rewrite Hst; exact Hlo|]. split; [rewrite Hst; exact Hhi|].
  exists x, y, type, level. repeat split; assumption.
Qed.

Lemma spawnSystem_fires_witness :
  let rolls := typeRollHigh in
  let w := twoTypesWorld in
  let e := entityCursor w in
  let w' := fst (spawnSystem rolls w) in
  unitDraws rolls /\
  0 < arenaWidth (config w) /\ 0 < arenaHeight (config w) /\
  0 < baseSpawnInterval (config w) /\
  spawnTimer w - delta w <= 0 /\
  snd (spawnSystem rolls w) = Return tt /\
  entities w' = entities w ++ [e] /\
  hasComponent Enemy e w' = true /\
  playerEntities w' = playerEntities w /\
  0.8 * baseSpawnInterval (config w) <= spawnTimer w' /\
  spawnTimer w' < 1.2 * baseSpawnInterval (config w) /\
  exists x y type level,
    events w' = events w ++ [MONSTER_SPAWNED e (x, y) type level false] /\
    get Position_x e w' = x /\ get Position_y e w' = y /\
    get Monster_type e w' = type /\ get Monster_level e w' = level /\
    onSpawnEdge (config w) x y /\
    (type = MonsterType.FIRE \/ type = MonsterType.WATER \/
     type = MonsterType.EARTH \/ type = MonsterType.AIR) /\
    (level = 3 /\ 0.95 < levelRoll rolls \/
     level = 2 /\ 0.8 < levelRoll rolls /\ levelRoll rolls <= 0.95 \/
     level = 1 /\ levelRoll rolls <= 0.8).
Proof.
  intros rolls w e w'.
  assert (Hr : unitDraws rolls)
    by (unfold unitDraws, unitDraw; cbn; repeat split; lra).
  assert (HW : 0 < arenaWidth (config w)) by reflexivity.
  assert (HH : 0 < arenaHeight (config w)) by reflexivity.
  assert (Hb : 0 < baseSpawnInterval (config w)) by reflexivity.
  assert (Hd : spawnTimer w - delta w <= 0) by (cbn; lra).
  split; [exact Hr|]. split; [exact HW|]. split; [exact HH|].
  split; [exact Hb|]. split; [exact Hd|].
  exact (spawnSystem_fires rolls w Hr HW HH Hb Hd).
Defined.

Lemma spawnSystem_idle (rolls : SpawnRolls) (w : World) :
  0 < spawnTimer w - delta w ->
  spawnSystem rolls w
  = (set_spawnTimer (spawnTimer w - delta w) w, Return tt).
Proof.
  intros H. unfold spawnSystem. cbn [spawnTimer set_spawnTimer].
  destruct (Qle_bool (spawnTimer w - delta w) 0) eqn:E; [|reflexivity].
  apply Qle_bool_iff in E. lra.
Qed.

Lemma spawnSystem_rearmed (rolls : SpawnRolls) (w : World) :
  spawnTimer w - delta w <= 0 ->
  spawnTimer (fst (spawnSystem rolls w))
  = baseSpawnInterval (config w) * (0.8 + intervalRoll rolls * 0.4).
Proof.
  intros H. unfold spawnSystem. cbn [spawnTimer set_spawnTimer config].
  apply Qle_bool_iff in H. rewrite H. cbv zeta.
  match goal with
  | |- context [let (_, _) := ?p in _] => destruct p as [x y]
  end.
  match goal with
  | |- context [createEnemyMonster x y ?t ?l ?v] =>
      pose proof (createEnemyMonster_frame x y t l v)
        as (_ & _ & _ & _ & _ & _ & _ & Hst & _);
      destruct (createEnemyMonster x y t l v) as [w' [e|]]
  end; exact Hst.
Qed.

Lemma spawnFrames_wait (frames : list (Q * SpawnRolls)) (w : World) :
  Forall (fun frame => 0 <= fst frame) frames ->
  elapsed frames < spawnTimer w ->
  let w' := spawnFrames frames w in
  entities w' = entities w /\ entityCursor w' = entityCursor w /\
  events w' = events w /\ playerEntities w' = playerEntities w /\
  mask w' = mask w /\ store w' = store w /\
  spawnTimer w' == spawnTimer w - elapsed frames.
Proof.
  cbv zeta. revert w.
  induction frames as [|[d rolls] frames IH]; intros w Hpos Hlt.
  - cbn. repeat split; try reflexivity. ring.
  - inversion Hpos as [|? ? Hd Hrest]; subst. cbn [fst] in Hd.
    cbn [elapsed fold_right fst] in Hlt. fold (elapsed frames) in Hlt.
    assert (Hframes : 0 <= elapsed frames).
    { clear -Hrest. induction Hrest as [|[d' r'] l Hd' _ IHl]; cbn.
      - lra.
      - cbn [fst] in Hd'. fold (elapsed l). lra. }
    unfold spawnFrames. cbn [fold_left fst snd].
    fold (spawnFrames frames
            (fst (spawnSystem rolls (set_delta d w)))).
    rewrite spawnSystem_idle by (cbn [spawnTimer delta set_delta]; lra).
    cbn [fst].
    destruct (IH (set_spawnTimer (spawnTimer (set_delta d w)
                                  - delta (set_delta d w))
                                 (set_delta d w)) Hrest)
      as (E1 & E2 & E3 & E4 & E5 & E6 & E7).
    { cbn [spawnTimer delta set_delta set_spawnTimer]. lra. }
    rewrite E1, E2, E3, E4, E5, E6, E7.
    cbn [spawnTimer delta set_delta set_spawnTimer
         entities entityCursor events playerEntities mask store].
    cbn [elapsed fold_right fst]. fold (elapsed frames).
    repeat split; try reflexivity. ring.
Qed.

(** X15.  The cadence of [spawnSystem].  While the frame times that the
    game loop stores in [world.delta] are not negative and add up to less
    than the spawn timer, consecutive runs create nothing: the entities, the
    cursor, the event queue, [world.playerEntities] and every component and
    store are as before, whatever the random draws, and the timer has gone
    down by the time elapsed.  After a firing the timer stands at 0.8 times
    the base interval or more, so at least that much frame time passes
    before the next enemy is created. *)
Theorem spawnSystem_cadence (frames : list (Q * SpawnRolls)) :
  Forall (fun frame => 0 <= fst frame) frames ->
  (forall w,
      elapsed frames < spawnTimer w ->
      let w' := spawnFrames frames w in
      entities w' = entities w /\ entityCursor w' = entityCursor w /\
      events w' = events w /\ playerEntities w' = playerEntities w /\
      mask w' = mask w /\ store w' = store w /\
      spawnTimer w' == spawnTimer w - elapsed frames) /\
  (forall rolls w,
      spawnTimer w - delta w <= 0 ->
      0 < baseSpawnInterval (config w) ->
      0 <= intervalRoll rolls ->
      elapsed frames < 0.8 * baseSpawnInterval (config w) ->
      let w1 := fst (spawnSystem rolls w) in
      entities w1 = entities w ++ [entityCursor w] /\
      entities (spawnFrames frames w1) = entities w1 /\
      events (spawnFrames frames w1) = events w1).
Proof.
  intros Hpos. split.
  - intros w Hlt. exact (spawnFrames_wait frames w Hpos Hlt).
  - intros rolls w Hdue Hb Hi Hlt. cbv zeta.
    pose proof (spawnSystem_rearmed rolls w Hdue) as Hst.
    assert (Hent : entities (fst (spawnSystem rolls w))
                   = entities w ++ [entityCursor w]).
    { unfold spawnSystem. cbn [spawnTimer set_spawnTimer config].
      apply Qle_bool_iff in Hdue. rewrite Hdue. cbv zeta.
      match goal with
      | |- context [let (_, _) := ?p in _] => destruct p as [x y]
      end.
      match goal with
      | |- context [createEnemyMonster x y ?t ?l ?v] =>
          pose proof (createEnemyMonster_frame x y t l v) as (He & _);
          destruct (createEnemyMonster x y t l v) as [w' [e|]]
      end; exact He. }
    split; [exact Hent|].
    destruct (spawnFrames_wait frames (fst (spawnSystem rolls w)) Hpos)
      as (E1 & _ & E3 & _).
    + rewrite Hst.
      assert (0 <= baseSpawnInterval (config w) * intervalRoll rolls)
        by (apply Qmult_le_0_compat; lra).
      assert (E : baseSpawnInterval (config w)
                  * (0.8 + intervalRoll rolls * 0.4)
                  == 0.8 * baseSpawnInterval (config w)
                     + 0.4 * (baseSpawnInterval (config w)
                              * intervalRoll rolls)) by ring.
      rewrite E. lra.
    + split; [exact E1|exact E3].
Qed.

Lemma spawnSystem_cadence_witness :
  let frames := [(0.1, typeRollHigh); (0.05, typeRollHigh)] in
  Forall (fun frame => 0 <= fst frame) frames /\
  (forall w,
      elapsed frames < spawnTimer w ->
      let w' := spawnFrames frames w in
      entities w' = entities w /\ entityCursor w' = entityCursor w /\
      events w' = events w /\ playerEntities w' = playerEntities w /\
      mask w' = mask w /\ store w' = store w /\
      spawnTimer w' == spawnTimer w - elapsed frames) /\
  (forall rolls w,
      spawnTimer w - delta w <= 0 ->
      0 < baseSpawnInterval (config w) ->
      0 <= intervalRoll rolls ->
      elapsed frames < 0.8 * baseSpawnInterval (config w) ->
      let w1 := fst (spawnSystem rolls w) in
      entities w1 = entities w ++ [entityCursor w] /\
      entities (spawnFrames frames w1) = entities w1 /\
      events (spawnFrames frames w1) = events w1).
Proof.
  intros frames.
  assert (Hpos : Forall (fun frame => 0 <= fst frame) frames)
    by (repeat constructor; cbn; lra).
  split; [exact Hpos|].
  exact (spawnSystem_cadence frames Hpos).
Defined.

(** The cadence at work: from the world of the constructor (timer 3), 29
    frames of 0.1 s create nothing; the 30th creates the first enemy. *)
Example spawnSystem_first_enemy :
  let frames := repeat (0.1, typeRollHigh) 29 in
  let w := spawnFrames frames (createWorld DEFAULT_CONFIG) in
  entities w = [] /\
  entities (spawnFrames [(0.1, typeRollHigh)] w) = [0%nat].
Proof. vm_compute. split; reflexivity. Qed.

(** ** The constructor of the game *)

Lemma createPlayerMonster_returns (x y type level : Q) (w : World)
      (base : MonsterStats) :
  BASE_MONSTER_STATS type = Some base ->
  snd (createPlayerMonster x y type level w) = Return (entityCursor w).
Proof.
  intros Hb. unfold createPlayerMonster, addEntity.
  now rewrite (calculateMonsterStats_scaled type level base Hb).
Qed.

Lemma createPlayerMonster_throws (x y type level : Q) (w : World) :
  BASE_MONSTER_STATS type = None ->
  snd (createPlayerMonster x y type level w) = Throw_TypeError.
Proof.
  intros Hb. unfold createPlayerMonster, addEntity, calculateMonsterStats.
  now rewrite Hb.
Qed.

Lemma createPlayerMonster_identity (x y type level : Q) (w : World)
      (base : MonsterStats) :
  BASE_MONSTER_STATS type = Some base ->
  let w' := fst (createPlayerMonster x y type level w) in
  let e := entityCursor w in
  get Position_x e w' = x /\ get Position_y e w' = y /\
  get Monster_type e w' = type /\ get Monster_level e w' = level /\
  get Health_max e w' = inject_Z (health (scaledStats base level)) /\
  events w' = events w ++ [MONSTER_SPAWNED e (x, y) type level true].
Proof.
  intros Hb. cbv zeta. unfold createPlayerMonster, addEntity.
  rewrite (calculateMonsterStats_scaled type level base Hb). cbn [fst].
  repeat split; now get_simpl.
Qed.

Lemma initialMonsterType_config (roll : Q) (w w' : World) :
  config w' = config w ->
  initialMonsterType roll w' = initialMonsterType roll w.
Proof. intros E. unfold initialMonsterType. now rewrite E. Qed.

(** What the loop has done when every type it draws is among the four. *)
Lemma initializeLoop_returns (W H : Q) (turns : nat) :
  forall (rolls : nat -> PlayerRolls) (i : nat) (w : World),
    (forall j, (j < turns)%nat ->
               BASE_MONSTER_STATS
                 (initialMonsterType (playerTypeRoll (rolls (i + j)%nat)) w)
               <> None) ->
    let r := initializeLoop W H turns rolls i w in
    snd r = Return tt /\
    entities (fst r) = entities w ++ seq (entityCursor w) turns /\
    playerEntities (fst r)
    = playerEntities w ++ seq (entityCursor w) turns /\
    events (fst r)
    = events w ++ map (spawnedEvent true (fst r)) (seq (entityCursor w) turns) /\
    entityCursor (fst r) = (entityCursor w + turns)%nat /\
    config (fst r) = config w /\ spawnTimer (fst r) = spawnTimer w /\
    deadEntities (fst r) = deadEntities w /\
    time (fst r) = time w /\ delta (fst r) = delta w /\
    (forall f e, (e < entityCursor w)%nat -> get f e (fst r) = get f e w) /\
    (forall c e, (e < entityCursor w)%nat ->
                 hasComponent c e (fst r) = hasComponent c e w) /\
    (forall j, (j < turns)%nat ->
       let e := (entityCursor w + j)%nat in
       let type := initialMonsterType (playerTypeRoll (rolls (i + j)%nat)) w in
       hasComponent PlayerControlled e (fst r) = true /\
       hasComponent Enemy e (fst r) = hasComponent Enemy e w /\
       get Position_x e (fst r)
       = W / 2 + (centerXRoll (rolls (i + j)%nat) * 200 - 100) /\
       get Position_y e (fst r)
       = H / 2 + (centerYRoll (rolls (i + j)%nat) * 200 - 100) /\
       get Monster_type e (fst r) = type /\
       get Monster_level e (fst r) = 1 /\
       exists base,
         BASE_MONSTER_STATS type = Some base /\
         get Health_current e (fst r) = inject_Z (health base) /\
         get Health_max e (fst r) = inject_Z (health base)).
Proof.
  induction turns as [|turns IH]; intros rolls i w Hknown; cbv zeta.
  - cbn [initializeLoop fst snd seq map]. rewrite !app_nil_r, Nat.add_0_r.
    repeat split; try reflexivity; intros; lia.
  - cbn [initializeLoop].
    set (x := W / 2 + (centerXRoll (rolls i) * 200 - 100)).
    set (y := H / 2 + (centerYRoll (rolls i) * 200 - 100)).
    set (type := initialMonsterType (playerTypeRoll (rolls i)) w).
    destruct (BASE_MONSTER_STATS type) as [base|] eqn:Hb.
    2:{ exfalso. apply (Hknown 0%nat); [lia|].
        rewrite Nat.add_0_r. exact Hb. }
    pose proof (createPlayerMonster_returns x y type 1 w base Hb) as Hr.
    pose proof (createPlayerMonster_identity x y type 1 w base Hb)
      as (Hpx & Hpy & Hmt & Hml & Hhm & Hev).
    pose proof (createPlayerMonster_health x y type 1 w base Hb) as Hhc.
    pose proof (createPlayerMonster_frame x y type 1 w)
      as (Hent & Hcur & Htime & Hdelta & Hcfg & Hdead & _ & Hst & Hget & Hhas).
    pose proof (createPlayerMonster_playerEntities x y type 1 w) as Hpl.
    rewrite Hb in Hpl.
    pose proof (fun c =>
                  createPlayerMonster_mask x y type 1 w base c
                                           (entityCursor w) Hb) as Hmask.
    rewrite scaledStats_level_1 in Hhm, Hhc.
    destruct (createPlayerMonster x y type 1 w) as [w1 c1].
    cbn [fst snd] in *. subst c1.
    assert (Hknown1 : forall j, (j < turns)%nat ->
              BASE_MONSTER_STATS
                (initialMonsterType (playerTypeRoll (rolls (S i + j)%nat)) w1)
              <> None).
    { intros j Hj. rewrite (initialMonsterType_config _ w w1 Hcfg).
      replace (S i + j)%nat with (i + S j)%nat by lia.
      apply Hknown. lia. }
    destruct (IH rolls (S i) w1 Hknown1)
      as (I1 & I2 & I3 & I4 & I5 & I6 & I7 & I8 & I9 & I10 & I11 & I12 & I13).
    set (r := initializeLoop W H turns rolls (S i) w1) in *.
    assert (Hlt : (entityCursor w < entityCursor w1)%nat) by lia.
    split; [exact I1|].
    split; [rewrite I2, Hent, Hcur, <- app_assoc; reflexivity|].
    split; [rewrite I3, Hpl, Hcur, <- app_assoc; reflexivity|].
    split.
    { rewrite I4, Hev, Hcur, <- app_assoc. cbn [seq map app].
      unfold spawnedEvent at 2.
      rewrite !(I11 _ _ Hlt), Hpx, Hpy, Hmt, Hml. reflexivity. }
    split; [lia|].
    split; [congruence|]. split; [congruence|]. split; [congruence|].
    split; [congruence|]. split; [congruence|].
    split.
    { intros f e He. rewrite I11 by lia. apply Hget. lia. }
    split.
    { intros c e He. rewrite I12 by lia. apply Hhas. lia. }
    intros [|k] Hj.
    + rewrite !Nat.add_0_r. fold x y type.
      rewrite !(I11 _ _ Hlt), !(I12 _ _ Hlt), !Hmask, Nat.eqb_refl.
      repeat split; try assumption; try reflexivity.
      exists base. repeat split; assumption.
    + assert (Hk : (k < turns)%nat) by lia.
      specialize (I13 k Hk). cbv zeta in I13.
      rewrite (initialMonsterType_config _ w w1 Hcfg) in I13.
      replace (entityCursor w1 + k)%nat with (entityCursor w + S k)%nat
        in I13 by lia.
      replace (S i + k)%nat with (i + S k)%nat in I13 by lia.
      destruct I13 as (J1 & J2 & J3 & J4 & J5 & J6 & J7).
      split; [exact J1|].
      split; [rewrite J2; apply Hhas; lia|].
      repeat split; assumption.
Qed.

Lemma initializeLoop_throws (W H : Q) (turns : nat) :
  forall (rolls : nat -> PlayerRolls) (i : nat) (w : World) (j : nat),
    (j < turns)%nat ->
    BASE_MONSTER_STATS
      (initialMonsterType (playerTypeRoll (rolls (i + j)%nat)) w) = None ->
    snd (initializeLoop W H turns rolls i w) = Throw_TypeError.
Proof.
  induction turns as [|turns IH]; intros rolls i w j Hj Hnone; [lia|].
  cbn [initializeLoop].
  set (x := W / 2 + (centerXRoll (rolls i) * 200 - 100)).
  set (y := H / 2 + (centerYRoll (rolls i) * 200 - 100)).
  set (type := initialMonsterType (playerTypeRoll (rolls i)) w).
  destruct (BASE_MONSTER_STATS type) as [base|] eqn:Hb.
  - pose proof (createPlayerMonster_returns x y type 1 w base Hb) as Hr.
    pose proof (createPlayerMonster_frame x y type 1 w)
      as (_ & _ & _ & _ & Hcfg & _).
    destruct (createPlayerMonster x y type 1 w) as [w1 c1].
    cbn [fst snd] in *. subst c1.
    destruct j as [|j].
    + rewrite Nat.add_0_r in Hnone. fold type in Hnone. congruence.
    + apply (IH rolls (S i) w1 j); [lia|].
      rewrite (initialMonsterType_config _ w w1 Hcfg).
      replace (S i + j)%nat with (i + S j)%nat by lia. exact Hnone.
  - pose proof (createPlayerMonster_throws x y type 1 w Hb) as Hr.
    destruct (createPlayerMonster x y type 1 w) as [w1 c1].
    cbn [snd] in Hr. subst c1. reflexivity.
Qed.






(** The default game: one player monster, entity 0; with the draws 0.5,
    0.25 and 0.9 it is an AIR monster at (400, 250). *)
Example Game_constructor_default :
  let w := fst (Game_constructor DEFAULT_CONFIG
                                 (fun _ => mkPlayerRolls 0.5 0.25 0.9)) in
  playerEntities w = [0%nat] /\
  get Position_x 0%nat w == 400 /\ get Position_y 0%nat w == 250 /\
  get Monster_type 0%nat w = MonsterType.AIR /\
  get Health_current 0%nat w = 80.
Proof. vm_compute. repeat split; reflexivity. Qed.

Lemma BASE_MONSTER_STATS_outside (z : Z) :
  ~ (0 <= z < 4)%Z -> BASE_MONSTER_STATS (inject_Z z) = None.
Proof.
  intros Hz. apply BASE_MONSTER_STATS_None.
  unfold MonsterType.FIRE, MonsterType.WATER, MonsterType.EARTH,
    MonsterType.AIR.
  change 0 with (inject_Z 0). change 1 with (inject_Z 1).
  change 2 with (inject_Z 2). change 3 with (inject_Z 3).
  rewrite !inject_Z_injective. lia.
Qed.

Lemma bounded_search (n : nat) (P : nat -> option MonsterStats) :
  (forall j, (j < n)%nat -> P j <> None) \/
  (exists j, (j < n)%nat /\ P j = None).
Proof.
  induction n as [|n [IH|(j & Hj & Hn)]].
  - left. intros j Hj. lia.
  - destruct (P n) eqn:E.
    + left. intros j Hj. destruct (Nat.eq_dec j n) as [->|Hne].
      * congruence.
      * apply IH. lia.
    + right. exists n. split; [lia|exact E].
  - right. exists j. split; [lia|exact Hn].
Qed.

Lemma playerTurns_positive (c : GameConfig) :
  0 < initialPlayerMonsters c -> (0 < playerTurns c)%nat.
Proof.
  intros H. unfold playerTurns.
  assert (Hz : (0 < Qceiling (initialPlayerMonsters c))%Z).
  { rewrite Zlt_Qlt. apply Qlt_le_trans with (initialPlayerMonsters c);
      [exact H|apply Qle_ceiling]. }
  lia.
Qed.

(** X17.  When the constructor of [Game] fails.  It returns exactly when
    every type index its loop draws, floor(roll * monsterTypes), is among
    the four, and ends in the [TypeError] of the base-stat lookup exactly
    when some turn draws another index.  A configuration with at least one
    initial player monster and [monsterTypes] above 4 or below 0 is
    therefore not safe: there are draws in [0, 1) for which the constructor
    throws. *)
Theorem Game_constructor_throws_iff (c : GameConfig)
        (rolls : nat -> PlayerRolls) :
  (snd (Game_constructor c rolls) = Return tt <->
   forall j, (j < playerTurns c)%nat ->
             BASE_MONSTER_STATS (drawnType c rolls j) <> None) /\
  (snd (Game_constructor c rolls) = Throw_TypeError <->
   exists j, (j < playerTurns c)%nat /\
             BASE_MONSTER_STATS (drawnType c rolls j) = None) /\
  (0 < initialPlayerMonsters c ->
   monsterTypes c < 0 \/ 4 < monsterTypes c ->
   exists rolls',
     unitPlayerRolls rolls' /\
     snd (Game_constructor c rolls') = Throw_TypeError).
Proof.
  assert (Hret : forall rolls0,
            (forall j, (j < playerTurns c)%nat ->
                       BASE_MONSTER_STATS (drawnType c rolls0 j) <> None) ->
            snd (Game_constructor c rolls0) = Return tt).
  { intros rolls0 Hknown.
    unfold Game_constructor, Game_initializePlayerMonsters.
    change (config (createWorld c)) with c. fold (playerTurns c).
    apply (initializeLoop_returns (arenaWidth c) (arenaHeight c)
             (playerTurns c) rolls0 0%nat (createWorld c)).
    intros j Hj. cbn [Nat.add]. now apply Hknown. }
  assert (Hthrow : forall rolls0,
            (exists j, (j < playerTurns c)%nat /\
                       BASE_MONSTER_STATS (drawnType c rolls0 j) = None) ->
            snd (Game_constructor c rolls0) = Throw_TypeError).
  { intros rolls0 (j & Hj & Hnone).
    unfold Game_constructor, Game_initializePlayerMonsters.
    change (config (createWorld c)) with c. fold (playerTurns c).
    apply (initializeLoop_throws (arenaWidth c) (arenaHeight c)
             (playerTurns c) rolls0 0%nat (createWorld c) j Hj).
    exact Hnone. }
  split; [|split].
  - split; [|apply Hret].
    intros Hr.
    destruct (bounded_search (playerTurns c)
                (fun j => BASE_MONSTER_STATS (drawnType c rolls j)))
      as [Hall|Hex]; [exact Hall|].
    rewrite (Hthrow rolls Hex) in Hr. discriminate.
  - split; [|apply Hthrow].
    intros Hr.
    destruct (bounded_search (playerTurns c)
                (fun j => BASE_MONSTER_STATS (drawnType c rolls j)))
      as [Hall|Hex]; [|exact Hex].
    rewrite (Hret rolls Hall) in Hr. discriminate.
  - intros Hn Hmt. pose proof (playerTurns_positive c Hn) as Hturns.
    destruct Hmt as [Hneg|Hbig].
    + exists (fun _ => mkPlayerRolls 0.5 0.5 0.5). split.
      * intros i. unfold unitDraw. cbn. repeat split; lra.
      * apply Hthrow. exists 0%nat. split; [exact Hturns|].
        unfold drawnType, initialMonsterType. cbn [playerTypeRoll config
          createWorld].
        apply BASE_MONSTER_STATS_outside.
        assert (Hz : inject_Z (Qfloor (0.5 * monsterTypes c)) < inject_Z 0).
        { apply Qle_lt_trans with (0.5 * monsterTypes c);
            [apply Qfloor_le|]. change (inject_Z 0) with 0. lra. }
        rewrite <- Zlt_Qlt in Hz. lia.
    + exists (fun _ => mkPlayerRolls 0.5 0.5 (4 / monsterTypes c)). split.
      * intros i. unfold unitDraw. cbn [centerXRoll centerYRoll
          playerTypeRoll].
        assert (0 < monsterTypes c) by lra.
        repeat split; try lra.
        -- apply Qle_shift_div_l; [assumption|lra].
        -- apply Qlt_shift_div_r; [assumption|lra].
      * apply Hthrow. exists 0%nat. split; [exact Hturns|].
        unfold drawnType, initialMonsterType. cbn [playerTypeRoll config
          createWorld].
        assert (E : 4 / monsterTypes c * monsterTypes c == 4).
        { field. intros E0. rewrite E0 in Hbig. lra. }
        rewrite (Qfloor_comp _ _ E). reflexivity.
Qed.

(** With five configured types and a type roll of 0.9 the constructor of
    the game throws: floor(0.9 * 5) = 4 is no monster type. *)
Example Game_constructor_five_types :
  snd (Game_constructor (mkConfig 800 600 3 5 10 1)
                        (fun _ => mkPlayerRolls 0.5 0.5 0.9))
  = Throw_TypeError.
Proof. reflexivity. Qed.

(** ** The monster queries *)

Lemma filter_partition_length {A : Type} (p q r : A -> bool) (l : list A) :
  (forall x, In x l -> p x = xorb (q x) (r x) /\ q x && r x = false) ->
  length (filter p l) = (length (filter q l) + length (filter r l))%nat.
Proof.
  induction l as [|a l IH]; intros Hl; [reflexivity|].
  cbn [filter].
  destruct (Hl a (or_introl eq_refl)) as (Hp & Hqr).
  assert (IH' : length (filter p l)
                = (length (filter q l) + length (filter r l))%nat)
    by (apply IH; intros x Hx; apply Hl; now right).
  rewrite Hp.
  destruct (q a), (r a); cbn [xorb length] in *;
    try discriminate; lia.
Qed.

(** X18.  The monster queries in a world that satisfies the invariant of
    the world (every world the constructor, the creation functions and the
    systems at hand build): [monsterQuery] sees every entity that carries
    [Monster], each once; it is split into [playerMonsterQuery] and
    [enemyMonsterQuery], which share no entity, so that the number of
    monsters is the number of player monsters plus the number of enemies;
    and every entity of [playerMonsterQuery] is listed in
    [world.playerEntities]. *)
Theorem monsterQuery_factions (w : World) :
  worldInvariant w ->
  NoDup (monsterQuery w) /\
  (forall e, In e (monsterQuery w) <-> hasComponent Monster e w = true) /\
  (forall e, In e (monsterQuery w) <->
             In e (playerMonsterQuery w) \/ In e (enemyMonsterQuery w)) /\
  (forall e, ~ (In e (playerMonsterQuery w) /\ In e (enemyMonsterQuery w))) /\
  length (monsterQuery w)
  = (length (playerMonsterQuery w) + length (enemyMonsterQuery w))%nat /\
  (forall e, In e (playerMonsterQuery w) -> In e (playerEntities w)).
Proof.
  intros (Hwf & Hlive & _ & Hlisted & Hmon & _).
  assert (Hnd : NoDup (entities w)) by apply Hwf.
  assert (Hq : forall e,
             In e (monsterQuery w) <-> hasComponent Monster e w = true).
  { intros e. unfold monsterQuery. rewrite defineQuery_In. split.
    - intros (_ & Hc). apply Hc. cbn. auto.
    - intros Hm. destruct (Hmon e Hm) as (Hp & Hh & _).
      split; [now apply (Hlive Monster)|].
      intros c [<-|[<-|[<-|[]]]]; assumption. }
  assert (Hp : forall e,
             In e (playerMonsterQuery w) <->
             hasComponent Monster e w = true /\
             hasComponent PlayerControlled e w = true).
  { intros e. unfold playerMonsterQuery. rewrite defineQuery_In. split.
    - intros (_ & Hc). split; apply Hc; cbn; auto.
    - intros (Hm & Hpc). destruct (Hmon e Hm) as (Hpo & Hh & _).
      split; [now apply (Hlive Monster)|].
      intros c [<-|[<-|[<-|[<-|[]]]]]; assumption. }
  assert (He : forall e,
             In e (enemyMonsterQuery w) <->
             hasComponent Monster e w = true /\
             hasComponent Enemy e w = true).
  { intros e. unfold enemyMonsterQuery. rewrite defineQuery_In. split.
    - intros (_ & Hc). split; apply Hc; cbn; auto.
    - intros (Hm & Hen). destruct (Hmon e Hm) as (Hpo & Hh & _).
      split; [now apply (Hlive Monster)|].
      intros c [<-|[<-|[<-|[<-|[]]]]]; assumption. }
  split; [now apply defineQuery_NoDup|].
  split; [exact Hq|]. split; [|split; [|split]].
  - intros e. rewrite Hq, Hp, He. split.
    + intros Hm. destruct (Hmon e Hm) as (_ & _ & Hx).
      destruct (hasComponent Enemy e w); cbn in Hx; auto.
    + intros [(Hm & _)|(Hm & _)]; exact Hm.
  - intros e. rewrite Hp, He. intros ((Hm & Hpc) & (_ & Hen)).
    destruct (Hmon e Hm) as (_ & _ & Hx). rewrite Hpc, Hen in Hx.
    discriminate.
  - unfold monsterQuery, playerMonsterQuery, enemyMonsterQuery, defineQuery.
    apply filter_partition_length. intros e _. cbn [forallb].
    rewrite !andb_true_r.
    destruct (hasComponent Position e w); [|split; reflexivity].
    destruct (hasComponent Health e w); [|split; reflexivity].
    destruct (hasComponent Monster e w) eqn:Hm; [|split; reflexivity].
    destruct (Hmon e Hm) as (_ & _ & Hx). rewrite Hx.
    destruct (hasComponent Enemy e w); split; reflexivity.
  - intros e Hin. apply Hp in Hin. apply Hlisted, Hin.
Qed.

Lemma monsterQuery_factions_witness :
  let w0 := createWorld DEFAULT_CONFIG in
  let w1 := fst (createPlayerMonster 400 300 MonsterType.FIRE 1 w0) in
  let w := fst (createEnemyMonster 20 100 MonsterType.AIR 2 w1) in
  worldInvariant w /\
  NoDup (monsterQuery w) /\
  (forall e, In e (monsterQuery w) <-> hasComponent Monster e w = true) /\
  (forall e, In e (monsterQuery w) <->
             In e (playerMonsterQuery w) \/ In e (enemyMonsterQuery w)) /\
  (forall e, ~ (In e (playerMonsterQuery w) /\ In e (enemyMonsterQuery w))) /\
  length (monsterQuery w)
  = (length (playerMonsterQuery w) + length (enemyMonsterQuery w))%nat /\
  (forall e, In e (playerMonsterQuery w) -> In e (playerEntities w)).
Proof.
  intros w0 w1 w.
  assert (Hinv : worldInvariant w).
  { apply worldInvariant_createEnemyMonster,
      worldInvariant_createPlayerMonster, worldInvariant_createWorld. }
  split; [exact Hinv|].
  exact (monsterQuery_factions w Hinv).
Defined.

(** One player monster and one enemy: the monster query sees both, each
    faction query its own. *)
Example monsterQuery_two_factions :
  let w0 := createWorld DEFAULT_CONFIG in
  let w1 := fst (createPlayerMonster 400 300 MonsterType.FIRE 1 w0) in
  let w := fst (createEnemyMonster 20 100 MonsterType.AIR 2 w1) in
  monsterQuery w = [0%nat; 1%nat] /\
  playerMonsterQuery w = [0%nat] /\ enemyMonsterQuery w = [1%nat].
Proof. vm_compute. repeat split; reflexivity. Qed.

(** ** The health bar *)

Lemma healthSystem_survivor_health (w : World) (e : entity) :
  deadEntities w = [] ->
  In e (entities (healthSystem w)) ->
  hasComponent Health e (healthSystem w) = true ->
  0 < get Health_current e (healthSystem w).
Proof.
  intros Hq Hin Hh.
  rewrite (healthSystem_mask_survivor w e Health Hin) in Hh.
  assert (Hs : store (healthSystem w) = store w) by apply healthSystem_frame.
  unfold get. rewrite Hs. fold (get Health_current e w).
  rewrite (healthSystem_entities w Hq), filter_In, negb_true_iff in Hin.
  destruct Hin as (_ & Hdead). unfold isDead in Hdead. rewrite Hh in Hdead.
  cbn [andb] in Hdead.
  destruct (Qlt_le_dec 0 (get Health_current e w)) as [Hpos|Hle];
    [exact Hpos|].
  apply Qle_bool_iff in Hle. congruence.
Qed.

(** X19.  The health bar the renderer draws after the health system has
    run.  In a world where nobody's health is above its maximum and the
    dead-entity queue was empty, every monster that [monsterQuery] still
    lists after [healthSystem], with a collider of positive radius, gets a
    fill that is not empty and not wider than the background; the fill is
    as wide as the background exactly at full health; and the colour is red
    (0xFF5733) exactly when
    the health is at most a fifth of the maximum, yellow (0xF3FF33) when it
    is above a fifth and at most half, and green (0x33FF57) above half. *)
Theorem render_healthBar_after_healthSystem (w : World) (e : entity) :
  healthBounded w ->
  deadEntities w = [] ->
  In e (monsterQuery (healthSystem w)) ->
  0 < get Collider_radius e (healthSystem w) ->
  let w' := healthSystem w in
  let bar := render_healthBar e w' in
  let health := get Health_current e w' in
  let maxHealth := get Health_max e w' in
  0 < health /\ health <= maxHealth /\
  0 < healthFillWidth bar /\ healthFillWidth bar <= healthWidth bar /\
  (healthFillWidth bar == healthWidth bar <-> health == maxHealth) /\
  (healthColor bar = 0xFF5733%Z <-> health <= maxHealth * 0.2) /\
  (healthColor bar = 0xF3FF33%Z <->
   maxHealth * 0.2 < health /\ health <= maxHealth * 0.5) /\
  (healthColor bar = 0x33FF57%Z <-> maxHealth * 0.5 < health).
Proof.
  intros Hb Hq Hin Hr. cbv zeta.
  unfold monsterQuery in Hin. apply defineQuery_In in Hin.
  destruct Hin as (Hlive & Hc).
  assert (Hh : hasComponent Health e (healthSystem w) = true)
    by (apply Hc; cbn; auto).
  pose proof (healthSystem_survivor_health w e Hq Hlive Hh) as Hpos.
  destruct (healthBounded_healthSystem w Hb) as (_ & Hle).
  specialize (Hle e).
  unfold render_healthBar.
  cbn [healthFillWidth healthWidth healthColor].
  set (h := get Health_current e (healthSystem w)) in *.
  set (m := get Health_max e (healthSystem w)) in *.
  set (r := get Collider_radius e (healthSystem w)) in *.
  assert (Hm : 0 < m) by lra.
  assert (Hw : 0 < r * 2) by lra.
  assert (Hq1 : 0 < h / m) by (apply Qlt_shift_div_l; lra).
  assert (Hq2 : h / m <= 1) by (apply Qle_shift_div_r; lra).
  split; [exact Hpos|]. split; [exact Hle|].
  split; [now apply Qmult_lt_0_compat|].
  split.
  { assert (h / m * (r * 2) <= 1 * (r * 2))
      by (apply Qmult_le_compat_r; lra). lra. }
  split.
  { split.
    - intros E.
      assert (E0 : (h / m - 1) * (r * 2) == h / m * (r * 2) - r * 2)
        by ring.
      rewrite E in E0.
      assert (E1 : (h / m - 1) * (r * 2) == 0) by (rewrite E0; ring).
      apply Qmult_integral in E1. destruct E1 as [E1|E1]; [|lra].
      assert (E2 : h / m == 1) by lra.
      assert (E3 : h == h / m * m) by (field; lra).
      rewrite E3, E2. ring.
    - intros E. rewrite E.
      assert (E2 : m / m == 1) by (field; lra).
      rewrite E2. ring. }
  destruct (Qle_bool h (m * 0.2)) eqn:E5.
  - apply Qle_bool_iff in E5.
    split; [tauto|]. split; split; try discriminate; lra.
  - assert (H5 : m * 0.2 < h).
    { apply Qnot_le_lt. intros Hc5. apply Qle_bool_iff in Hc5. congruence. }
    destruct (Qle_bool h (m * 0.5)) eqn:E2.
    + apply Qle_bool_iff in E2.
      split; [split; [discriminate|lra]|].
      split; [tauto|]. split; [discriminate|lra].
    + assert (H2 : m * 0.5 < h).
      { apply Qnot_le_lt. intros Hc2. apply Qle_bool_iff in Hc2.
        congruence. }
      split; [split; [discriminate|lra]|].
      split; [split; [discriminate|lra]|]. tauto.
Qed.

Lemma render_healthBar_after_healthSystem_witness :
  let w := @attackSystem seriesMath twoPlayersWorld in
  let e := 1%nat in
  let w' := healthSystem w in
  let bar := render_healthBar e w' in
  let health := get Health_current e w' in
  let maxHealth := get Health_max e w' in
  healthBounded w /\
  deadEntities w = [] /\
  In e (monsterQuery (healthSystem w)) /\
  0 < get Collider_radius e (healthSystem w) /\
  0 < health /\ health <= maxHealth /\
  0 < healthFillWidth bar /\ healthFillWidth bar <= healthWidth bar /\
  (healthFillWidth bar == healthWidth bar <-> health == maxHealth) /\
  (healthColor bar = 0xFF5733%Z <-> health <= maxHealth * 0.2) /\
  (healthColor bar = 0xF3FF33%Z <->
   maxHealth * 0.2 < health /\ health <= maxHealth * 0.5) /\
  (healthColor bar = 0x33FF57%Z <-> maxHealth * 0.5 < health).
Proof.
  intros w e w' bar health maxHealth.
  assert (Hb : healthBounded w).
  { apply healthBounded_attackSystem.
    unfold twoPlayersWorld, Game_createPlayerMonster.
    apply healthBounded_createPlayerMonster; [apply Qle_refl|].
    apply healthBounded_createPlayerMonster; [apply Qle_refl|].
    apply healthBounded_createWorld. }
  assert (Hq : deadEntities w = []) by (vm_compute; reflexivity).
  assert (Hin : In e (monsterQuery (healthSystem w)))
    by (vm_compute; auto).
  assert (Hr : 0 < get Collider_radius e (healthSystem w))
    by (vm_compute; reflexivity).
  split; [exact Hb|]. split; [exact Hq|]. split; [exact Hin|].
  split; [exact Hr|].
  exact (render_healthBar_after_healthSystem w e Hb Hq Hin Hr).
Defined.

(** After one exchange of blows between a FIRE and a WATER monster the
    WATER monster, at 105 of 120 health, has a green bar of 43.75 by 6. *)
Example render_healthBar_after_a_strike :
  let w := healthSystem (@attackSystem seriesMath twoPlayersWorld) in
  let bar := render_healthBar 1%nat w in
  healthWidth bar == 50 /\ healthFillWidth bar == 43.75 /\
  healthHeight bar == 6 /\ healthX bar == -25 /\ healthY bar == -35 /\
  healthColor bar = 0x33FF57%Z.
Proof. vm_compute. repeat split; reflexivity. Qed.
